(** * sprites-js: command sessions, multiplexed operations and the control pool

    A shallow embedding of [src/websocket.ts] (class [WSCommand]) and
    [src/control.ts] (classes [OpConn], [ControlConnection], [ControlPool])
    together with the [StreamID] enum of [types.ts].

    Conventions of the embedding.
    - Objects live in a store and are named by their index; a method takes
      the index of [this].  Two holders of the same index alias one object.
    - A method is a computation in a state-and-exception monad.  A JavaScript
      [throw] keeps every mutation made before it, so [Throw] carries the
      state reached.
    - [emit] appends to the emitter's log.  As in Node's [EventEmitter],
      emitting ['error'] on an emitter without an ['error'] listener throws
      the error.
    - Strings are byte strings (UTF-8), so [Buffer.from(s)] is the list of
      the bytes of [s].
    - The JSON codec of the runtime is a parameter ([JSONRuntime]). *)

From Stdlib Require Import ZArith List String Lia Bool.
From Stdlib.Strings Require Import Byte.
From stdpp Require Import base list strings pretty.

Open Scope string_scope.
Open Scope list_scope.
Open Scope Z_scope.

(* ===================================================================== *)
(** ** A state monad with exceptions *)
(* ===================================================================== *)

Inductive Res (S A : Type) : Type :=
| Ok (a : A) (s : S)
| Throw (e : string) (s : S).
Arguments Ok {S A} a s.
Arguments Throw {S A} e s.

Definition M (S A : Type) : Type := S -> Res S A.

Definition ret {S A} (a : A) : M S A := fun s => Ok a s.
Definition throw {S A} (e : string) : M S A := fun s => Throw e s.
Definition bind {S A B} (m : M S A) (k : A -> M S B) : M S B :=
  fun s => match m s with
           | Ok a s' => k a s'
           | Throw e s' => Throw e s'
           end.
Definition get {S} : M S S := fun s => Ok s s.
Definition modify {S} (f : S -> S) : M S unit := fun s => Ok tt (f s).
(** [try { m } catch { }]: the exception is dropped, the mutations stay. *)
Definition try_ignore {S} (m : M S unit) : M S unit :=
  fun s => match m s with
           | Ok _ s' => Ok tt s'
           | Throw _ s' => Ok tt s'
           end.

Notation "x <- m ;; k" := (bind m (fun x => k))
  (at level 100, m at next level, right associativity).
Notation "m ;; k" := (bind m (fun _ => k))
  (at level 100, right associativity).

(** The state a computation ends in, whether it returned or threw. *)
Definition final {S A} (r : Res S A) : S :=
  match r with Ok _ s => s | Throw _ s => s end.
Definition returned {S A} (r : Res S A) : bool :=
  match r with Ok _ _ => true | Throw _ _ => false end.

(* ===================================================================== *)
(** ** types.ts: StreamID, and the frame layout *)
(* ===================================================================== *)

Inductive StreamID := Stdin | Stdout | Stderr | Exit | StdinEOF.

(** The numeric value of the enum member. *)
Definition StreamID_val (t : StreamID) : Z :=
  match t with
  | Stdin => 0 | Stdout => 1 | Stderr => 2 | Exit => 3 | StdinEOF => 4
  end.

Arguments StreamID_val : simpl never.

(** The enum member stored into one byte of a [Buffer]. *)
Definition StreamID_byte (t : StreamID) : byte :=
  match t with
  | Stdin => x00 | Stdout => x01 | Stderr => x02 | Exit => x03
  | StdinEOF => x04
  end.

(** Reading [buf[i]] gives a number in 0..255. *)
Definition byte_val (b : byte) : Z := Z.of_N (Byte.to_N b).

(** [Buffer.allocUnsafe(data.length + 1); message[0] = tag; data.copy(message, 1)]
    as in [OpConn.write] and [WSCommand.writeStdin]; [Buffer.from([tag])]
    of [sendEOF] is the same with no data. *)
Definition encodeFrame (tag : StreamID) (data : list byte) : list byte :=
  StreamID_byte tag :: data.

(** [data[0]] and [data.subarray(1)] of a non-empty buffer, as in
    [OpConn.handleData] and [WSCommand.handleMessage]; [None] stands for the
    guard [if (data.length === 0) return]. *)
Definition decodeFrame (data : list byte) : option (Z * list byte) :=
  match data with
  | [] => None
  | b :: payload => Some (byte_val b, payload)
  end.

(** [payload.length > 0 ? payload[0] : 0] *)
Definition exitCodeOf (payload : list byte) : Z :=
  match payload with
  | [] => 0
  | c :: _ => byte_val c
  end.

(** The member a numeric tag denotes, if any ([data[0] as StreamID]). *)
Definition StreamID_of_val (z : Z) : option StreamID :=
  if z =? 0 then Some Stdin
  else if z =? 1 then Some Stdout
  else if z =? 2 then Some Stderr
  else if z =? 3 then Some Exit
  else if z =? 4 then Some StdinEOF
  else None.

(** What arrives in a WebSocket [MessageEvent]. *)
Inductive MessageData :=
| DString (s : string)
| DBinary (b : list byte).

(** [Buffer.from(event.data)] *)
Definition Buffer_from (d : MessageData) : list byte :=
  match d with
  | DString s => list_byte_of_string s
  | DBinary b => b
  end.

(** [WebSocket.readyState] *)
Inductive ReadyState := CONNECTING | OPEN | CLOSING | CLOSED.

Definition isOPEN (r : ReadyState) : bool :=
  match r with OPEN => true | _ => false end.

(** A WebSocket as the client sees it: its state, what was sent on it and
    the [close(code, reason)] calls made. *)
Record WebSocket := mkWebSocket {
  readyState : ReadyState;
  sent : list MessageData;
  closeCalls : list (Z * string)
}.

Definition ws_send (d : MessageData) (w : WebSocket) : WebSocket :=
  mkWebSocket (readyState w) (sent w ++ [d]) (closeCalls w).

(** [ws.close(code, reason)] on an open socket starts the closing handshake. *)
Definition ws_close (code : Z) (reason : string) (w : WebSocket) : WebSocket :=
  mkWebSocket CLOSING (sent w) (closeCalls w ++ [(code, reason)]).

(** [this.ws && this.ws.readyState === WebSocket.OPEN] *)
Definition wsIsOpen (w : option WebSocket) : bool :=
  match w with
  | Some s => isOPEN (readyState s)
  | None => false
  end.

(** control.ts: the control envelope.  [args] is a [Record<string, unknown>];
    the record below has the keys the client reads or writes, each at the
    type the source casts it to or writes it at, [None] for an absent key. *)
Record Args := mkArgs {
  arg_exitCode : option Z;
  arg_error : option string;
  arg_cmd : option (list string);
  arg_env : option (list string);
  arg_dir : option string;
  arg_tty : option string;
  arg_rows : option string;
  arg_cols : option string;
  arg_stdin : option string
}.

Record ControlMessage := mkControlMessage {
  msg_type : string;
  msg_op : option string;
  msg_args : option Args
}.

(** The JSON codec of the JavaScript runtime, at the shapes the client
    parses and prints. *)
Class JSONRuntime := {
  (** [JSON.parse(s) as ControlMessage]; [None] when [JSON.parse] throws or
      returns [null], whose fields cannot be read *)
  JSON_parse_control : string -> option ControlMessage;
  (** [JSON.stringify(msg)] of a control envelope *)
  JSON_stringify_control : ControlMessage -> string;
  (** whether [JSON.parse(s)] returns *)
  JSON_valid : string -> bool;
  (** whether [JSON.parse(s)] returns [null] *)
  JSON_null : string -> bool;
  (** [Some c] when [JSON.parse(s)] has [type === 'exit'] and a numeric
      [exit_code] equal to [c] *)
  JSON_exit_notification : string -> option Z;
  (** [JSON.stringify({ type: 'resize', cols, rows })] *)
  JSON_stringify_resize : Z -> Z -> string;
  (** [JSON.stringify({ type: 'signal', signal })] *)
  JSON_stringify_signal : string -> string
}.

(* ===================================================================== *)
(** ** websocket.ts: WSCommand *)
(* ===================================================================== *)

Module WSCommand.

(** What the session emits on itself. *)
Inductive Event :=
| EvStdout (payload : list byte)
| EvStderr (payload : list byte)
| EvExit (code : Z)
| EvError (message : string)
| EvMessage (parsed : bool) (data : string).

Record t := mk {
  ws : option WebSocket;
  exitCode : Z;
  tty : bool;
  started : bool;
  done : bool;
  closeError : option string;
  pingInterval : bool;          (* the interval timer is armed *)
  pongTimeout : bool;
  lastPongTime : Z;
  errorListeners : nat;         (* listeners registered for 'error' *)
  emitted : list Event
}.

(** [new WSCommand(url, headers, tty)] *)
Definition new (tty0 : bool) : t :=
  mk None (-1) tty0 false false None false false 0 0%nat [].

Definition set_ws (v : option WebSocket) (s : t) : t :=
  mk v (exitCode s) (tty s) (started s) (done s) (closeError s)
     (pingInterval s) (pongTimeout s) (lastPongTime s) (errorListeners s)
     (emitted s).
Definition set_exitCode (v : Z) (s : t) : t :=
  mk (ws s) v (tty s) (started s) (done s) (closeError s)
     (pingInterval s) (pongTimeout s) (lastPongTime s) (errorListeners s)
     (emitted s).
Definition set_done (v : bool) (s : t) : t :=
  mk (ws s) (exitCode s) (tty s) (started s) v (closeError s)
     (pingInterval s) (pongTimeout s) (lastPongTime s) (errorListeners s)
     (emitted s).
Definition set_timers (pi po : bool) (s : t) : t :=
  mk (ws s) (exitCode s) (tty s) (started s) (done s) (closeError s)
     pi po (lastPongTime s) (errorListeners s) (emitted s).
Definition set_lastPongTime (v : Z) (s : t) : t :=
  mk (ws s) (exitCode s) (tty s) (started s) (done s) (closeError s)
     (pingInterval s) (pongTimeout s) v (errorListeners s) (emitted s).
Definition set_emitted (v : list Event) (s : t) : t :=
  mk (ws s) (exitCode s) (tty s) (started s) (done s) (closeError s)
     (pingInterval s) (pongTimeout s) (lastPongTime s) (errorListeners s) v.

(** [this.emit(name, ...)] *)
Definition emit (e : Event) : M t unit :=
  fun s =>
    let s' := set_emitted (emitted s ++ [e]) s in
    match e with
    | EvError m =>
        if Nat.eqb (errorListeners s) 0 then Throw m s' else Ok tt s'
    | _ => Ok tt s'
    end.

Definition stopKeepalive : M t unit := modify (set_timers false false).

(** [resetKeepalive]: [this.lastPongTime = Date.now()] *)
Definition resetKeepalive (now : Z) : M t unit :=
  modify (set_lastPongTime now).

Definition close : M t unit :=
  stopKeepalive ;;
  s <- get ;;
  match ws s with
  | Some sock =>
      if isOPEN (readyState sock)
      then modify (set_ws (Some (ws_close 1000 "" sock)))
      else ret tt
  | None => ret tt
  end.

Section Runtime.
Context `{JSONRuntime}.

Definition handleMessage (now : Z) (data : MessageData) : M t unit :=
  resetKeepalive now ;;
  s <- get ;;
  if tty s then
    match data with
    | DString text =>
        (* reading [msg.type] of [null] throws into the [catch] *)
        if JSON_valid text && negb (JSON_null text) then
          (match JSON_exit_notification text with
           | Some c =>
               modify (set_exitCode c) ;;
               s1 <- get ;;
               if done s1 then ret tt
               else modify (set_done true) ;; emit (EvExit c)
           | None => ret tt
           end) ;;
          emit (EvMessage true text)
        else emit (EvMessage false text)
    | DBinary b => emit (EvStdout b)
    end
  else
    match decodeFrame (Buffer_from data) with
    | None => ret tt
    | Some (streamId, payload) =>
        if streamId =? StreamID_val Stdout then emit (EvStdout payload)
        else if streamId =? StreamID_val Stderr then emit (EvStderr payload)
        else if streamId =? StreamID_val Exit then
          modify (set_exitCode (exitCodeOf payload)) ;;
          s1 <- get ;;
          (if done s1 then ret tt
           else modify (set_done true) ;; emit (EvExit (exitCodeOf payload))) ;;
          close
        else ret tt
    end.

End Runtime.

(** The message of [new Error(`WebSocket closed without exit frame (code ${event.code})`)] *)
Definition closedWithoutExit (code : Z) : string :=
  "WebSocket closed without exit frame (code " +:+ pretty code +:+ ")".

(** [handleClose(event)], [code] being [event.code]. *)
Definition handleClose (code : Z) : M t unit :=
  stopKeepalive ;;
  s <- get ;;
  if done s then ret tt
  else
    modify (set_done true) ;;
    if negb (tty s) && (exitCode s =? -1) then
      emit (EvError (default (closedWithoutExit code) (closeError s)))
    else
      (if tty s && (exitCode s =? -1)
       then modify (set_exitCode (if code =? 1000 then 0 else 1))
       else ret tt) ;;
      s1 <- get ;;
      emit (EvExit (exitCode s1)).

Definition writeStdin (data : list byte) : M t unit :=
  s <- get ;;
  match ws s with
  | Some sock =>
      if isOPEN (readyState sock) then
        if tty s
        then modify (set_ws (Some (ws_send (DBinary data) sock)))
        else modify (set_ws (Some (ws_send (DBinary (encodeFrame Stdin data)) sock)))
      else throw "WebSocket not open"
  | None => throw "WebSocket not open"
  end.

Definition sendStdinEOF : M t unit :=
  s <- get ;;
  match ws s with
  | Some sock =>
      if isOPEN (readyState sock) then
        if negb (tty s)
        then modify (set_ws (Some (ws_send (DBinary (encodeFrame StdinEOF [])) sock)))
        else ret tt
      else ret tt
  | None => ret tt
  end.

(** Keepalive constants, in milliseconds. *)
Definition WS_PING_INTERVAL : Z := 15000.
Definition WS_PONG_WAIT : Z := 45000.

Definition set_closeError (v : option string) (s : t) : t :=
  mk (ws s) (exitCode s) (tty s) (started s) (done s) v
     (pingInterval s) (pongTimeout s) (lastPongTime s) (errorListeners s)
     (emitted s).

(** [startKeepalive()], [now] being [Date.now()]: the clock is reset and
    the interval timer armed. *)
Definition startKeepalive (now : Z) : M t unit :=
  modify (set_lastPongTime now) ;;
  modify (fun s => set_timers true (pongTimeout s) s).

(** One firing, at time [now], of the callback [startKeepalive] hands to
    [setInterval]. *)
Definition keepaliveTick (now : Z) : M t unit :=
  s <- get ;;
  if negb (wsIsOpen (ws s)) then stopKeepalive
  else if now - lastPongTime s >? WS_PONG_WAIT then
    emit (EvError "WebSocket keepalive timeout") ;;
    close
  else ret tt.

(** The socket's ['error'] listener of [start()]; [resolved] is the local
    flag of [start()], true once the start promise was resolved.  Before
    that the error is emitted (and rejects [start()]); after it the error
    is only stored for [handleClose]. *)
Definition onSocketError (resolved : bool) : M t unit :=
  s <- get ;;
  if done s then ret tt
  else if negb resolved then emit (EvError "WebSocket error")
  else modify (set_closeError (Some "WebSocket error")).

Section Control.
Context `{JSONRuntime}.

Definition resize (cols rows : Z) : M t unit :=
  s <- get ;;
  match ws s with
  | Some sock =>
      if negb (tty s) || negb (isOPEN (readyState sock)) then ret tt
      else modify (set_ws (Some (ws_send
                     (DString (JSON_stringify_resize cols rows)) sock)))
  | None => ret tt
  end.

Definition signal (sig : string) : M t unit :=
  s <- get ;;
  match ws s with
  | Some sock =>
      if isOPEN (readyState sock)
      then modify (set_ws (Some (ws_send
                     (DString (JSON_stringify_signal sig)) sock)))
      else ret tt
  | None => ret tt
  end.

End Control.

(** The ['stdout'] and ['stderr'] payloads in a log. *)
Definition stdouts (l : list Event) : list (list byte) :=
  omap (fun e => match e with EvStdout b => Some b | _ => None end) l.
Definition stderrs (l : list Event) : list (list byte) :=
  omap (fun e => match e with EvStderr b => Some b | _ => None end) l.

(** The ['exit'] and ['error'] events in a log. *)
Definition exits (l : list Event) : list Z :=
  omap (fun e => match e with EvExit c => Some c | _ => None end) l.
Definition errors (l : list Event) : list string :=
  omap (fun e => match e with EvError m => Some m | _ => None end) l.

End WSCommand.

(* ===================================================================== *)
(** ** control.ts: the object store *)
(* ===================================================================== *)

Definition CONTROL_PREFIX : string := "control:".
Definition TYPE_OP_START : string := "op.start".
Definition TYPE_OP_COMPLETE : string := "op.complete".
Definition TYPE_OP_ERROR : string := "op.error".

Definition MAX_POOL_SIZE : Z := 100.
Definition POOL_DRAIN_THRESHOLD : Z := 20.
Definition POOL_DRAIN_TARGET : Z := 10.

(** A JavaScript [number], as far as [startOp] looks at one: through its
    truthiness and through [Number.prototype.toString].  An integer whose
    magnitude is at most [Number.MAX_SAFE_INTEGER] prints as its decimal
    digits (0 and -0 alike, as ["0"]); [NaN] is the other falsy number; any
    other value (a fraction, an infinity, a magnitude from 2^53 on, where
    the shortest digits or the exponent form such as ["1e+21"] are printed)
    is truthy and is given by the text it prints. *)
Inductive JSNumber :=
| JSInt (z : Z) (safe : (Z.abs z <? 2 ^ 53) = true)
| JSNaN
| JSOther (text : string).

(** [if (n)] *)
Definition Number_truthy (n : JSNumber) : bool :=
  match n with
  | JSInt z _ => negb (z =? 0)
  | JSNaN => false
  | JSOther _ => true
  end.

(** [n.toString()] *)
Definition Number_toString (n : JSNumber) : string :=
  match n with
  | JSInt z _ => pretty z
  | JSNaN => "NaN"
  | JSOther text => text
  end.

(** [StartOpOptions] *)
Record StartOpOptions := mkStartOpOptions {
  so_cmd : option (list string);
  so_env : option (list string);
  so_dir : option string;
  so_tty : option bool;
  so_rows : option JSNumber;
  so_cols : option JSNumber;
  so_stdin : option bool
}.

(** What an [OpConn] emits on itself. *)
Inductive OpEvent :=
| OpStdout (payload : list byte)
| OpStderr (payload : list byte)
| OpExit (code : Z)
| OpMessage (data : string)
| OpError (message : string)
| OpClose.

Record OpConn := mkOpConn {
  oc_cc : nat;                  (* the owning ControlConnection *)
  oc_tty : bool;
  oc_closed : bool;
  oc_exitCode : Z;
  oc_errorListeners : nat;      (* listeners registered for 'error' *)
  oc_closeOnce : list nat;      (* promises of pending wait() calls *)
  oc_emitted : list OpEvent
}.

(** What a [ControlConnection] emits on itself. *)
Inductive ConnEvent :=
| ConnError (message : string)
| ConnClose.

Record ControlConnection := mkControlConnection {
  cc_ws : option WebSocket;
  cc_opActive : bool;
  cc_opConn : option nat;
  cc_closed : bool;
  cc_closeError : option string;
  cc_poolActive : bool;
  cc_connected : bool;          (* the local [connected] of connect() *)
  cc_connect : option nat;      (* the promise connect() returned *)
  cc_errorListeners : nat;
  cc_emitted : list ConnEvent
}.

Inductive Value :=
| VUnit
| VNum (n : Z)
| VConn (cc : nat).

Inductive Promise :=
| Pending
| Fulfilled (v : Value)
| Rejected (e : string).

Record ControlPool := mkControlPool {
  pool_conns : list nat;
  pool_waiters : list nat;      (* promises of suspended acquire() calls *)
  pool_closed : bool;
  pool_maxSize : Z
}.

Record World := mkWorld {
  ops : list OpConn;
  conns : list ControlConnection;
  promises : list Promise;
  pool : ControlPool;
  (** acquire() calls suspended at [await cc.connect()]: the promise the
      call returned and the connection it is opening *)
  awaiting : list (nat * nat)
}.

Definition set_ops (v : list OpConn) (w : World) : World :=
  mkWorld v (conns w) (promises w) (pool w) (awaiting w).
Definition set_conns (v : list ControlConnection) (w : World) : World :=
  mkWorld (ops w) v (promises w) (pool w) (awaiting w).
Definition set_promises (v : list Promise) (w : World) : World :=
  mkWorld (ops w) (conns w) v (pool w) (awaiting w).
Definition set_pool (v : ControlPool) (w : World) : World :=
  mkWorld (ops w) (conns w) (promises w) v (awaiting w).
Definition set_awaiting (v : list (nat * nat)) (w : World) : World :=
  mkWorld (ops w) (conns w) (promises w) (pool w) v.

Definition set_oc_closed (v : bool) (o : OpConn) : OpConn :=
  mkOpConn (oc_cc o) (oc_tty o) v (oc_exitCode o) (oc_errorListeners o)
           (oc_closeOnce o) (oc_emitted o).
Definition set_oc_exitCode (v : Z) (o : OpConn) : OpConn :=
  mkOpConn (oc_cc o) (oc_tty o) (oc_closed o) v (oc_errorListeners o)
           (oc_closeOnce o) (oc_emitted o).
Definition set_oc_errorListeners (v : nat) (o : OpConn) : OpConn :=
  mkOpConn (oc_cc o) (oc_tty o) (oc_closed o) (oc_exitCode o) v
           (oc_closeOnce o) (oc_emitted o).
Definition set_oc_closeOnce (v : list nat) (o : OpConn) : OpConn :=
  mkOpConn (oc_cc o) (oc_tty o) (oc_closed o) (oc_exitCode o)
           (oc_errorListeners o) v (oc_emitted o).
Definition set_oc_emitted (v : list OpEvent) (o : OpConn) : OpConn :=
  mkOpConn (oc_cc o) (oc_tty o) (oc_closed o) (oc_exitCode o)
           (oc_errorListeners o) (oc_closeOnce o) v.

Definition set_cc_ws (v : option WebSocket) (c : ControlConnection) :=
  mkControlConnection v (cc_opActive c) (cc_opConn c) (cc_closed c)
    (cc_closeError c) (cc_poolActive c) (cc_connected c) (cc_connect c)
    (cc_errorListeners c) (cc_emitted c).
Definition set_cc_opActive (v : bool) (c : ControlConnection) :=
  mkControlConnection (cc_ws c) v (cc_opConn c) (cc_closed c)
    (cc_closeError c) (cc_poolActive c) (cc_connected c) (cc_connect c)
    (cc_errorListeners c) (cc_emitted c).
Definition set_cc_opConn (v : option nat) (c : ControlConnection) :=
  mkControlConnection (cc_ws c) (cc_opActive c) v (cc_closed c)
    (cc_closeError c) (cc_poolActive c) (cc_connected c) (cc_connect c)
    (cc_errorListeners c) (cc_emitted c).
Definition set_cc_closed (v : bool) (c : ControlConnection) :=
  mkControlConnection (cc_ws c) (cc_opActive c) (cc_opConn c) v
    (cc_closeError c) (cc_poolActive c) (cc_connected c) (cc_connect c)
    (cc_errorListeners c) (cc_emitted c).
Definition set_cc_closeError (v : option string) (c : ControlConnection) :=
  mkControlConnection (cc_ws c) (cc_opActive c) (cc_opConn c) (cc_closed c)
    v (cc_poolActive c) (cc_connected c) (cc_connect c)
    (cc_errorListeners c) (cc_emitted c).
Definition set_cc_poolActive (v : bool) (c : ControlConnection) :=
  mkControlConnection (cc_ws c) (cc_opActive c) (cc_opConn c) (cc_closed c)
    (cc_closeError c) v (cc_connected c) (cc_connect c)
    (cc_errorListeners c) (cc_emitted c).
Definition set_cc_connected (v : bool) (c : ControlConnection) :=
  mkControlConnection (cc_ws c) (cc_opActive c) (cc_opConn c) (cc_closed c)
    (cc_closeError c) (cc_poolActive c) v (cc_connect c)
    (cc_errorListeners c) (cc_emitted c).
Definition set_cc_connect (v : option nat) (c : ControlConnection) :=
  mkControlConnection (cc_ws c) (cc_opActive c) (cc_opConn c) (cc_closed c)
    (cc_closeError c) (cc_poolActive c) (cc_connected c) v
    (cc_errorListeners c) (cc_emitted c).
Definition set_cc_errorListeners (v : nat) (c : ControlConnection) :=
  mkControlConnection (cc_ws c) (cc_opActive c) (cc_opConn c) (cc_closed c)
    (cc_closeError c) (cc_poolActive c) (cc_connected c) (cc_connect c)
    v (cc_emitted c).
Definition set_cc_emitted (v : list ConnEvent) (c : ControlConnection) :=
  mkControlConnection (cc_ws c) (cc_opActive c) (cc_opConn c) (cc_closed c)
    (cc_closeError c) (cc_poolActive c) (cc_connected c) (cc_connect c)
    (cc_errorListeners c) v.

Definition set_pool_conns (v : list nat) (p : ControlPool) : ControlPool :=
  mkControlPool v (pool_waiters p) (pool_closed p) (pool_maxSize p).
Definition set_pool_waiters (v : list nat) (p : ControlPool) : ControlPool :=
  mkControlPool (pool_conns p) v (pool_closed p) (pool_maxSize p).
Definition set_pool_closed (v : bool) (p : ControlPool) : ControlPool :=
  mkControlPool (pool_conns p) (pool_waiters p) v (pool_maxSize p).

(** Dereferencing.  An index that names no object is a null reference:
    using it throws a TypeError. *)
Definition getOp (i : nat) : M World OpConn :=
  fun w => match ops w !! i with
           | Some o => Ok o w
           | None => Throw "TypeError" w
           end.
Definition getCC (i : nat) : M World ControlConnection :=
  fun w => match conns w !! i with
           | Some c => Ok c w
           | None => Throw "TypeError" w
           end.
Definition updOp (i : nat) (f : OpConn -> OpConn) : M World unit :=
  modify (fun w => set_ops (alter f i (ops w)) w).
Definition updCC (i : nat) (f : ControlConnection -> ControlConnection)
  : M World unit :=
  modify (fun w => set_conns (alter f i (conns w)) w).
Definition updPool (f : ControlPool -> ControlPool) : M World unit :=
  modify (fun w => set_pool (f (pool w)) w).

(** [new Promise(...)]: a fresh pending promise. *)
Definition newPromise : M World nat :=
  fun w => Ok (length (promises w))
              (set_promises (promises w ++ [Pending]) w).
(** [resolve(v)] / [reject(e)]: settling a settled promise does nothing. *)
Definition settled (r : Promise) (st : Promise) : Promise :=
  match st with Pending => r | _ => st end.
Definition settle (p : nat) (r : Promise) : M World unit :=
  modify (fun w => set_promises (alter (settled r) p (promises w)) w).

Fixpoint forEach {S A} (f : A -> M S unit) (l : list A) : M S unit :=
  match l with
  | [] => ret tt
  | x :: l' => f x ;; forEach f l'
  end.

(* ===================================================================== *)
(** ** control.ts: OpConn and ControlConnection *)
(* ===================================================================== *)

(** [opConn.emit(name, ...)].  The ['close'] listeners are the ones
    [wait()] registered with [once]: each resolves its promise with the
    exit code stored when the event fires. *)
Definition OpConn_emit (this : nat) (e : OpEvent) : M World unit :=
  o <- getOp this ;;
  updOp this (set_oc_emitted (oc_emitted o ++ [e])) ;;
  match e with
  | OpError m =>
      if Nat.eqb (oc_errorListeners o) 0 then throw m else ret tt
  | OpClose =>
      updOp this (set_oc_closeOnce []) ;;
      forEach (fun p => settle p (Fulfilled (VNum (oc_exitCode o))))
              (oc_closeOnce o)
  | _ => ret tt
  end.

(** [opConn.on('error', listener)], done by the caller. *)
Definition OpConn_onError (this : nat) : M World unit :=
  o <- getOp this ;;
  updOp this (set_oc_errorListeners (S (oc_errorListeners o))).

Definition ControlConnection_emit (this : nat) (e : ConnEvent) : M World unit :=
  c <- getCC this ;;
  updCC this (set_cc_emitted (cc_emitted c ++ [e])) ;;
  match e with
  | ConnError m =>
      if Nat.eqb (cc_errorListeners c) 0 then throw m else ret tt
  | ConnClose => ret tt
  end.

Definition ControlConnection_isActive (this : nat) : M World bool :=
  c <- getCC this ;; ret (cc_poolActive c).

Definition ControlConnection_setActive (this : nat) (active : bool)
  : M World unit :=
  getCC this ;; updCC this (set_cc_poolActive active).

Definition ControlConnection_clearOpConn (this : nat) : M World unit :=
  getCC this ;; updCC this (set_cc_opConn None).

Definition ControlConnection_isClosed (this : nat) : M World bool :=
  c <- getCC this ;; ret (cc_closed c).

Definition ControlConnection_sendData (this : nat) (data : list byte)
  : M World unit :=
  c <- getCC this ;;
  match cc_ws c with
  | Some sock =>
      if isOPEN (readyState sock)
      then updCC this (set_cc_ws (Some (ws_send (DBinary data) sock)))
      else throw "WebSocket not connected"
  | None => throw "WebSocket not connected"
  end.

Definition OpConn_write (this : nat) (data : list byte) : M World unit :=
  o <- getOp this ;;
  if oc_closed o then throw "Operation closed"
  else if oc_tty o then ControlConnection_sendData (oc_cc o) data
  else ControlConnection_sendData (oc_cc o) (encodeFrame Stdin data).

Definition OpConn_sendEOF (this : nat) : M World unit :=
  o <- getOp this ;;
  if oc_closed o || oc_tty o then ret tt
  else ControlConnection_sendData (oc_cc o) (encodeFrame StdinEOF []).

Definition OpConn_handleData (this : nat) (data : list byte) : M World unit :=
  o <- getOp this ;;
  if oc_tty o then OpConn_emit this (OpStdout data)
  else
    match decodeFrame data with
    | None => ret tt
    | Some (streamId, payload) =>
        if streamId =? StreamID_val Stdout
        then OpConn_emit this (OpStdout payload)
        else if streamId =? StreamID_val Stderr
        then OpConn_emit this (OpStderr payload)
        else if streamId =? StreamID_val Exit
        then
          updOp this (set_oc_exitCode (exitCodeOf payload)) ;;
          OpConn_emit this (OpExit (exitCodeOf payload))
        else ret tt
    end.

Definition OpConn_complete (this : nat) (exitCode : option Z) : M World unit :=
  o <- getOp this ;;
  if oc_closed o then ret tt
  else
    updOp this (set_oc_closed true) ;;
    (match exitCode with
     | Some c => updOp this (set_oc_exitCode c)
     | None => ret tt
     end) ;;
    OpConn_emit this OpClose.

Definition OpConn_close (this : nat) : M World unit :=
  o <- getOp this ;;
  if oc_closed o then ret tt
  else
    updOp this (set_oc_closed true) ;;
    OpConn_emit this OpClose.

Definition OpConn_isClosed (this : nat) : M World bool :=
  o <- getOp this ;; ret (oc_closed o).

Definition OpConn_getExitCode (this : nat) : M World Z :=
  o <- getOp this ;; ret (oc_exitCode o).

(** [wait()] returns a promise: already fulfilled with the exit code when
    the operation is closed, else pending until ['close'] is emitted. *)
Definition OpConn_wait (this : nat) : M World nat :=
  o <- getOp this ;;
  p <- newPromise ;;
  if oc_closed o
  then settle p (Fulfilled (VNum (oc_exitCode o))) ;; ret p
  else updOp this (set_oc_closeOnce (oc_closeOnce o ++ [p])) ;; ret p.

(** [new ControlConnection(sprite)] *)
Definition newControlConnection : M World nat :=
  fun w => Ok (length (conns w))
              (set_conns
                 (conns w ++ [mkControlConnection None false None false None
                                false false None 0%nat []]) w).

(** [new OpConn(cc, tty)] *)
Definition newOpConn (cc : nat) (tty : bool) : M World nat :=
  fun w => Ok (length (ops w))
              (set_ops (ops w ++ [mkOpConn cc tty false (-1) 0%nat [] []]) w).

(** [connect()]: the socket is created in state CONNECTING and the promise
    returned is settled by the socket's ['open'] or ['error'] event.  A
    [Throw] is the rejection of the promise an async method returns. *)
Definition ControlConnection_connect (this : nat) : M World nat :=
  c <- getCC this ;;
  match cc_ws c with
  | Some _ => throw "Already connected"
  | None =>
      p <- newPromise ;;
      updCC this (fun c => set_cc_connect (Some p)
                   (set_cc_connected false
                     (set_cc_ws (Some (mkWebSocket CONNECTING [] [])) c))) ;;
      ret p
  end.

(** The socket moved to [r] (done by the transport before it fires an event). *)
Definition ws_transition (this : nat) (r : ReadyState) : M World unit :=
  updCC this (fun c =>
    set_cc_ws (option_map (fun s => mkWebSocket r (sent s) (closeCalls s))
                          (cc_ws c)) c).

(** The ['open'] listener of connect(). *)
Definition ControlConnection_onOpen (this : nat) : M World unit :=
  c <- getCC this ;;
  updCC this (set_cc_connected true) ;;
  match cc_connect c with
  | Some p => settle p (Fulfilled VUnit)
  | None => ret tt
  end.

(** The ['error'] listener of connect(); [error] is the message built from
    the event and the URL. *)
Definition ControlConnection_onError (this : nat) (error : string)
  : M World unit :=
  c <- getCC this ;;
  updCC this (set_cc_closeError (Some error)) ;;
  if cc_connected c then ControlConnection_emit this (ConnError error)
  else
    match cc_connect c with
    | Some p => settle p (Rejected error)
    | None => ret tt
    end.

Definition ControlConnection_handleControlMessage (this : nat)
  (msg : ControlMessage) : M World unit :=
  if String.eqb (msg_type msg) TYPE_OP_COMPLETE then
    c <- getCC this ;;
    (match cc_opConn c with
     | Some o =>
         let exitCode := default 0 (msg_args msg ≫= arg_exitCode) in
         OpConn_complete o (Some exitCode)
     | None => ret tt
     end) ;;
    updCC this (set_cc_opActive false) ;;
    updCC this (set_cc_opConn None)
  else if String.eqb (msg_type msg) TYPE_OP_ERROR then
    c <- getCC this ;;
    (match cc_opConn c with
     | Some o =>
         let error := default "unknown error" (msg_args msg ≫= arg_error) in
         OpConn_emit o (OpError error) ;;
         OpConn_complete o None
     | None => ret tt
     end) ;;
    updCC this (set_cc_opActive false) ;;
    updCC this (set_cc_opConn None)
  else ret tt.

Definition ControlConnection_handleClose (this : nat) : M World unit :=
  c <- getCC this ;;
  updCC this (set_cc_closed true) ;;
  (match cc_opConn c with
   | Some o => OpConn_close o
   | None => ret tt
   end) ;;
  ControlConnection_emit this ConnClose.

Definition ControlConnection_close (this : nat) : M World unit :=
  c <- getCC this ;;
  (match cc_opConn c with
   | Some o => OpConn_close o
   | None => ret tt
   end) ;;
  (match cc_ws c with
   | Some sock =>
       if isOPEN (readyState sock)
       then updCC this (set_cc_ws (Some (ws_close 1000 "" sock)))
       else ret tt
   | None => ret tt
   end) ;;
  updCC this (set_cc_closed true).

(** [x || 'unknown'] on an optional string: the empty string is falsy. *)
Definition or_unknown (m : option string) : string :=
  match m with
  | Some s => if String.eqb s "" then "unknown" else s
  | None => "unknown"
  end.

(** The [args] object startOp builds from the options, by truthiness. *)
Definition startArgs (options : StartOpOptions) : Args :=
  mkArgs None None
    (so_cmd options)
    (so_env options)
    (match so_dir options with
     | Some d => if String.eqb d "" then None else Some d
     | None => None
     end)
    (match so_tty options with Some true => Some "true" | _ => None end)
    (match so_rows options with
     | Some r => if Number_truthy r then Some (Number_toString r) else None
     | None => None
     end)
    (match so_cols options with
     | Some c => if Number_truthy c then Some (Number_toString c) else None
     | None => None
     end)
    (match so_stdin options with
     | Some b => Some (if b then "true" else "false")
     | None => None
     end).

Section Runtime.
Context `{JSONRuntime}.

Definition OpConn_resize (this : nat) (cols rows : Z) : M World unit :=
  o <- getOp this ;;
  if negb (oc_tty o) then ret tt
  else ControlConnection_sendData (oc_cc o)
         (list_byte_of_string (JSON_stringify_resize cols rows)).

Definition OpConn_signal (this : nat) (sig : string) : M World unit :=
  o <- getOp this ;;
  ControlConnection_sendData (oc_cc o)
    (list_byte_of_string (JSON_stringify_signal sig)).

Definition OpConn_handleText (this : nat) (data : string) : M World unit :=
  if JSON_valid data then OpConn_emit this (OpMessage data) else ret tt.

Definition ControlConnection_sendControl (this : nat) (msg : ControlMessage)
  : M World unit :=
  c <- getCC this ;;
  match cc_ws c with
  | Some sock =>
      if isOPEN (readyState sock)
      then
        let frame := CONTROL_PREFIX +:+ JSON_stringify_control msg in
        updCC this (set_cc_ws (Some (ws_send (DString frame) sock)))
      else throw "WebSocket not connected"
  | None => throw "WebSocket not connected"
  end.

Definition ControlConnection_handleMessage (this : nat) (data : MessageData)
  : M World unit :=
  let deliver :=
    c <- getCC this ;;
    match cc_opConn c with
    | Some o =>
        match data with
        | DString s => OpConn_handleText o s
        | DBinary b => OpConn_handleData o b
        end
    | None => ret tt
    end in
  match data with
  | DString s =>
      if String.prefix CONTROL_PREFIX s then
        let payload :=
          String.substring (String.length CONTROL_PREFIX)
            (String.length s - String.length CONTROL_PREFIX) s in
        try_ignore
          (match JSON_parse_control payload with
           | Some msg => ControlConnection_handleControlMessage this msg
           | None => throw "SyntaxError"
           end)
      else deliver
  | DBinary _ => deliver
  end.

(** [startOp] has no [await]: it runs to its end when called, and a [Throw]
    is the rejection of the promise it returns. *)
Definition ControlConnection_startOp (this : nat) (op : string)
  (options : StartOpOptions) : M World nat :=
  c <- getCC this ;;
  if cc_closed c
  then throw ("Control connection closed: " +:+ or_unknown (cc_closeError c))
  else if cc_opActive c
  then throw "Operation already in progress"
  else if negb (wsIsOpen (cc_ws c))
  then throw "WebSocket not connected"
  else
    updCC this (set_cc_opActive true) ;;
    opConn <- newOpConn this (default false (so_tty options)) ;;
    updCC this (set_cc_opConn (Some opConn)) ;;
    let ctrlMsg :=
      mkControlMessage TYPE_OP_START (Some op) (Some (startArgs options)) in
    ControlConnection_sendControl this ctrlMsg ;;
    ret opConn.

End Runtime.

(* ===================================================================== *)
(** ** control.ts: ControlPool *)
(* ===================================================================== *)

(** [new ControlPool(sprite, maxSize)] in a store with nothing else. *)
Definition newWorld (maxSize : Z) : World :=
  mkWorld [] [] [] (mkControlPool [] [] false maxSize) [].

(** [!cc.isClosed() && !cc.isActive()] *)
Definition isAvailable (w : World) (cc : nat) : bool :=
  match conns w !! cc with
  | Some c => negb (cc_closed c) && negb (cc_poolActive c)
  | None => false
  end.

(** [acquire()] up to its first suspension.  The promise returned is
    fulfilled at once when an idle connection is found, is left pending
    with the call recorded in [awaiting] when the call suspends at
    [await cc.connect()], and is left pending as a waiter otherwise. *)
Definition ControlPool_acquire : M World nat :=
  p <- newPromise ;;
  w <- get ;;
  if pool_closed (pool w)
  then settle p (Rejected "Pool is closed") ;; ret p
  else
    match find (isAvailable w) (pool_conns (pool w)) with
    | Some cc =>
        ControlConnection_setActive cc true ;;
        settle p (Fulfilled (VConn cc)) ;;
        ret p
    | None =>
        if Z.of_nat (length (pool_conns (pool w))) <? pool_maxSize (pool w)
        then
          cc <- newControlConnection ;;
          ControlConnection_connect cc ;;
          modify (fun w => set_awaiting (awaiting w ++ [(p, cc)]) w) ;;
          ret p
        else
          updPool (fun pl => set_pool_waiters (pool_waiters pl ++ [p]) pl) ;;
          ret p
    end.

(** The rest of [acquire()] once [await cc.connect()] has returned. *)
Definition ControlPool_acquire_resume (p cc : nat) : M World unit :=
  updPool (fun pl => set_pool_conns (pool_conns pl ++ [cc]) pl) ;;
  ControlConnection_setActive cc true ;;
  settle p (Fulfilled (VConn cc)).

(** [for (const cc of idleConns) { if (closed >= toClose) break; ... }] *)
Fixpoint drainLoop (idleConns : list nat) (toClose closed : Z) : M World unit :=
  match idleConns with
  | [] => ret tt
  | cc :: rest =>
      if closed >=? toClose then ret tt
      else
        ControlConnection_close cc ;;
        updPool (fun pl =>
          set_pool_conns
            (List.filter (fun c => negb (Nat.eqb c cc)) (pool_conns pl)) pl) ;;
        drainLoop rest toClose (closed + 1)
  end.

Definition ControlPool_tryDrain : M World unit :=
  w <- get ;;
  if pool_closed (pool w)
     || (Z.of_nat (length (pool_conns (pool w))) <=? POOL_DRAIN_THRESHOLD)
  then ret tt
  else
    let idleConns := List.filter (isAvailable w) (pool_conns (pool w)) in
    let toClose := Z.of_nat (length (pool_conns (pool w))) - POOL_DRAIN_TARGET in
    if toClose <=? 0 then ret tt
    else drainLoop idleConns toClose 0.

Definition ControlPool_release (cc : nat) : M World unit :=
  ControlConnection_setActive cc false ;;
  ControlConnection_clearOpConn cc ;;
  w <- get ;;
  match pool_waiters (pool w) with
  | waiter :: rest =>
      updPool (set_pool_waiters rest) ;;
      ControlConnection_setActive cc true ;;
      settle waiter (Fulfilled (VConn cc))
  | [] => ControlPool_tryDrain
  end.

Definition ControlPool_close : M World unit :=
  updPool (set_pool_closed true) ;;
  w <- get ;;
  forEach (fun waiter => settle waiter (Rejected "Pool is closed"))
          (pool_waiters (pool w)) ;;
  updPool (set_pool_waiters []) ;;
  forEach ControlConnection_close (pool_conns (pool w)) ;;
  updPool (set_pool_conns []).

Definition ControlPool_size : M World Z :=
  w <- get ;; ret (Z.of_nat (length (pool_conns (pool w)))).

Definition ControlPool_hasConnections : M World bool :=
  w <- get ;; ret (0 <? Z.of_nat (length (pool_conns (pool w)))).

(* ===================================================================== *)
(** ** The transport's events, and the schedule of a run *)
(* ===================================================================== *)

(** The socket of [cc] opens: the ['open'] listener runs, then every
    [acquire()] suspended on this connection continues. *)
Definition socket_open (cc : nat) : M World unit :=
  ws_transition cc OPEN ;;
  ControlConnection_onOpen cc ;;
  w <- get ;;
  modify (set_awaiting
            (List.filter (fun pc => negb (Nat.eqb (snd pc) cc)) (awaiting w))) ;;
  forEach (fun pc => ControlPool_acquire_resume (fst pc) cc)
          (List.filter (fun pc => Nat.eqb (snd pc) cc) (awaiting w)).

(** The socket of [cc] fails: the ['error'] listener runs; before the
    connection was open this rejects connect(), and with it every
    [acquire()] suspended on it. *)
Definition socket_error (cc : nat) (error : string) : M World unit :=
  c <- getCC cc ;;
  ControlConnection_onError cc error ;;
  if cc_connected c then ret tt
  else
    w <- get ;;
    modify (set_awaiting
              (List.filter (fun pc => negb (Nat.eqb (snd pc) cc)) (awaiting w))) ;;
    forEach (fun pc => settle (fst pc) (Rejected error))
            (List.filter (fun pc => Nat.eqb (snd pc) cc) (awaiting w)).

(** The socket of [cc] closed. *)
Definition socket_close (cc : nat) : M World unit :=
  ws_transition cc CLOSED ;;
  ControlConnection_handleClose cc.

Section Schedule.
Context `{JSONRuntime}.

(** One synchronous section of a run: a call of a method of the three
    classes by a holder of the object, or an event of a socket. *)
Inductive Step :=
| CallAcquire
| CallRelease (cc : nat)
| CallPoolClose
| SocketOpen (cc : nat)
| SocketError (cc : nat) (error : string)
| SocketMessage (cc : nat) (data : MessageData)
| SocketClose (cc : nat)
| CallConnect (cc : nat)
| CallStartOp (cc : nat) (op : string) (options : StartOpOptions)
| CallSendData (cc : nat) (data : list byte)
| CallConnClose (cc : nat)
| CallWrite (o : nat) (data : list byte)
| CallSendEOF (o : nat)
| CallResize (o : nat) (cols rows : Z)
| CallSignal (o : nat) (sig : string)
| CallHandleData (o : nat) (data : list byte)
| CallHandleText (o : nat) (data : string)
| CallComplete (o : nat) (exitCode : option Z)
| CallOpClose (o : nat)
| CallWait (o : nat)
| CallOnError (o : nat).

Definition step (a : Step) : M World unit :=
  match a with
  | CallAcquire => ControlPool_acquire ;; ret tt
  | CallRelease cc => ControlPool_release cc
  | CallPoolClose => ControlPool_close
  | SocketOpen cc => socket_open cc
  | SocketError cc e => socket_error cc e
  | SocketMessage cc data => ControlConnection_handleMessage cc data
  | SocketClose cc => socket_close cc
  | CallConnect cc => ControlConnection_connect cc ;; ret tt
  | CallStartOp cc op options =>
      ControlConnection_startOp cc op options ;; ret tt
  | CallSendData cc data => ControlConnection_sendData cc data
  | CallConnClose cc => ControlConnection_close cc
  | CallWrite o data => OpConn_write o data
  | CallSendEOF o => OpConn_sendEOF o
  | CallResize o cols rows => OpConn_resize o cols rows
  | CallSignal o sig => OpConn_signal o sig
  | CallHandleData o data => OpConn_handleData o data
  | CallHandleText o data => OpConn_handleText o data
  | CallComplete o exitCode => OpConn_complete o exitCode
  | CallOpClose o => OpConn_close o
  | CallWait o => OpConn_wait o ;; ret tt
  | CallOnError o => OpConn_onError o
  end.

(** The store after a schedule; a section that throws leaves the store as
    it is at the throw and the run goes on with the next section. *)
Fixpoint run (sched : list Step) (w : World) : World :=
  match sched with
  | [] => w
  | a :: rest => run rest (final (step a w))
  end.

End Schedule.

(* ===================================================================== *)
(** ** Observations used in the statements *)
(* ===================================================================== *)

(** The exit code an inbound non-TTY message carries when it is an [Exit]
    frame. *)
Definition exitFrameCode (d : MessageData) : option Z :=
  match decodeFrame (Buffer_from d) with
  | Some (streamId, payload) =>
      if streamId =? StreamID_val Exit then Some (exitCodeOf payload) else None
  | None => None
  end.

(** The code of the first [Exit] frame among the inbound messages, each
    paired with its arrival time. *)
Fixpoint firstExit (msgs : list (Z * MessageData)) : option Z :=
  match msgs with
  | [] => None
  | (_, d) :: rest =>
      match exitFrameCode d with
      | Some c => Some c
      | None => firstExit rest
      end
  end.

Section SessionRun.
Context `{JSONRuntime}.

(** A whole session: the inbound messages in arrival order, then the
    transport's close event with [event.code = code]. *)
Definition WSCommand_deliver (msgs : list (Z * MessageData)) (s : WSCommand.t)
  : WSCommand.t :=
  fold_left (fun s m => final (WSCommand.handleMessage (fst m) (snd m) s))
            msgs s.

Definition WSCommand_session (msgs : list (Z * MessageData)) (code : Z)
  (s : WSCommand.t) : WSCommand.t :=
  final (WSCommand.handleClose code (WSCommand_deliver msgs s)).

End SessionRun.

(** What reaches a started command session from its socket: a message
    with its arrival time, or an error event after the start resolved. *)
Inductive Inbound :=
| InMessage (now : Z) (d : MessageData)
| InError.

(** The payload an inbound non-TTY message carries for ['stdout'], for
    ['stderr']. *)
Definition stdoutPayload (d : MessageData) : option (list byte) :=
  match decodeFrame (Buffer_from d) with
  | Some (streamId, payload) =>
      if streamId =? StreamID_val Stdout then Some payload else None
  | None => None
  end.
Definition stderrPayload (d : MessageData) : option (list byte) :=
  match decodeFrame (Buffer_from d) with
  | Some (streamId, payload) =>
      if streamId =? StreamID_val Stderr then Some payload else None
  | None => None
  end.

Definition inboundStdout (e : Inbound) : option (list byte) :=
  match e with InMessage _ d => stdoutPayload d | InError => None end.
Definition inboundStderr (e : Inbound) : option (list byte) :=
  match e with InMessage _ d => stderrPayload d | InError => None end.

Section InboundRun.
Context `{JSONRuntime}.

Definition WSCommand_inbound (e : Inbound) : M WSCommand.t unit :=
  match e with
  | InMessage now d => WSCommand.handleMessage now d
  | InError => WSCommand.onSocketError true
  end.

Definition WSCommand_react (es : list Inbound) (s : WSCommand.t)
  : WSCommand.t :=
  fold_left (fun s e => final (WSCommand_inbound e s)) es s.

(** The exit code an inbound TTY message notifies, if it is a JSON text
    with [type] ['exit'] and a numeric [exit_code]. *)
Definition ttyExitCode (e : Inbound) : option Z :=
  match e with
  | InMessage _ (DString text) =>
      if JSON_valid text && negb (JSON_null text)
      then JSON_exit_notification text
      else None
  | _ => None
  end.

Fixpoint firstTtyExit (es : list Inbound) : option Z :=
  match es with
  | [] => None
  | e :: rest =>
      match ttyExitCode e with
      | Some c => Some c
      | None => firstTtyExit rest
      end
  end.

End InboundRun.

(** Whether a message is a control envelope for the connection itself. *)
Definition isControlText (d : MessageData) : bool :=
  match d with
  | DString s => String.prefix CONTROL_PREFIX s
  | DBinary _ => false
  end.

(** What a data message adds to the ['stdout'] of the operation. *)
Definition opStdoutOf (tty : bool) (d : MessageData) : option (list byte) :=
  match d with
  | DBinary b => if tty then Some b else stdoutPayload (DBinary b)
  | DString _ => None
  end.

(** The ['stdout'] payloads in the log of an operation. *)
Definition op_stdouts (l : list OpEvent) : list (list byte) :=
  omap (fun e => match e with OpStdout b => Some b | _ => None end) l.

Section DeliverRun.
Context `{JSONRuntime}.

(** The store after the messages arrived, in order, on connection [cc]. *)
Definition ControlConnection_deliver (cc : nat) (msgs : list MessageData)
  (w : World) : World :=
  fold_left (fun w d => final (ControlConnection_handleMessage cc d w)) msgs w.

End DeliverRun.

(** A computation that keeps the relation [R] between the store it starts
    in and the store it ends in, whether it returns or throws. *)
Definition keeps (R : World -> World -> Prop) {A} (m : M World A) : Prop :=
  forall w, R w (final (m w)).

(** Connections of [w] are there in [w'], closed if they were closed and
    with a socket if they had one. *)
Definition conn_stable (w w' : World) : Prop :=
  forall i c, conns w !! i = Some c ->
    exists c', conns w' !! i = Some c'
      /\ (cc_closed c = true -> cc_closed c' = true)
      /\ (is_Some (cc_ws c) -> is_Some (cc_ws c')).

(** From [w] to [w'] the pool and the suspended calls are the same and
    every promise settled in [w] is settled the same way in [w']. *)
Definition quiet (w w' : World) : Prop :=
  awaiting w' = awaiting w /\ pool w' = pool w
  /\ forall p st, promises w !! p = Some st -> st <> Pending ->
                  promises w' !! p = Some st.

(** Operations closed in [w] are there and closed in [w']. *)
Definition closed_stable (w w' : World) : Prop :=
  forall o oc, ops w !! o = Some oc -> oc_closed oc = true ->
               exists oc', ops w' !! o = Some oc' /\ oc_closed oc' = true.

(** A computation that reopens no operation, wherever it ends. *)
Definition keeps_closed {A} (m : M World A) : Prop :=
  forall w, closed_stable w (final (m w)).

(** Every [opConn] field of a connection names an operation of the store. *)
Definition opConns_valid (w : World) : Prop :=
  forall i c o, conns w !! i = Some c -> cc_opConn c = Some o ->
                (o < length (ops w))%nat.

(** A runtime whose parser accepts no text, for the examples: none of them
    parses a message. *)
Definition rejectingJSON : JSONRuntime :=
  {| JSON_parse_control := fun _ => None;
     JSON_stringify_control := fun m => "{" +:+ msg_type m +:+ "}";
     JSON_valid := fun _ => false;
     JSON_null := fun _ => false;
     JSON_exit_notification := fun _ => None;
     JSON_stringify_resize := fun _ _ => "{}";
     JSON_stringify_signal := fun _ => "{}" |}.

(** The promise store after settling each promise of [ps] with [r]. *)
Definition settle_all (ps : list nat) (r : Promise) (l : list Promise)
  : list Promise :=
  fold_left (fun l p => alter (settled r) p l) ps l.

(** The operation after it closed with exit code [code]. *)
Definition closed_with (code : Z) (oc : OpConn) : OpConn :=
  mkOpConn (oc_cc oc) (oc_tty oc) true code (oc_errorListeners oc) []
           (oc_emitted oc ++ [OpClose]).

(** The connection after the envelope freed it. *)
Definition freed (c : ControlConnection) : ControlConnection :=
  set_cc_opConn None (set_cc_opActive false c).

(** The text of an exit notification with code 7, and a runtime that
    parses this one text. *)
Definition quoted (s : string) : string :=
  String (Ascii.ascii_of_nat 34) (s +:+ String (Ascii.ascii_of_nat 34) "").

Definition exit7_text : string :=
  "{" +:+ quoted "type" +:+ ":" +:+ quoted "exit" +:+ ","
      +:+ quoted "exit_code" +:+ ":7}".

Definition exit7JSON : JSONRuntime :=
  {| JSON_parse_control := fun _ => None;
     JSON_stringify_control := fun m => "{" +:+ msg_type m +:+ "}";
     JSON_valid := fun s => String.eqb s exit7_text;
     JSON_null := fun _ => false;
     JSON_exit_notification :=
       fun s => if String.eqb s exit7_text then Some 7 else None;
     JSON_stringify_resize := fun _ _ => "{}";
     JSON_stringify_signal := fun _ => "{}" |}.

(** A non-TTY session with an open socket and an error listener, its
    keepalive clock at 1000. *)
Definition sample_session : WSCommand.t :=
  WSCommand.mk (Some (mkWebSocket OPEN [] [])) (-1) false true false None
               true false 1000 1%nat [].

(** Example stores: one connection, connected; then with an operation
    started on it; then with an ['error'] listener on the operation and a
    pending [wait()]. *)
Definition sample_connected : World :=
  final ((cc <- newControlConnection ;;
          ControlConnection_connect cc ;;
          socket_open cc) (newWorld MAX_POOL_SIZE)).

Definition sample_options : StartOpOptions :=
  mkStartOpOptions (Some ["ls"; "-l"]) None (Some "/tmp") None
                   (Some (JSInt 24 eq_refl)) (Some (JSInt 80 eq_refl))
                   (Some true).

(** Options with falsy and unusual values: an empty command, an empty
    directory, 0 rows, 1e21 columns, stdin refused. *)
Definition sample_odd_options : StartOpOptions :=
  mkStartOpOptions (Some []) None (Some "") (Some true)
                   (Some (JSInt 0 eq_refl)) (Some (JSOther "1e+21"))
                   (Some false).

Definition sample_busy : World :=
  final (ControlConnection_startOp (H := rejectingJSON) 0 "exec"
           sample_options sample_connected).

Definition sample_listening : World :=
  final (OpConn_onError 0 sample_busy).

Definition sample_waiting : World :=
  final (OpConn_wait 0 sample_listening).

(** A TTY operation started on the connected example connection. *)
Definition sample_tty_busy : World :=
  final (ControlConnection_startOp (H := rejectingJSON) 0 "exec"
           (mkStartOpOptions (Some ["sh"]) None None (Some true)
                             (Some (JSInt 24 eq_refl)) (Some (JSInt 80 eq_refl))
                             None)
           sample_connected).

(** A pool of size 1 whose only connection is in use, with three callers
    queued behind it: promises 2, 3 and 4 in the order of their calls. *)
Definition sample_saturated : World :=
  run (H := rejectingJSON)
      [CallAcquire; SocketOpen 0; CallAcquire; CallAcquire; CallAcquire]
      (newWorld 1).

(** The suspended callers [j], ..., [j + n - 1]: caller [i] holds promise
    [2 i] and opens connection [i]. *)
Definition suspended (j n : nat) : list (nat * nat) :=
  map (fun i => (2 * i, i)%nat) (seq j n).

(** The connection as release() leaves it before it looks for waiters. *)
Definition released (c : ControlConnection) : ControlConnection :=
  set_cc_opConn None (set_cc_poolActive false c).

(** A connected connection nobody uses, and a pool holding 25 of them. *)
Definition idle_connection : ControlConnection :=
  mkControlConnection (Some (mkWebSocket OPEN [] [])) false None false None
                      false true None 0%nat [].


Definition op_error_boom : ControlMessage :=
  mkControlMessage TYPE_OP_ERROR None
    (Some (mkArgs None (Some "boom") None None None None None None None)).

Definition op_complete_with (code : Z) : ControlMessage :=
  mkControlMessage TYPE_OP_COMPLETE None
    (Some (mkArgs (Some code) None None None None None None None None)).

(** [JSON.stringify] of a control envelope, its members in the order in
    which the code writes them; exact on strings that need no escape. *)
Definition json_member (key : string) (value : option string) : list string :=
  match value with
  | Some text => [quoted key +:+ ":" +:+ text]
  | None => []
  end.

Definition json_object (members : list string) : string :=
  "{" +:+ String.concat "," members +:+ "}".

Definition json_array (items : list string) : string :=
  "[" +:+ String.concat "," (map quoted items) +:+ "]".

Definition stringify_args (a : Args) : string :=
  json_object
    (json_member "exitCode" (pretty <$> arg_exitCode a)
     ++ json_member "error" (quoted <$> arg_error a)
     ++ json_member "cmd" (json_array <$> arg_cmd a)
     ++ json_member "env" (json_array <$> arg_env a)
     ++ json_member "dir" (quoted <$> arg_dir a)
     ++ json_member "tty" (quoted <$> arg_tty a)
     ++ json_member "rows" (quoted <$> arg_rows a)
     ++ json_member "cols" (quoted <$> arg_cols a)
     ++ json_member "stdin" (quoted <$> arg_stdin a)).

Definition stringify_control (m : ControlMessage) : string :=
  json_object
    (json_member "type" (Some (quoted (msg_type m)))
     ++ json_member "op" (quoted <$> msg_op m)
     ++ json_member "args" (stringify_args <$> msg_args m)).

(** A JSON text written with apostrophes in the place of double quotes. *)
Fixpoint json_text (s : string) : string :=
  match s with
  | EmptyString => EmptyString
  | String c rest =>
      String (if Ascii.eqb c (Ascii.ascii_of_nat 39) then Ascii.ascii_of_nat 34
              else c)
             (json_text rest)
  end.

(** The texts of two envelopes of the server: op.error with the message
    boom, and op.complete with exit code 3. *)
Definition op_error_text : string :=
  json_text "{'type':'op.error','args':{'error':'boom'}}".

Definition op_complete_text : string :=
  json_text "{'type':'op.complete','args':{'exitCode':3}}".

(** A runtime that prints envelopes as above and parses these two texts. *)
Definition envelopeJSON : JSONRuntime :=
  {| JSON_parse_control :=
       fun s => if String.eqb s op_error_text then Some op_error_boom
                else if String.eqb s op_complete_text
                     then Some (op_complete_with 3)
                     else None;
     JSON_stringify_control := stringify_control;
     JSON_valid := fun s => String.eqb s op_error_text
                            || String.eqb s op_complete_text;
     JSON_null := fun _ => false;
     JSON_exit_notification := fun _ => None;
     JSON_stringify_resize := fun _ _ => "{}";
     JSON_stringify_signal := fun _ => "{}" |}.

(** The saturated example pool, written out. *)
Definition sample_full : World := Eval vm_compute in sample_saturated.

(** The example store with the pending wait, written out; the same after
    op.complete with code 0, after the socket died silently, and after the
    socket's close event. *)
(** A pool of 21 connected connections, all handed out. *)
Definition sample_busy21 : World :=
  mkWorld [] (replicate 21 (set_cc_poolActive true idle_connection)) []
          (mkControlPool (seq 0 21) [] false MAX_POOL_SIZE) [].

(** A pool of size 2 after one [acquire()]: connection 0 is connecting and
    the call (promise 0) is suspended on it. *)
Definition sample_connecting : World :=
  Eval vm_compute in run (H := rejectingJSON) [CallAcquire] (newWorld 2).

Definition sample_store : World := Eval vm_compute in sample_waiting.

Definition sample_completed : World :=
  Eval vm_compute in
    final (ControlConnection_handleControlMessage 0 (op_complete_with 0)
             sample_waiting).

Definition sample_dead_socket : World :=
  Eval vm_compute in final (ws_transition 0 CLOSED sample_waiting).

Definition sample_closed : World :=
  Eval vm_compute in final (socket_close 0 sample_waiting).

(* ===================================================================== *)
(** * Properties *)
(* ===================================================================== *)

Ltac unfold_monad :=
  unfold bind, ret, throw, get, modify, try_ignore, final, returned in *.

(* --------------------------------------------------------------------- *)
(** ** The frame layout *)
(* --------------------------------------------------------------------- *)

Lemma StreamID_byte_val (t : StreamID) : byte_val (StreamID_byte t) = StreamID_val t.
Proof. destruct t; reflexivity. Qed.

(* --------------------------------------------------------------------- *)
(** ** WSCommand: exit frame against transport close *)
(* --------------------------------------------------------------------- *)

Section WSCommandFacts.
Context `{JSONRuntime}.
Import WSCommand.

Lemma exits_snoc l e :
  exits (l ++ [e]) = exits l ++ match e with EvExit c => [c] | _ => [] end.
Proof.
  unfold exits. rewrite omap_app. destruct e; simpl; now rewrite ?app_nil_r.
Qed.

Lemma errors_snoc l e :
  errors (l ++ [e]) = errors l ++ match e with EvError m => [m] | _ => [] end.
Proof.
  unfold errors. rewrite omap_app. destruct e; simpl; now rewrite ?app_nil_r.
Qed.

(** A message that is no Exit frame leaves the session's verdict open. *)
Lemma handleMessage_other now d s :
  tty s = false -> exitFrameCode d = None ->
  let s' := final (handleMessage now d s) in
  tty s' = false /\ done s' = done s /\ exitCode s' = exitCode s
  /\ closeError s' = closeError s
  /\ exits (emitted s') = exits (emitted s)
  /\ errors (emitted s') = errors (emitted s).
Proof.
  intros Htty Hd. unfold handleMessage, exitFrameCode in *.
  unfold_monad. unfold resetKeepalive. unfold_monad. simpl. rewrite Htty.
  destruct (decodeFrame (Buffer_from d)) as [[sid payload]|]; simpl.
  2:{ repeat split; assumption. }
  destruct (sid =? StreamID_val Stdout) eqn:E1; simpl.
  { rewrite exits_snoc, errors_snoc, !app_nil_r. repeat split; assumption. }
  destruct (sid =? StreamID_val Stderr) eqn:E2; simpl.
  { rewrite exits_snoc, errors_snoc, !app_nil_r. repeat split; assumption. }
  destruct (sid =? StreamID_val Exit) eqn:E3; [discriminate|]. simpl.
  repeat split; assumption.
Qed.

(** The first Exit frame ends the session and emits its code. *)
Lemma handleMessage_exit now d c s :
  tty s = false -> done s = false -> exitFrameCode d = Some c ->
  let s' := final (handleMessage now d s) in
  tty s' = false /\ done s' = true /\ exitCode s' = c
  /\ exits (emitted s') = exits (emitted s) ++ [c]
  /\ errors (emitted s') = errors (emitted s).
Proof.
  intros Htty Hdone Hd. unfold handleMessage, exitFrameCode in *.
  unfold_monad. unfold resetKeepalive. unfold_monad. simpl. rewrite Htty.
  destruct (decodeFrame (Buffer_from d)) as [[sid payload]|]; [|discriminate].
  destruct (sid =? StreamID_val Exit) eqn:E3; [|discriminate].
  apply Z.eqb_eq in E3. subst sid. injection Hd as <-. simpl. rewrite Hdone.
  simpl. unfold close, stopKeepalive. unfold_monad. simpl.
  destruct (ws s) as [sock|]; simpl; [destruct (isOPEN (readyState sock))|];
    simpl; rewrite exits_snoc, errors_snoc, !app_nil_r; repeat split; assumption.
Qed.

(** Once done, no message emits an exit or an error. *)
Lemma handleMessage_done now d s :
  tty s = false -> done s = true ->
  let s' := final (handleMessage now d s) in
  tty s' = false /\ done s' = true
  /\ exits (emitted s') = exits (emitted s)
  /\ errors (emitted s') = errors (emitted s).
Proof.
  intros Htty Hdone. unfold handleMessage.
  unfold_monad. unfold resetKeepalive. unfold_monad. simpl. rewrite Htty.
  destruct (decodeFrame (Buffer_from d)) as [[sid payload]|]; simpl.
  2:{ repeat split; assumption. }
  destruct (sid =? StreamID_val Stdout) eqn:E1; simpl.
  { rewrite exits_snoc, errors_snoc, !app_nil_r. repeat split; assumption. }
  destruct (sid =? StreamID_val Stderr) eqn:E2; simpl.
  { rewrite exits_snoc, errors_snoc, !app_nil_r. repeat split; assumption. }
  destruct (sid =? StreamID_val Exit) eqn:E3; simpl.
  2:{ repeat split; assumption. }
  rewrite Hdone. simpl. unfold close, stopKeepalive. unfold_monad. simpl.
  destruct (ws s) as [sock|]; simpl; [destruct (isOPEN (readyState sock))|];
    simpl; repeat split; assumption.
Qed.

Lemma handleClose_done code s :
  done s = true -> emitted (final (handleClose code s)) = emitted s.
Proof.
  intros Hdone. unfold handleClose, stopKeepalive. unfold_monad. simpl.
  now rewrite Hdone.
Qed.

Lemma handleClose_without_exit code s :
  tty s = false -> done s = false -> exitCode s = -1 ->
  emitted (final (handleClose code s))
  = emitted s ++ [EvError (default (closedWithoutExit code) (closeError s))]
  /\ done (final (handleClose code s)) = true.
Proof.
  intros Htty Hdone Hx. unfold handleClose, stopKeepalive. unfold_monad.
  simpl. rewrite Hdone, Htty, Hx. simpl. unfold emit. simpl.
  destruct (Nat.eqb (errorListeners s) 0); simpl; split; reflexivity.
Qed.

Lemma session_done msgs code s :
  tty s = false -> done s = true ->
  exits (emitted (WSCommand_session msgs code s)) = exits (emitted s)
  /\ errors (emitted (WSCommand_session msgs code s)) = errors (emitted s).
Proof.
  unfold WSCommand_session, WSCommand_deliver.
  revert s. induction msgs as [|[now d] msgs IH]; intros s Htty Hdone; simpl.
  - now rewrite handleClose_done.
  - destruct (handleMessage_done now d s Htty Hdone) as (T & D & X & E).
    destruct (IH _ T D) as [IX IE]. rewrite IX, IE. now split.
Qed.

(** C5.  In a non-TTY session that starts with no exit code and not done,
    whatever messages arrive and whatever the transport's close code: when
    no Exit frame is among the messages the close emits one error and no
    exit event is ever emitted; when an Exit frame is among them the exit
    event is emitted once, with the code of the first such frame, and no
    error is emitted. *)
Theorem WSCommand_close_without_exit_is_error
  (msgs : list (Z * MessageData)) (code : Z) (s : WSCommand.t) :
  tty s = false -> done s = false -> exitCode s = -1 ->
  let s' := WSCommand_session msgs code s in
  match firstExit msgs with
  | None =>
      exits (emitted s') = exits (emitted s)
      /\ errors (emitted s')
         = errors (emitted s)
             ++ [default (closedWithoutExit code) (closeError s)]
  | Some c =>
      exits (emitted s') = exits (emitted s) ++ [c]
      /\ errors (emitted s') = errors (emitted s)
  end.
Proof.
  revert s. induction msgs as [|[now d] msgs IH]; intros s Htty Hdone Hx; simpl.
  - unfold WSCommand_session, WSCommand_deliver. simpl.
    destruct (handleClose_without_exit code s Htty Hdone Hx) as [E _].
    rewrite E, exits_snoc, errors_snoc, app_nil_r. now split.
  - destruct (exitFrameCode d) as [c|] eqn:Hd.
    + destruct (handleMessage_exit now d c s Htty Hdone Hd) as (T & D & _ & X & E).
      destruct (session_done msgs code _ T D) as [SX SE].
      unfold WSCommand_session, WSCommand_deliver in *. simpl.
      rewrite SX, SE, X, E. now split.
    + destruct (handleMessage_other now d s Htty Hd) as (T & D & C & CE & X & E).
      specialize (IH (final (handleMessage now d s)) T).
      rewrite D, C in IH. specialize (IH Hdone Hx). simpl in IH.
      unfold WSCommand_session, WSCommand_deliver in *. simpl.
      destruct (firstExit msgs); rewrite X, E, ?CE in IH; exact IH.
Qed.

End WSCommandFacts.

(* --------------------------------------------------------------------- *)
(** ** The store: lookups after updates *)
(* --------------------------------------------------------------------- *)

Lemma alter_as_insert {A} (f : A -> A) (l : list A) (i : nat) (x : A) :
  l !! i = Some x -> alter f i l = <[i := f x]> l.
Proof.
  revert i. induction l as [|y l IH]; intros [|i] Hl; simpl in *;
    try discriminate.
  - now injection Hl as ->.
  - f_equal. now apply IH.
Qed.

Lemma lookup_alter_Some {A} (f : A -> A) (l : list A) (i : nat) (x : A) :
  l !! i = Some x -> alter f i l !! i = Some (f x).
Proof. intros Hl. now rewrite list_lookup_alter_eq, Hl. Qed.

Lemma getCC_Ok w i c : conns w !! i = Some c -> getCC i w = Ok c w.
Proof. intros Hc. unfold getCC. now rewrite Hc. Qed.

Lemma getOp_Ok w i o : ops w !! i = Some o -> getOp i w = Ok o w.
Proof. intros Ho. unfold getOp. now rewrite Ho. Qed.

(** Reduce a method body one lookup at a time, using the lookups known in
    the context. *)
Ltac known_lookups :=
  repeat match goal with
  | Hl : ?l !! ?i = Some _ |- context [alter _ ?i ?l !! ?i] =>
      rewrite (lookup_alter_Some _ _ _ _ Hl)
  | Hl : ?l !! ?i = Some _ |- context [?l !! ?i] => rewrite Hl
  | Hn : ?i <> ?j |- context [alter _ ?i _ !! ?j] =>
      rewrite (list_lookup_alter_ne _ _ _ _ Hn)
  end.

Ltac exec :=
  repeat (unfold_monad; unfold getCC, getOp, updCC, updOp, updPool,
            newPromise, newOpConn, newControlConnection in *;
          unfold_monad; cbn [ops conns promises pool awaiting
            set_ops set_conns set_promises set_pool set_awaiting];
          known_lookups).

(* --------------------------------------------------------------------- *)
(** ** ControlConnection.startOp *)
(* --------------------------------------------------------------------- *)

Section StartOpFacts.
Context `{JSONRuntime}.

Lemma startOp_idle (w : World) (cc : nat) (c : ControlConnection)
  (op : string) (options : StartOpOptions) (sock : WebSocket) :
  conns w !! cc = Some c ->
  cc_closed c = false -> cc_opActive c = false ->
  cc_ws c = Some sock -> readyState sock = OPEN ->
  let opConn := length (ops w) in
  let envelope :=
    mkControlMessage TYPE_OP_START (Some op) (Some (startArgs options)) in
  let frame := DString (CONTROL_PREFIX +:+ JSON_stringify_control envelope) in
  ControlConnection_startOp cc op options w
  = Ok opConn
      (set_conns
         (<[cc := set_cc_ws (Some (ws_send frame sock))
                    (set_cc_opConn (Some opConn)
                       (set_cc_opActive true c))]> (conns w))
         (set_ops
            (ops w ++ [mkOpConn cc (default false (so_tty options))
                         false (-1) 0%nat [] []]) w)).
Proof.
  intros Hc Hclosed Hact Hws Hopen.
  unfold ControlConnection_startOp, ControlConnection_sendControl. exec.
  rewrite Hclosed, Hact. unfold wsIsOpen. rewrite Hws, Hopen. simpl.
  exec. simpl. rewrite list_alter_alter_eq.
  rewrite (lookup_alter_Some _ _ _ _ Hc). simpl. rewrite Hws, Hopen. simpl.
  rewrite list_alter_alter_eq. rewrite (alter_as_insert _ _ _ _ Hc).
  destruct c; simpl in *; subst. reflexivity.
Qed.

(** C3.  On a closed connection, and on a connection with an operation in
    flight, startOp throws at once and leaves the store as it was: nothing
    is sent, no operation is created or queued.  On an open idle connection
    it returns a new operation (not closed, exit code -1, absent from the
    store before), sends the single text frame made of the control prefix
    and the op.start envelope with the operation name and the arguments
    derived from the options, and marks the connection busy with that
    operation.  The arguments are: [cmd] and [env] when given; [dir] when
    given and not empty; [tty] as the string true when the option is true;
    [rows] and [cols] as the text [toString] prints when the number is
    given and is neither 0 nor NaN; [stdin] as the string true or false
    when given; and nothing else. *)
Theorem startOp_conflict_or_start (w : World) (cc : nat)
  (c : ControlConnection) (op : string) (options : StartOpOptions) :
  conns w !! cc = Some c ->
  (cc_closed c = true ->
     ControlConnection_startOp cc op options w
     = Throw ("Control connection closed: " +:+ or_unknown (cc_closeError c)) w)
  /\ (cc_closed c = false -> cc_opActive c = true ->
     ControlConnection_startOp cc op options w
     = Throw "Operation already in progress" w)
  /\ (forall sock, cc_closed c = false -> cc_opActive c = false ->
     cc_ws c = Some sock -> readyState sock = OPEN ->
     let opConn := length (ops w) in
     let number (n : option JSNumber) : option string :=
       match n with
       | Some (JSInt z _) => if z =? 0 then None else Some (pretty z)
       | Some JSNaN => None
       | Some (JSOther text) => Some text
       | None => None
       end in
     let args :=
       {| arg_exitCode := None;
          arg_error := None;
          arg_cmd := so_cmd options;
          arg_env := so_env options;
          arg_dir := match so_dir options with
                     | Some "" => None
                     | given => given
                     end;
          arg_tty := match so_tty options with
                     | Some true => Some "true"
                     | _ => None
                     end;
          arg_rows := number (so_rows options);
          arg_cols := number (so_cols options);
          arg_stdin := match so_stdin options with
                       | Some true => Some "true"
                       | Some false => Some "false"
                       | None => None
                       end |} in
     let envelope :=
       {| msg_type := "op.start"; msg_op := Some op; msg_args := Some args |} in
     let frame := DString ("control:" +:+ JSON_stringify_control envelope) in
     ops w !! opConn = None
     /\ ControlConnection_startOp cc op options w
        = Ok opConn
            (set_conns
               (<[cc := set_cc_ws (Some (ws_send frame sock))
                          (set_cc_opConn (Some opConn)
                             (set_cc_opActive true c))]> (conns w))
               (set_ops
                  (ops w ++ [mkOpConn cc (default false (so_tty options))
                               false (-1) 0%nat [] []]) w))).
Proof.
  intros Hc. split; [|split].
  - intros Hclosed. unfold ControlConnection_startOp. exec. now rewrite Hclosed.
  - intros Hclosed Hact. unfold ControlConnection_startOp. exec.
    now rewrite Hclosed, Hact.
  - intros sock Hclosed Hact Hws Hopen. split.
    { apply lookup_ge_None. lia. }
    rewrite (startOp_idle w cc c op options sock Hc Hclosed Hact Hws Hopen).
    cbv zeta. unfold startArgs, TYPE_OP_START, CONTROL_PREFIX.
    destruct options as [cmd env dir tty rows cols stdin].
    cbn [so_cmd so_env so_dir so_tty so_rows so_cols so_stdin].
    destruct dir as [[|a d]|], stdin as [[|]|],
      rows as [[z safe| |text]|], cols as [[z' safe'| |text']|];
      cbn [Number_truthy Number_toString String.eqb];
      try destruct (z =? 0); try destruct (z' =? 0); reflexivity.
Qed.

End StartOpFacts.

(** A connected idle connection: the start with the example options and
    the frame it sends, and the start with falsy and unusual option values,
    which sends an empty [cmd], no [dir], no [rows], and [cols] in exponent
    form.  Then an operation in flight on the connection, and a closed
    connection: two conflicts. *)
Lemma startOp_conflict_or_start_witness :
  (let r := ControlConnection_startOp (H := envelopeJSON) 0 "exec"
              sample_options sample_connected in
   returned r = true
   /\ ops (final r) = [mkOpConn 0 false false (-1) 0%nat [] []]
   /\ (cc_opActive <$> conns (final r) !! 0%nat) = Some true
   /\ (cc_opConn <$> conns (final r) !! 0%nat) = Some (Some 0%nat)
   /\ (conns (final r) !! 0%nat ≫= cc_ws) ≫= (fun s => Some (sent s))
      = Some [DString (json_text
                ("control:{'type':'op.start','op':'exec','args':{"
                 +:+ "'cmd':['ls','-l'],'dir':'/tmp','rows':'24',"
                 +:+ "'cols':'80','stdin':'true'}}"))])
  /\ (let r := ControlConnection_startOp (H := envelopeJSON) 0 "exec"
                 sample_odd_options sample_connected in
      ops (final r) = [mkOpConn 0 true false (-1) 0%nat [] []]
      /\ (conns (final r) !! 0%nat ≫= cc_ws) ≫= (fun s => Some (sent s))
         = Some [DString (json_text
                   ("control:{'type':'op.start','op':'exec','args':{"
                    +:+ "'cmd':[],'tty':'true','cols':'1e+21',"
                    +:+ "'stdin':'false'}}"))])
  /\ ControlConnection_startOp (H := rejectingJSON) 0 "exec" sample_options
       sample_busy
     = Throw "Operation already in progress" sample_busy
  /\ ControlConnection_startOp (H := rejectingJSON) 0 "exec" sample_options
       (final (socket_close 0 sample_connected))
     = Throw "Control connection closed: unknown"
         (final (socket_close 0 sample_connected)).
Proof.
  split; [|split; [|split]].
  - edestruct (startOp_conflict_or_start (H := envelopeJSON) sample_connected
                 0 _ "exec" sample_options eq_refl) as (_ & _ & Hstart).
    edestruct (Hstart _ eq_refl eq_refl eq_refl eq_refl) as [_ ->].
    cbv zeta. split; [reflexivity|]. split; [reflexivity|].
    split; [reflexivity|]. split; reflexivity.
  - edestruct (startOp_conflict_or_start (H := envelopeJSON) sample_connected
                 0 _ "exec" sample_odd_options eq_refl) as (_ & _ & Hstart).
    edestruct (Hstart _ eq_refl eq_refl eq_refl eq_refl) as [_ ->].
    cbv zeta. split; reflexivity.
  - edestruct (startOp_conflict_or_start (H := rejectingJSON) sample_busy
                 0 _ "exec" sample_options eq_refl) as (_ & Hbusy & _).
    exact (Hbusy eq_refl eq_refl).
  - edestruct (startOp_conflict_or_start (H := rejectingJSON)
                 (final (socket_close 0 sample_connected))
                 0 _ "exec" sample_options eq_refl) as (Hclosed & _ & _).
    exact (Hclosed eq_refl).
Defined.

(* --------------------------------------------------------------------- *)
(** ** OpConn: completion *)
(* --------------------------------------------------------------------- *)

Lemma settled_idem r st : settled r (settled r st) = settled r st.
Proof. destruct st; simpl; [destruct r|..]; reflexivity. Qed.

Lemma forEach_settle ps r w :
  forEach (fun p => settle p r) ps w
  = Ok tt (set_promises (settle_all ps r (promises w)) w).
Proof.
  revert w. induction ps as [|p ps IH]; intros w; simpl.
  - now destruct w.
  - unfold bind, settle, modify. rewrite IH. now destruct w.
Qed.

Lemma settle_all_lookup ps r l p st :
  l !! p = Some st ->
  settle_all ps r l !! p = Some (if bool_decide (p ∈ ps) then settled r st else st).
Proof.
  revert l st. induction ps as [|q ps IH]; intros l st Hl; simpl.
  - exact Hl.
  - destruct (decide (q = p)) as [->|Hne].
    + rewrite (IH _ (settled r st)) by now apply lookup_alter_Some.
      rewrite (bool_decide_eq_true_2 (p ∈ p :: ps)) by apply list_elem_of_here.
      destruct (bool_decide (p ∈ ps)); now rewrite ?settled_idem.
    + rewrite (IH _ st) by now rewrite list_lookup_alter_ne.
      destruct (decide (p ∈ ps)) as [Hin|Hnin].
      * rewrite !bool_decide_eq_true_2; [reflexivity| |assumption].
        now apply list_elem_of_further.
      * rewrite !bool_decide_eq_false_2; [reflexivity| |assumption].
        intros Hin. apply elem_of_cons in Hin as [->|Hin]; tauto.
Qed.

Lemma settle_all_pending ps r l p :
  p ∈ ps -> l !! p = Some Pending -> settle_all ps r l !! p = Some r.
Proof.
  intros Hin Hl. rewrite (settle_all_lookup _ _ _ _ _ Hl).
  now rewrite bool_decide_eq_true_2.
Qed.

Lemma length_settle_all ps r l : length (settle_all ps r l) = length l.
Proof.
  revert l. induction ps as [|p ps IH]; intros l; simpl; [reflexivity|].
  now rewrite IH, length_alter.
Qed.

Lemma OpConn_complete_open w o oc x :
  ops w !! o = Some oc -> oc_closed oc = false ->
  let code := default (oc_exitCode oc) x in
  OpConn_complete o x w
  = Ok tt (set_promises
             (settle_all (oc_closeOnce oc) (Fulfilled (VNum code)) (promises w))
             (set_ops (<[o := closed_with code oc]> (ops w)) w)).
Proof.
  intros Ho Hopen. unfold OpConn_complete, OpConn_emit. exec. rewrite Hopen.
  destruct x as [c|]; repeat (exec; simpl; rewrite ?list_alter_alter_eq);
    rewrite forEach_settle; simpl;
    rewrite (alter_as_insert _ _ _ _ Ho); reflexivity.
Qed.

Lemma OpConn_close_open w o oc :
  ops w !! o = Some oc -> oc_closed oc = false ->
  OpConn_close o w = OpConn_complete o None w.
Proof.
  intros Ho Hopen. unfold OpConn_close, OpConn_complete. exec.
  rewrite Hopen. reflexivity.
Qed.

Lemma OpConn_complete_closed w o oc x :
  ops w !! o = Some oc -> oc_closed oc = true -> OpConn_complete o x w = Ok tt w.
Proof. intros Ho Hc. unfold OpConn_complete. exec. now rewrite Hc. Qed.

Lemma OpConn_close_closed w o oc :
  ops w !! o = Some oc -> oc_closed oc = true -> OpConn_close o w = Ok tt w.
Proof. intros Ho Hc. unfold OpConn_close. exec. now rewrite Hc. Qed.

Lemma OpConn_handleData_exit w o oc payload :
  ops w !! o = Some oc -> oc_tty oc = false ->
  OpConn_handleData o (encodeFrame Exit payload) w
  = Ok tt (set_ops
             (<[o := set_oc_emitted (oc_emitted oc ++ [OpExit (exitCodeOf payload)])
                       (set_oc_exitCode (exitCodeOf payload) oc)]> (ops w)) w).
Proof.
  intros Ho Htty. unfold OpConn_handleData, OpConn_emit. exec. rewrite Htty.
  simpl. exec. simpl. rewrite list_alter_alter_eq.
  now rewrite (alter_as_insert _ _ _ _ Ho).
Qed.

(* --------------------------------------------------------------------- *)
(** ** Frames on the wire *)
(* --------------------------------------------------------------------- *)

(** C6.  For every stream tag and every payload, the empty one included,
    the frame is one byte holding the number of the tag (Stdin 0, Stdout 1,
    Stderr 2, Exit 3, StdinEOF 4) followed by the payload, and reading
    byte 0 and the bytes from 1 on gives back that number, which denotes
    the same tag, and the payload.  This is the frame of the code: on a
    non-TTY operation that is not closed and whose socket is open,
    [write(data)] sends the one binary message made of byte 0 and the data,
    and [sendEOF()] the one byte 4; and [handleData] of a non-TTY operation,
    given the frame of a tag and a payload, emits ['stdout'] or ['stderr']
    with exactly the payload for these two tags, stores and emits the exit
    code read from the payload for Exit, and does nothing for the two
    stdin tags. *)
Theorem frame_roundtrip (tag : StreamID) (payload : list byte)
  (w : World) (o : nat) (oc : OpConn) :
  ops w !! o = Some oc -> oc_tty oc = false ->
  let number :=
    match tag with
    | Stdin => 0 | Stdout => 1 | Stderr => 2 | Exit => 3 | StdinEOF => 4
    end in
  let emitting (e : OpEvent) (oc : OpConn) : OpConn :=
    set_oc_emitted (oc_emitted oc ++ [e]) oc in
  (exists b, encodeFrame tag payload = b :: payload
             /\ Z.of_N (Byte.to_N b) = number)
  /\ decodeFrame (encodeFrame tag payload) = Some (number, payload)
  /\ StreamID_of_val number = Some tag
  /\ (forall c sock,
        oc_closed oc = false -> conns w !! oc_cc oc = Some c ->
        cc_ws c = Some sock -> readyState sock = OPEN ->
        let sending (frame : list byte) : World :=
          set_conns
            (<[oc_cc oc := set_cc_ws (Some (ws_send (DBinary frame) sock)) c]>
               (conns w)) w in
        OpConn_write o payload w = Ok tt (sending (x00 :: payload))
        /\ OpConn_sendEOF o w = Ok tt (sending [x04]))
  /\ OpConn_handleData o (encodeFrame tag payload) w
     = Ok tt
         match tag with
         | Stdout =>
             set_ops (<[o := emitting (OpStdout payload) oc]> (ops w)) w
         | Stderr =>
             set_ops (<[o := emitting (OpStderr payload) oc]> (ops w)) w
         | Exit =>
             let code := match payload with
                         | [] => 0
                         | b :: _ => Z.of_N (Byte.to_N b)
                         end in
             set_ops (<[o := emitting (OpExit code) (set_oc_exitCode code oc)]>
                        (ops w)) w
         | Stdin | StdinEOF => w
         end.
Proof.
  intros Ho Htty. cbv zeta.
  split; [exists (StreamID_byte tag); split; [reflexivity | now destruct tag]|].
  split; [now destruct tag|]. split; [now destruct tag|]. split.
  - intros c sock Hopen Hc Hws Hrs.
    unfold OpConn_write, OpConn_sendEOF, ControlConnection_sendData. exec.
    rewrite Hopen, Htty. simpl. exec. rewrite Hws, Hrs. simpl. exec.
    now rewrite !(alter_as_insert _ _ _ _ Hc).
  - destruct tag.
    + unfold OpConn_handleData. exec. now rewrite Htty.
    + unfold OpConn_handleData, OpConn_emit. exec. rewrite Htty. simpl. exec.
      now rewrite (alter_as_insert _ _ _ _ Ho).
    + unfold OpConn_handleData, OpConn_emit. exec. rewrite Htty. simpl. exec.
      now rewrite (alter_as_insert _ _ _ _ Ho).
    + exact (OpConn_handleData_exit w o oc payload Ho Htty).
    + unfold OpConn_handleData. exec. now rewrite Htty.
Qed.

(** The example operation: what it sends for the data [hi] and for the end
    of input, and what it emits when the Stdout frame of [hi] and a Stdin
    frame arrive. *)
Lemma frame_roundtrip_witness :
  (conns (final (OpConn_write 0 ["h"; "i"]%byte sample_store)) !! 0%nat
     ≫= cc_ws) ≫= (fun s => last (sent s))
  = Some (DBinary [x00; "h"; "i"]%byte)
  /\ (conns (final (OpConn_sendEOF 0 sample_store)) !! 0%nat
        ≫= cc_ws) ≫= (fun s => last (sent s))
     = Some (DBinary [x04])
  /\ (oc_emitted <$>
        ops (final (OpConn_handleData 0 [x01; "h"; "i"]%byte sample_store))
          !! 0%nat)
     = Some [OpStdout ["h"; "i"]%byte]
  /\ OpConn_handleData 0 [x00; "h"; "i"]%byte sample_store = Ok tt sample_store.
Proof.
  edestruct (frame_roundtrip Stdout ["h"; "i"]%byte sample_store 0 _
               eq_refl eq_refl) as (_ & _ & _ & Hsend & Hout).
  edestruct (frame_roundtrip Stdin ["h"; "i"]%byte sample_store 0 _
               eq_refl eq_refl) as (_ & _ & _ & _ & Hin).
  edestruct (Hsend _ _ eq_refl eq_refl eq_refl eq_refl) as [Hw He].
  split; [rewrite Hw; reflexivity|]. split; [rewrite He; reflexivity|].
  split; [|exact Hin].
  change [x01; "h"; "i"]%byte with (encodeFrame Stdout ["h"; "i"]%byte).
  rewrite Hout. reflexivity.
Defined.

(* --------------------------------------------------------------------- *)
(** ** ControlConnection: op.complete and op.error *)
(* --------------------------------------------------------------------- *)

Lemma handleControlMessage_complete w cc c o oc msg :
  conns w !! cc = Some c -> cc_opConn c = Some o ->
  ops w !! o = Some oc -> oc_closed oc = false ->
  msg_type msg = TYPE_OP_COMPLETE ->
  let code := default 0 (msg_args msg ≫= arg_exitCode) in
  ControlConnection_handleControlMessage cc msg w
  = Ok tt (set_conns (<[cc := freed c]> (conns w))
            (set_promises
               (settle_all (oc_closeOnce oc) (Fulfilled (VNum code)) (promises w))
               (set_ops (<[o := closed_with code oc]> (ops w)) w))).
Proof.
  intros Hc Hop Ho Hopen Hty. unfold ControlConnection_handleControlMessage.
  rewrite Hty. simpl. exec. rewrite Hop.
  rewrite (OpConn_complete_open _ _ _ _ Ho Hopen). simpl. exec. simpl.
  rewrite list_alter_alter_eq, (alter_as_insert _ _ _ _ Hc). reflexivity.
Qed.

Lemma handleControlMessage_error w cc c o oc msg :
  conns w !! cc = Some c -> cc_opConn c = Some o ->
  ops w !! o = Some oc -> oc_closed oc = false ->
  oc_errorListeners oc <> 0%nat ->
  msg_type msg = TYPE_OP_ERROR ->
  let m := default "unknown error" (msg_args msg ≫= arg_error) in
  let oc1 := set_oc_emitted (oc_emitted oc ++ [OpError m]) oc in
  ControlConnection_handleControlMessage cc msg w
  = Ok tt (set_conns (<[cc := freed c]> (conns w))
            (set_promises
               (settle_all (oc_closeOnce oc) (Fulfilled (VNum (oc_exitCode oc)))
                           (promises w))
               (set_ops (<[o := closed_with (oc_exitCode oc) oc1]> (ops w)) w))).
Proof.
  intros Hc Hop Ho Hopen Hl Hty. unfold ControlConnection_handleControlMessage.
  rewrite Hty. simpl. exec. rewrite Hop. unfold OpConn_emit at 1. exec.
  apply Nat.eqb_neq in Hl. rewrite Hl. simpl.
  pose proof (lookup_alter_Some
                (set_oc_emitted
                   (oc_emitted oc
                    ++ [OpError (default "unknown error" (msg_args msg ≫= arg_error))]))
                _ _ _ Ho) as Ho1.
  match goal with
  | |- context [OpConn_complete o None ?w1] =>
      rewrite (OpConn_complete_open w1 o _ None Ho1 Hopen)
  end.
  simpl. exec. simpl.
  rewrite list_alter_alter_eq, (alter_as_insert _ _ _ _ Hc).
  rewrite (alter_as_insert _ _ _ _ Ho), list_insert_insert_eq. reflexivity.
Qed.

(** Without an ['error'] listener on the operation the emit throws inside
    the handler: the operation is not completed and the connection keeps
    its operation. *)
Lemma handleControlMessage_error_unheard w cc c o oc msg :
  conns w !! cc = Some c -> cc_opConn c = Some o ->
  ops w !! o = Some oc -> oc_errorListeners oc = 0%nat ->
  msg_type msg = TYPE_OP_ERROR ->
  let m := default "unknown error" (msg_args msg ≫= arg_error) in
  ControlConnection_handleControlMessage cc msg w
  = Throw m (set_ops (<[o := set_oc_emitted (oc_emitted oc ++ [OpError m]) oc]>
                        (ops w)) w).
Proof.
  intros Hc Hop Ho Hl Hty. unfold ControlConnection_handleControlMessage.
  rewrite Hty. simpl. exec. rewrite Hop. unfold OpConn_emit. exec.
  rewrite Hl. simpl. now rewrite (alter_as_insert _ _ _ _ Ho).
Qed.

Section EnvelopeFacts.
Context `{JSONRuntime}.

Lemma handleMessage_binary w cc c o data :
  conns w !! cc = Some c -> cc_opConn c = Some o ->
  ControlConnection_handleMessage cc (DBinary data) w = OpConn_handleData o data w.
Proof.
  intros Hc Hop. unfold ControlConnection_handleMessage. exec. now rewrite Hop.
Qed.

Lemma substring_all (s : string) : String.substring 0 (String.length s) s = s.
Proof. induction s as [|a s IH]; simpl; [reflexivity | now rewrite IH]. Qed.

(** A text that starts with the control prefix and whose rest parses is
    handed, parsed, to [handleControlMessage], inside the [try]. *)
Lemma handleMessage_control w cc payload msg :
  JSON_parse_control payload = Some msg ->
  ControlConnection_handleMessage cc (DString (CONTROL_PREFIX +:+ payload)) w
  = try_ignore (ControlConnection_handleControlMessage cc msg) w.
Proof.
  intros Hparse. unfold ControlConnection_handleMessage. simpl.
  change ("" +:+ payload) with payload.
  rewrite Nat.sub_0_r, substring_all, Hparse. now destruct payload.
Qed.

(** C4.  On a connection whose current operation is a non-TTY OpConn that
    is not closed, an inbound Exit frame stores the exit code (the first
    payload byte, 0 for an empty payload) and emits ['exit'], and changes
    nothing else: the operation is still not closed, no connection changes
    (a busy connection stays busy), no promise is settled.  The text
    message that arrives next, the control prefix followed by a text that
    parses to an op.complete envelope, closes the operation with the code
    the envelope supplies (0 when it supplies none), fulfils the pending
    [wait()] promises with that code, and frees the connection: not busy,
    no current operation. *)
Theorem exit_frame_records_op_complete_completes
  (w : World) (cc o : nat) (c : ControlConnection) (oc : OpConn)
  (payload : list byte) (text : string) (msg : ControlMessage) :
  conns w !! cc = Some c -> cc_opConn c = Some o ->
  ops w !! o = Some oc -> oc_tty oc = false -> oc_closed oc = false ->
  JSON_parse_control text = Some msg ->
  msg_type msg = TYPE_OP_COMPLETE ->
  let r1 := ControlConnection_handleMessage cc
              (DBinary (encodeFrame Exit payload)) w in
  let w1 := final r1 in
  let stored := match payload with
                | [] => 0
                | b :: _ => Z.of_N (Byte.to_N b)
                end in
  let oc1 := set_oc_emitted (oc_emitted oc ++ [OpExit stored])
               (set_oc_exitCode stored oc) in
  let code := default 0 (msg_args msg ≫= arg_exitCode) in
  let r2 := ControlConnection_handleMessage cc
              (DString (CONTROL_PREFIX +:+ text)) w1 in
  let w2 := final r2 in
  (returned r1 = true
   /\ ops w1 !! o = Some oc1
   /\ oc_closed oc1 = false /\ oc_exitCode oc1 = stored
   /\ conns w1 = conns w /\ promises w1 = promises w)
  /\ (returned r2 = true
      /\ ops w2 !! o = Some (closed_with code oc1)
      /\ oc_closed (closed_with code oc1) = true
      /\ oc_exitCode (closed_with code oc1) = code
      /\ conns w2 !! cc = Some (freed c)
      /\ cc_opActive (freed c) = false /\ cc_opConn (freed c) = None
      /\ forall p, p ∈ oc_closeOnce oc -> promises w !! p = Some Pending ->
                   promises w2 !! p = Some (Fulfilled (VNum code))).
Proof.
  intros Hc Hop Ho Htty Hopen Hparse Hty. cbv zeta.
  change (match payload with [] => 0 | b :: _ => Z.of_N (Byte.to_N b) end)
    with (exitCodeOf payload).
  rewrite (handleMessage_binary _ _ _ _ _ Hc Hop).
  rewrite (OpConn_handleData_exit _ _ _ _ Ho Htty). cbn [final returned].
  rewrite (handleMessage_control _ _ _ _ Hparse).
  pose proof (lookup_lt_Some _ _ _ Ho) as Hlt.
  pose proof (lookup_lt_Some _ _ _ Hc) as Hclt.
  split.
  - repeat split; try assumption. simpl. now apply list_lookup_insert_eq.
  - unfold try_ignore.
    match goal with
    | |- context [ControlConnection_handleControlMessage cc msg ?w1] =>
        rewrite (handleControlMessage_complete w1 cc c o
                   (set_oc_emitted (oc_emitted oc ++ [OpExit (exitCodeOf payload)])
                      (set_oc_exitCode (exitCodeOf payload) oc)) msg)
    end; try assumption.
    2:{ simpl. now apply list_lookup_insert_eq. }
    cbn [final returned]. repeat split.
    + simpl. rewrite list_insert_insert_eq. now apply list_lookup_insert_eq.
    + simpl. now apply list_lookup_insert_eq.
    + intros p Hin Hp. simpl. now apply settle_all_pending.
Qed.

End EnvelopeFacts.

(** On the example store with a pending wait: an Exit frame with payload
    byte 7, then the text of op.complete with exit code 3; and an Exit
    frame with no payload, which stores 0. *)
Lemma exit_frame_records_op_complete_completes_witness :
  let w1 := final (ControlConnection_handleMessage (H := envelopeJSON) 0
                     (DBinary [x03; x07]) sample_store) in
  let w2 := final (ControlConnection_handleMessage (H := envelopeJSON) 0
                     (DString (json_text
                        "control:{'type':'op.complete','args':{'exitCode':3}}"))
                     w1) in
  let w0 := final (ControlConnection_handleMessage (H := envelopeJSON) 0
                     (DBinary [x03]) sample_store) in
  (oc_closed <$> ops w1 !! 0%nat) = Some false
  /\ (oc_exitCode <$> ops w1 !! 0%nat) = Some 7
  /\ (cc_opActive <$> conns w1 !! 0%nat) = Some true
  /\ (oc_closed <$> ops w2 !! 0%nat) = Some true
  /\ (oc_exitCode <$> ops w2 !! 0%nat) = Some 3
  /\ (cc_opActive <$> conns w2 !! 0%nat) = Some false
  /\ promises w2 !! 1%nat = Some (Fulfilled (VNum 3))
  /\ (oc_exitCode <$> ops w0 !! 0%nat) = Some 0
  /\ (oc_closed <$> ops w0 !! 0%nat) = Some false.
Proof.
  edestruct (exit_frame_records_op_complete_completes (H := envelopeJSON)
               sample_store 0 0 _ _ [x07] op_complete_text (op_complete_with 3)
               eq_refl eq_refl eq_refl eq_refl eq_refl eq_refl eq_refl)
    as ((_ & Ho1 & _ & _ & Hc1 & _) & (_ & Ho2 & _ & _ & Hc2 & _ & _ & Hp)).
  edestruct (exit_frame_records_op_complete_completes (H := envelopeJSON)
               sample_store 0 0 _ _ [] op_complete_text (op_complete_with 3)
               eq_refl eq_refl eq_refl eq_refl eq_refl eq_refl eq_refl)
    as ((_ & Ho0 & _) & _).
  cbv zeta.
  change (DBinary [x03; x07]) with (DBinary (encodeFrame Exit [x07])).
  change (DBinary [x03]) with (DBinary (encodeFrame Exit [])).
  change (json_text "control:{'type':'op.complete','args':{'exitCode':3}}")
    with (CONTROL_PREFIX +:+ op_complete_text).
  rewrite Ho1, Ho2, Hc1, Hc2, Ho0.
  rewrite (Hp 1%nat (list_elem_of_here _ _) eq_refl).
  repeat split; reflexivity.
Defined.

(* --------------------------------------------------------------------- *)
(** ** op.error *)
(* --------------------------------------------------------------------- *)

(** C1, as the claim states it, fails: in the example store an operation
    with an ['error'] listener has a pending [wait()], promise 1; after the
    text of the op.error envelope with [args.error = "boom"] has arrived on
    its connection that promise is fulfilled with the exit code -1, it is
    not rejected. *)
Lemma op_error_wait_is_fulfilled_not_rejected :
  OpConn_wait 0 sample_listening = Ok 1%nat sample_waiting
  /\ promises sample_waiting !! 1%nat = Some Pending
  /\ let w' := final (ControlConnection_handleMessage (H := envelopeJSON) 0
                        (DString (json_text
                           "control:{'type':'op.error','args':{'error':'boom'}}"))
                        sample_waiting) in
     promises w' !! 1%nat = Some (Fulfilled (VNum (-1)))
     /\ promises w' !! 1%nat <> Some (Rejected "boom")
     /\ ~ (exists n, 0 <= n /\ promises w' !! 1%nat = Some (Fulfilled (VNum n))).
Proof.
  split; [reflexivity|]. split; [reflexivity|]. cbv zeta.
  assert (E : promises
                (final (ControlConnection_handleMessage (H := envelopeJSON) 0
                          (DString (json_text
                             "control:{'type':'op.error','args':{'error':'boom'}}"))
                          sample_waiting)) !! 1%nat
              = Some (Fulfilled (VNum (-1)))) by reflexivity.
  rewrite E. split; [reflexivity|]. split; [discriminate|].
  intros (n & Hn & Heq). injection Heq as <-. lia.
Qed.

Section OpErrorFacts.
Context `{JSONRuntime}.

(** C1, amended.  When a text message made of the control prefix and a
    text that parses to an op.error envelope arrives on a connection whose
    current operation is not closed and has an ['error'] listener, the
    operation emits ['error'] with the message of [args.error] (or
    ["unknown error"]) and then ['close'], and is closed with its stored
    exit code unchanged; every pending [wait()] promise is fulfilled with
    that stored code (it is -1 unless an Exit frame set it).  The
    connection is not closed by this: its closed flag and its socket are
    as before, it is no longer busy and has no current operation, and when
    it is open a following startOp returns a new operation. *)
Theorem op_error_ends_operation_frees_connection
  (w : World) (cc o : nat) (c : ControlConnection) (oc : OpConn)
  (text : string) (msg : ControlMessage) :
  conns w !! cc = Some c -> cc_opConn c = Some o ->
  ops w !! o = Some oc -> oc_closed oc = false ->
  oc_errorListeners oc <> 0%nat ->
  JSON_parse_control text = Some msg ->
  msg_type msg = TYPE_OP_ERROR ->
  let m := default "unknown error" (msg_args msg ≫= arg_error) in
  let r := ControlConnection_handleMessage cc
             (DString (CONTROL_PREFIX +:+ text)) w in
  let w' := final r in
  let oc' := closed_with (oc_exitCode oc)
               (set_oc_emitted (oc_emitted oc ++ [OpError m]) oc) in
  returned r = true
  /\ ops w' !! o = Some oc'
  /\ oc_emitted oc' = oc_emitted oc ++ [OpError m; OpClose]
  /\ oc_closed oc' = true /\ oc_exitCode oc' = oc_exitCode oc
  /\ (forall p, p ∈ oc_closeOnce oc -> promises w !! p = Some Pending ->
        promises w' !! p = Some (Fulfilled (VNum (oc_exitCode oc))))
  /\ conns w' !! cc = Some (freed c)
  /\ cc_closed (freed c) = cc_closed c /\ cc_ws (freed c) = cc_ws c
  /\ cc_opActive (freed c) = false /\ cc_opConn (freed c) = None
  /\ (cc_closed c = false -> wsIsOpen (cc_ws c) = true ->
      forall op options,
        exists w'', ControlConnection_startOp cc op options w'
                    = Ok (length (ops w)) w'').
Proof.
  intros Hc Hop Ho Hopen Hl Hparse Hty. cbv zeta.
  rewrite (handleMessage_control _ _ _ _ Hparse). unfold try_ignore.
  rewrite (handleControlMessage_error _ _ _ _ _ _ Hc Hop Ho Hopen Hl Hty).
  cbn [final returned].
  pose proof (lookup_lt_Some _ _ _ Ho) as Hlt.
  pose proof (lookup_lt_Some _ _ _ Hc) as Hclt.
  assert (Hc' : conns
                  (set_conns (<[cc:=freed c]> (conns w))
                     (set_promises
                        (settle_all (oc_closeOnce oc)
                           (Fulfilled (VNum (oc_exitCode oc))) (promises w))
                        (set_ops
                           (<[o:=closed_with (oc_exitCode oc)
                                   (set_oc_emitted
                                      (oc_emitted oc
                                       ++ [OpError
                                             (default "unknown error"
                                                (msg_args msg ≫= arg_error))])
                                      oc)]> (ops w)) w))) !! cc
                = Some (freed c)).
  { simpl. now apply list_lookup_insert_eq. }
  repeat split; try assumption.
  - simpl. now apply list_lookup_insert_eq.
  - simpl. now rewrite <- app_assoc.
  - intros p Hin Hp. simpl. now apply settle_all_pending.
  - intros Hclosed Hws op options. unfold wsIsOpen in Hws.
    destruct (cc_ws c) as [sock|] eqn:Hsock; [|discriminate].
    destruct (readyState sock) eqn:Hrs; try discriminate.
    eexists.
    rewrite (startOp_idle _ cc (freed c) op options sock Hc');
      try assumption; try reflexivity.
    simpl. now rewrite length_insert.
Qed.

End OpErrorFacts.

(** The text of op.error with the message boom arrives on the example
    connection, whose operation has a listener and a pending wait. *)
Lemma op_error_ends_operation_frees_connection_witness :
  let w' := final (ControlConnection_handleMessage (H := envelopeJSON) 0
                     (DString (json_text
                        "control:{'type':'op.error','args':{'error':'boom'}}"))
                     sample_store) in
  (oc_emitted <$> ops w' !! 0%nat) = Some [OpError "boom"; OpClose]
  /\ promises w' !! 1%nat = Some (Fulfilled (VNum (-1)))
  /\ (cc_closed <$> conns w' !! 0%nat) = Some false
  /\ (cc_opActive <$> conns w' !! 0%nat) = Some false
  /\ returned (ControlConnection_startOp (H := envelopeJSON) 0 "exec"
                 sample_options w') = true.
Proof.
  edestruct (op_error_ends_operation_frees_connection (H := envelopeJSON)
               sample_store 0 0 _ _ op_error_text op_error_boom
               eq_refl eq_refl eq_refl eq_refl)
    as (_ & Ho & _ & _ & _ & Hp & Hc & _ & _ & _ & _ & Hstart).
  { simpl. discriminate. }
  { reflexivity. }
  { reflexivity. }
  cbv zeta.
  change (json_text "control:{'type':'op.error','args':{'error':'boom'}}")
    with (CONTROL_PREFIX +:+ op_error_text).
  rewrite Ho, Hc, (Hp 1%nat (list_elem_of_here _ _) eq_refl).
  destruct (Hstart eq_refl eq_refl "exec" sample_options) as [w'' ->].
  repeat split; reflexivity.
Defined.

(* --------------------------------------------------------------------- *)
(** ** The empty frame *)
(* --------------------------------------------------------------------- *)

(** C7, as the claim states it, fails: handed an empty buffer, the non-TTY
    frame handling of an OpConn and of a command session both return
    normally; nothing is thrown, nothing is emitted. *)
Lemma empty_frame_is_not_an_error :
  (oc_tty <$> ops sample_busy !! 0%nat) = Some false
  /\ OpConn_handleData 0 [] sample_busy = Ok tt sample_busy
  /\ WSCommand.handleMessage (H := rejectingJSON) 7 (DBinary [])
       (WSCommand.new false)
     = Ok tt (WSCommand.set_lastPongTime 7 (WSCommand.new false))
  /\ WSCommand.emitted (WSCommand.set_lastPongTime 7 (WSCommand.new false)) = [].
Proof. repeat split; reflexivity. Qed.

Section EmptyFrameFacts.
Context `{JSONRuntime}.

(** C7, amended.  An empty buffer has no tag byte to decode, and the
    non-TTY frame handling drops it without an error: an OpConn returns
    with the store unchanged, a command session returns having only
    refreshed its keepalive clock; neither emits an event. *)
Theorem empty_frame_is_dropped
  (w : World) (o : nat) (oc : OpConn) (now : Z) (s : WSCommand.t) :
  ops w !! o = Some oc -> oc_tty oc = false -> WSCommand.tty s = false ->
  decodeFrame [] = None
  /\ OpConn_handleData o [] w = Ok tt w
  /\ WSCommand.handleMessage now (DBinary []) s
     = Ok tt (WSCommand.set_lastPongTime now s)
  /\ WSCommand.emitted (WSCommand.set_lastPongTime now s) = WSCommand.emitted s.
Proof.
  intros Ho Htty Hs. split; [reflexivity|]. split; [|split].
  - unfold OpConn_handleData. exec. now rewrite Htty.
  - unfold WSCommand.handleMessage, WSCommand.resetKeepalive. unfold_monad.
    simpl. now rewrite Hs.
  - reflexivity.
Qed.

End EmptyFrameFacts.

Lemma empty_frame_is_dropped_witness :
  OpConn_handleData 0 [] sample_busy = Ok tt sample_busy
  /\ WSCommand.handleMessage (H := rejectingJSON) 7 (DBinary [])
       (WSCommand.new false)
     = Ok tt (WSCommand.set_lastPongTime 7 (WSCommand.new false)).
Proof.
  edestruct (empty_frame_is_dropped (H := rejectingJSON) sample_busy 0 _ 7
               (WSCommand.new false) eq_refl eq_refl eq_refl)
    as (_ & Hop & Hws & _).
  split; [exact Hop | exact Hws].
Defined.

(** Two sessions: stdout ["hi"] then close 1000 without an Exit frame; and
    stdout, Exit 42, a late second Exit 9, then close 1006. *)
Lemma WSCommand_close_without_exit_is_error_witness :
  (let s' := WSCommand_session (H := rejectingJSON)
               [(1, DBinary (encodeFrame Stdout ["h"%byte; "i"%byte]))] 1000
               (WSCommand.new false) in
   WSCommand.exits (WSCommand.emitted s') = []
   /\ WSCommand.errors (WSCommand.emitted s')
      = ["WebSocket closed without exit frame (code 1000)"])
  /\ (let s' := WSCommand_session (H := rejectingJSON)
                  [(1, DBinary (encodeFrame Stdout ["h"%byte; "i"%byte]));
                   (2, DBinary (encodeFrame Exit [x2a]));
                   (3, DBinary (encodeFrame Exit [x09]))] 1006
                  (WSCommand.new false) in
      WSCommand.exits (WSCommand.emitted s') = [42]
      /\ WSCommand.errors (WSCommand.emitted s') = []).
Proof.
  split.
  - exact (WSCommand_close_without_exit_is_error (H := rejectingJSON)
             [(1, DBinary (encodeFrame Stdout ["h"%byte; "i"%byte]))] 1000
             (WSCommand.new false) eq_refl eq_refl eq_refl).
  - exact (WSCommand_close_without_exit_is_error (H := rejectingJSON)
             [(1, DBinary (encodeFrame Stdout ["h"%byte; "i"%byte]));
              (2, DBinary (encodeFrame Exit [x2a]));
              (3, DBinary (encodeFrame Exit [x09]))] 1006
             (WSCommand.new false) eq_refl eq_refl eq_refl).
Defined.

(* --------------------------------------------------------------------- *)
(** ** OpConn: closed is final *)
(* --------------------------------------------------------------------- *)

Lemma closed_stable_refl w : closed_stable w w.
Proof. intros o oc Ho Hc. eauto. Qed.

Lemma closed_stable_trans w1 w2 w3 :
  closed_stable w1 w2 -> closed_stable w2 w3 -> closed_stable w1 w3.
Proof.
  intros H12 H23 o oc Ho Hc.
  destruct (H12 o oc Ho Hc) as (oc2 & Ho2 & Hc2). eauto.
Qed.

Lemma closed_stable_same_ops w w' : ops w' = ops w -> closed_stable w w'.
Proof. intros E o oc Ho Hc. rewrite E. eauto. Qed.

Lemma kc_ret {A} (a : A) : keeps_closed (ret a).
Proof. intros w. apply closed_stable_refl. Qed.

Lemma kc_throw {A} e : keeps_closed (@throw World A e).
Proof. intros w. apply closed_stable_refl. Qed.

Lemma kc_get : keeps_closed (@get World).
Proof. intros w. apply closed_stable_refl. Qed.

Lemma kc_bind {A B} (m : M World A) (k : A -> M World B) :
  keeps_closed m -> (forall a, keeps_closed (k a)) -> keeps_closed (bind m k).
Proof.
  intros Hm Hk w. unfold bind. specialize (Hm w).
  destruct (m w) as [a w1|e w1]; simpl in *; [|assumption].
  eapply closed_stable_trans; [exact Hm | apply Hk].
Qed.

Lemma kc_try (m : M World unit) : keeps_closed m -> keeps_closed (try_ignore m).
Proof.
  intros Hm w. unfold try_ignore. specialize (Hm w).
  destruct (m w); simpl in *; assumption.
Qed.

Lemma kc_modify (f : World -> World) :
  (forall w, ops (f w) = ops w) -> keeps_closed (modify f).
Proof. intros Hf w. apply closed_stable_same_ops, Hf. Qed.

Lemma kc_getOp i : keeps_closed (getOp i).
Proof. intros w. unfold getOp. destruct (ops w !! i); apply closed_stable_refl. Qed.

Lemma kc_getCC i : keeps_closed (getCC i).
Proof. intros w. unfold getCC. destruct (conns w !! i); apply closed_stable_refl. Qed.

Lemma kc_updCC i f : keeps_closed (updCC i f).
Proof. apply kc_modify. reflexivity. Qed.

Lemma kc_updPool f : keeps_closed (updPool f).
Proof. apply kc_modify. reflexivity. Qed.

Lemma kc_settle p r : keeps_closed (settle p r).
Proof. apply kc_modify. reflexivity. Qed.

Lemma kc_newPromise : keeps_closed newPromise.
Proof. intros w. now apply closed_stable_same_ops. Qed.

Lemma kc_newControlConnection : keeps_closed newControlConnection.
Proof. intros w. now apply closed_stable_same_ops. Qed.

Lemma kc_newOpConn cc tty : keeps_closed (newOpConn cc tty).
Proof.
  intros w o oc Ho Hc. exists oc. split; [|assumption]. simpl.
  rewrite lookup_app_l; [assumption|]. eapply lookup_lt_Some, Ho.
Qed.

Lemma kc_updOp i f :
  (forall oc, oc_closed oc = true -> oc_closed (f oc) = true) ->
  keeps_closed (updOp i f).
Proof.
  intros Hf w o oc Ho Hc. simpl. destruct (decide (i = o)) as [->|Hne].
  - exists (f oc). split; [now apply lookup_alter_Some | now apply Hf].
  - exists oc. split; [now rewrite list_lookup_alter_ne | assumption].
Qed.

Lemma kc_forEach {A} (f : A -> M World unit) l :
  (forall x, keeps_closed (f x)) -> keeps_closed (forEach f l).
Proof.
  intros Hf. induction l as [|x l IH]; simpl.
  - apply kc_ret.
  - apply kc_bind; [apply Hf | intros _; exact IH].
Qed.

Create HintDb kc.
#[local] Hint Resolve kc_ret kc_throw kc_get kc_getOp kc_getCC kc_updCC
  kc_updPool kc_settle kc_newPromise kc_newControlConnection kc_newOpConn
  kc_try kc_forEach : kc.

(** Walk a method body: binds, branches, and the calls already known to
    reopen nothing. *)
Ltac kc_field_update :=
  apply kc_updOp; intros [] ?; simpl in *; congruence.

Ltac kc :=
  repeat first
    [ progress intros
    | solve [auto with kc]
    | kc_field_update
    | apply kc_forEach
    | apply kc_try
    | match goal with
      | |- keeps_closed (if ?b then _ else _) => destruct b
      | |- keeps_closed (match ?x with _ => _ end) => destruct x
      | |- keeps_closed (modify _) => apply kc_modify; intros; reflexivity
      | |- keeps_closed (bind _ _) => apply kc_bind
      end ].

Lemma kc_OpConn_emit o e : keeps_closed (OpConn_emit o e).
Proof. unfold OpConn_emit. kc. Qed.
#[local] Hint Resolve kc_OpConn_emit : kc.

Lemma kc_OpConn_onError o : keeps_closed (OpConn_onError o).
Proof. unfold OpConn_onError. kc. Qed.

Lemma kc_ControlConnection_emit c e : keeps_closed (ControlConnection_emit c e).
Proof. unfold ControlConnection_emit. kc. Qed.

Lemma kc_ControlConnection_setActive c b :
  keeps_closed (ControlConnection_setActive c b).
Proof. unfold ControlConnection_setActive. kc. Qed.

Lemma kc_ControlConnection_clearOpConn c :
  keeps_closed (ControlConnection_clearOpConn c).
Proof. unfold ControlConnection_clearOpConn. kc. Qed.

Lemma kc_ControlConnection_sendData c d :
  keeps_closed (ControlConnection_sendData c d).
Proof. unfold ControlConnection_sendData. kc. Qed.
#[local] Hint Resolve kc_OpConn_onError kc_ControlConnection_emit
  kc_ControlConnection_setActive kc_ControlConnection_clearOpConn
  kc_ControlConnection_sendData : kc.

Lemma kc_OpConn_write o d : keeps_closed (OpConn_write o d).
Proof. unfold OpConn_write. kc. Qed.

Lemma kc_OpConn_sendEOF o : keeps_closed (OpConn_sendEOF o).
Proof. unfold OpConn_sendEOF. kc. Qed.

Lemma kc_OpConn_handleData o d : keeps_closed (OpConn_handleData o d).
Proof. unfold OpConn_handleData. kc. Qed.

Lemma kc_OpConn_complete o x : keeps_closed (OpConn_complete o x).
Proof. unfold OpConn_complete. kc. Qed.

Lemma kc_OpConn_close o : keeps_closed (OpConn_close o).
Proof. unfold OpConn_close. kc. Qed.

Lemma kc_OpConn_wait o : keeps_closed (OpConn_wait o).
Proof. unfold OpConn_wait. kc. Qed.
#[local] Hint Resolve kc_OpConn_write kc_OpConn_sendEOF kc_OpConn_handleData
  kc_OpConn_complete kc_OpConn_close kc_OpConn_wait : kc.

Lemma kc_ControlConnection_connect c : keeps_closed (ControlConnection_connect c).
Proof. unfold ControlConnection_connect. kc. Qed.

Lemma kc_ws_transition c r : keeps_closed (ws_transition c r).
Proof. unfold ws_transition. kc. Qed.

Lemma kc_ControlConnection_onOpen c : keeps_closed (ControlConnection_onOpen c).
Proof. unfold ControlConnection_onOpen. kc. Qed.

Lemma kc_ControlConnection_onError c e :
  keeps_closed (ControlConnection_onError c e).
Proof. unfold ControlConnection_onError. kc. Qed.

Lemma kc_ControlConnection_handleControlMessage c m :
  keeps_closed (ControlConnection_handleControlMessage c m).
Proof. unfold ControlConnection_handleControlMessage. kc. Qed.

Lemma kc_ControlConnection_handleClose c :
  keeps_closed (ControlConnection_handleClose c).
Proof. unfold ControlConnection_handleClose. kc. Qed.

Lemma kc_ControlConnection_close c : keeps_closed (ControlConnection_close c).
Proof. unfold ControlConnection_close. kc. Qed.
#[local] Hint Resolve kc_ControlConnection_connect kc_ws_transition
  kc_ControlConnection_onOpen kc_ControlConnection_onError
  kc_ControlConnection_handleControlMessage kc_ControlConnection_handleClose
  kc_ControlConnection_close : kc.

Lemma kc_ControlPool_acquire : keeps_closed ControlPool_acquire.
Proof. unfold ControlPool_acquire. kc. Qed.

Lemma kc_ControlPool_acquire_resume p c :
  keeps_closed (ControlPool_acquire_resume p c).
Proof. unfold ControlPool_acquire_resume. kc. Qed.

Lemma kc_drainLoop idle toClose closed :
  keeps_closed (drainLoop idle toClose closed).
Proof.
  revert closed. induction idle as [|c idle IH]; intros closed; simpl; kc.
Qed.
#[local] Hint Resolve kc_ControlPool_acquire kc_ControlPool_acquire_resume
  kc_drainLoop : kc.

Lemma kc_ControlPool_tryDrain : keeps_closed ControlPool_tryDrain.
Proof. unfold ControlPool_tryDrain. kc. Qed.
#[local] Hint Resolve kc_ControlPool_tryDrain : kc.

Lemma kc_ControlPool_release c : keeps_closed (ControlPool_release c).
Proof. unfold ControlPool_release. kc. Qed.

Lemma kc_ControlPool_close : keeps_closed ControlPool_close.
Proof. unfold ControlPool_close. kc. Qed.

Lemma kc_socket_open c : keeps_closed (socket_open c).
Proof. unfold socket_open. kc. Qed.

Lemma kc_socket_error c e : keeps_closed (socket_error c e).
Proof. unfold socket_error. kc. Qed.

Lemma kc_socket_close c : keeps_closed (socket_close c).
Proof. unfold socket_close. kc. Qed.
#[local] Hint Resolve kc_ControlPool_release kc_ControlPool_close
  kc_socket_open kc_socket_error kc_socket_close : kc.

Lemma alter_last {A} (f : A -> A) (l : list A) (x : A) :
  alter f (length l) (l ++ [x]) = l ++ [f x].
Proof. induction l as [|y l IH]; simpl; [reflexivity | now f_equal]. Qed.

Section ClosedFacts.
Context `{JSONRuntime}.

Lemma kc_OpConn_resize o c r : keeps_closed (OpConn_resize o c r).
Proof. unfold OpConn_resize. kc. Qed.

Lemma kc_OpConn_signal o s : keeps_closed (OpConn_signal o s).
Proof. unfold OpConn_signal. kc. Qed.

Lemma kc_OpConn_handleText o s : keeps_closed (OpConn_handleText o s).
Proof. unfold OpConn_handleText. kc. Qed.

Lemma kc_ControlConnection_sendControl c m :
  keeps_closed (ControlConnection_sendControl c m).
Proof. unfold ControlConnection_sendControl. kc. Qed.

Lemma kc_ControlConnection_handleMessage c d :
  keeps_closed (ControlConnection_handleMessage c d).
Proof.
  unfold ControlConnection_handleMessage. cbv zeta.
  pose proof kc_OpConn_handleText. kc.
Qed.

Lemma kc_ControlConnection_startOp c op options :
  keeps_closed (ControlConnection_startOp c op options).
Proof.
  unfold ControlConnection_startOp. pose proof kc_ControlConnection_sendControl.
  kc.
Qed.

Lemma kc_step a : keeps_closed (step a).
Proof.
  pose proof kc_OpConn_resize. pose proof kc_OpConn_signal.
  pose proof kc_OpConn_handleText. pose proof kc_ControlConnection_handleMessage.
  pose proof kc_ControlConnection_startOp.
  destruct a; simpl; kc.
Qed.

Lemma run_closed_stable sched w : closed_stable w (run sched w).
Proof.
  revert w. induction sched as [|a sched IH]; intros w; simpl.
  - apply closed_stable_refl.
  - eapply closed_stable_trans; [apply kc_step | apply IH].
Qed.

(** C10.  For an operation that is closed: [complete], with or without an
    exit code, and [close] return with the store unchanged, so neither the
    closed flag nor the stored exit code changes and nothing is emitted;
    [wait] returns a promise that is already fulfilled with the stored exit
    code; and after any schedule of method calls and socket events the
    operation is still there and still closed. *)
Theorem OpConn_closed_is_final (w : World) (o : nat) (oc : OpConn) :
  ops w !! o = Some oc -> oc_closed oc = true ->
  (forall exitCode, OpConn_complete o exitCode w = Ok tt w)
  /\ OpConn_close o w = Ok tt w
  /\ OpConn_wait o w
     = Ok (length (promises w))
          (set_promises
             (promises w ++ [Fulfilled (VNum (oc_exitCode oc))]) w)
  /\ (forall sched, exists oc',
        ops (run sched w) !! o = Some oc' /\ oc_closed oc' = true).
Proof.
  intros Ho Hc. split; [|split; [|split]].
  - intros x. exact (OpConn_complete_closed _ _ _ x Ho Hc).
  - exact (OpConn_close_closed _ _ _ Ho Hc).
  - unfold OpConn_wait. exec. rewrite Hc. unfold settle. exec. simpl.
    now rewrite alter_last.
  - intros sched. exact (run_closed_stable sched w o oc Ho Hc).
Qed.

End ClosedFacts.

(** An operation closed by op.complete with code 3: a later complete(9),
    close() and wait(), and a schedule with a late Exit frame. *)
Lemma OpConn_closed_is_final_witness :
  let w := final (ControlConnection_handleControlMessage 0 (op_complete_with 3)
                    sample_waiting) in
  OpConn_complete 0 (Some 9) w = Ok tt w
  /\ OpConn_close 0 w = Ok tt w
  /\ OpConn_wait 0 w
     = Ok 2%nat (set_promises (promises w ++ [Fulfilled (VNum 3)]) w)
  /\ exists oc',
       ops (run (H := rejectingJSON)
              [CallComplete 0 None; CallHandleData 0 (encodeFrame Exit [x09]);
               SocketClose 0] w) !! 0%nat = Some oc'
       /\ oc_closed oc' = true.
Proof.
  edestruct (OpConn_closed_is_final (H := rejectingJSON)
               (final (ControlConnection_handleControlMessage 0
                         (op_complete_with 3) sample_waiting))
               0 _ eq_refl eq_refl) as (Hcomplete & Hclose & Hwait & Hrun).
  cbv zeta. split; [apply Hcomplete|]. split; [exact Hclose|].
  split; [exact Hwait|]. apply Hrun.
Defined.

(* --------------------------------------------------------------------- *)
(** ** ControlPool: waiters *)
(* --------------------------------------------------------------------- *)

(** On a pool that is open, has no available connection and is full,
    [acquire()] returns a new pending promise queued behind every waiter
    already there. *)
Lemma acquire_queues_last (w : World) :
  pool_closed (pool w) = false ->
  find (isAvailable w) (pool_conns (pool w)) = None ->
  (Z.of_nat (length (pool_conns (pool w))) <? pool_maxSize (pool w)) = false ->
  ControlPool_acquire w
  = Ok (length (promises w))
       (set_pool
          (set_pool_waiters (pool_waiters (pool w) ++ [length (promises w)])
                            (pool w))
          (set_promises (promises w ++ [Pending]) w)).
Proof.
  intros Hopen Hnone Hfull. unfold ControlPool_acquire. exec.
  rewrite Hopen.
  change (isAvailable (set_promises (promises w ++ [Pending]) w))
    with (isAvailable w).
  rewrite Hnone, Hfull. reflexivity.
Qed.

Lemma release_to_waiter (w : World) (cc : nat) (c : ControlConnection)
  (waiter : nat) (rest : list nat) :
  conns w !! cc = Some c ->
  pool_waiters (pool w) = waiter :: rest ->
  ControlPool_release cc w
  = Ok tt
      (set_promises
         (alter (settled (Fulfilled (VConn cc))) waiter (promises w))
         (set_conns
            (<[cc := set_cc_poolActive true (set_cc_opConn None c)]> (conns w))
            (set_pool (set_pool_waiters rest (pool w)) w))).
Proof.
  intros Hc Hw. unfold ControlPool_release, ControlConnection_setActive,
    ControlConnection_clearOpConn. exec. simpl. rewrite Hw.
  repeat (exec; simpl; rewrite ?list_alter_alter_eq).
  unfold settle. exec. simpl.
  rewrite ?list_alter_alter_eq, (alter_as_insert _ _ _ _ Hc). reflexivity.
Qed.

(** C8.  When release() finds waiters queued, the first of the queue is
    removed and its promise is resolved with the released connection; the
    connection ends marked active with its operation reference cleared, so
    it is not available to an acquire; the roster, the other connections
    and all operations are as before, so nothing was drained or closed.
    The first of the queue is the longest-waiting caller, since an
    acquire() that has to wait is queued behind every waiter already
    there. *)
Theorem release_hands_to_oldest_waiter (w : World) (cc : nat)
  (c : ControlConnection) (waiter : nat) (rest : list nat) :
  conns w !! cc = Some c ->
  pool_waiters (pool w) = waiter :: rest ->
  let r := ControlPool_release cc w in
  let w' := final r in
  (returned r = true
   /\ pool_waiters (pool w') = rest
   /\ promises w' = alter (settled (Fulfilled (VConn cc))) waiter (promises w)
   /\ (promises w !! waiter = Some Pending ->
       promises w' !! waiter = Some (Fulfilled (VConn cc)))
   /\ conns w' = <[cc := set_cc_poolActive true (set_cc_opConn None c)]> (conns w)
   /\ isAvailable w' cc = false
   /\ pool_conns (pool w') = pool_conns (pool w)
   /\ ops w' = ops w)
  /\ (forall w0 : World,
        pool_closed (pool w0) = false ->
        find (isAvailable w0) (pool_conns (pool w0)) = None ->
        (Z.of_nat (length (pool_conns (pool w0))) <? pool_maxSize (pool w0))
        = false ->
        let r0 := ControlPool_acquire w0 in
        r0 = Ok (length (promises w0)) (final r0)
        /\ promises (final r0) !! length (promises w0) = Some Pending
        /\ pool_waiters (pool (final r0))
           = pool_waiters (pool w0) ++ [length (promises w0)]).
Proof.
  intros Hc Hw. cbv zeta. split.
  - rewrite (release_to_waiter _ _ _ _ _ Hc Hw). cbn [final returned].
    pose proof (lookup_lt_Some _ _ _ Hc) as Hlt.
    repeat split.
    + intros Hp. simpl. now rewrite (lookup_alter_Some _ _ _ _ Hp).
    + unfold isAvailable. simpl. rewrite list_lookup_insert_eq by assumption.
      simpl. now rewrite andb_false_r.
  - intros w0 Hopen Hnone Hfull.
    rewrite (acquire_queues_last _ Hopen Hnone Hfull). cbn [final].
    repeat split. simpl. rewrite lookup_app_r by lia.
    now rewrite Nat.sub_diag.
Qed.

(** Three callers queued as promises 2, 3 and 4; connection 0 is released
    three times and goes to them in that order; a fourth caller is queued
    last. *)
Lemma release_hands_to_oldest_waiter_witness :
  pool_waiters (pool sample_saturated) = [2%nat; 3%nat; 4%nat]
  /\ (let w1 := final (ControlPool_release 0 sample_saturated) in
      let w2 := final (ControlPool_release 0 w1) in
      promises w1 !! 2%nat = Some (Fulfilled (VConn 0))
      /\ pool_waiters (pool w1) = [3%nat; 4%nat]
      /\ promises w2 !! 3%nat = Some (Fulfilled (VConn 0))
      /\ promises w2 !! 4%nat = Some Pending
      /\ pool_waiters (pool w2) = [4%nat])
  /\ pool_waiters (pool (final (ControlPool_acquire sample_saturated)))
     = [2%nat; 3%nat; 4%nat; 5%nat].
Proof.
  split; [reflexivity|].
  edestruct (release_hands_to_oldest_waiter sample_saturated 0 _ 2%nat
               [3%nat; 4%nat] eq_refl eq_refl)
    as ((_ & Hw1 & _ & Hp1 & _) & Hacq).
  edestruct (release_hands_to_oldest_waiter
               (final (ControlPool_release 0 sample_saturated)) 0 _ 3%nat
               [4%nat] eq_refl eq_refl)
    as ((_ & Hw2 & Hps2 & Hp2 & _) & _).
  split.
  - cbv zeta. rewrite Hw1, Hw2, (Hp1 eq_refl), (Hp2 eq_refl), Hps2.
    repeat split; reflexivity.
  - destruct (Hacq sample_saturated eq_refl eq_refl eq_refl) as (_ & _ & ->).
    reflexivity.
Defined.

(* --------------------------------------------------------------------- *)
(** ** ControlPool: drain *)
(* --------------------------------------------------------------------- *)

(** Closing the current operation of a connection, if it has one. *)
Lemma close_current_operation (w : World) (cc : nat) (c : ControlConnection) :
  conns w !! cc = Some c -> opConns_valid w ->
  exists w1,
    match cc_opConn c with
    | Some o => OpConn_close o
    | None => ret tt
    end w = Ok tt w1
    /\ conns w1 = conns w /\ pool w1 = pool w
    /\ length (ops w1) = length (ops w).
Proof.
  intros Hc Hv. destruct (cc_opConn c) as [o|] eqn:Hop.
  - destruct (lookup_lt_is_Some_2 _ _ (Hv _ _ _ Hc Hop)) as [oc Ho].
    destruct (oc_closed oc) eqn:Hcl.
    + rewrite (OpConn_close_closed _ _ _ Ho Hcl). eauto.
    + rewrite (OpConn_close_open _ _ _ Ho Hcl).
      rewrite (OpConn_complete_open _ _ _ None Ho Hcl).
      eexists. split; [reflexivity|]. simpl. now rewrite length_insert.
  - eexists. split; [reflexivity|]. auto.
Qed.

(** [close()] of a connection returns, touches no other connection and
    not the pool, and keeps the operation reference of the one it closes. *)
Lemma ControlConnection_close_spec (w : World) (cc : nat)
  (c : ControlConnection) :
  conns w !! cc = Some c -> opConns_valid w ->
  exists w' c',
    ControlConnection_close cc w = Ok tt w'
    /\ pool w' = pool w
    /\ length (ops w') = length (ops w)
    /\ conns w' = <[cc := c']> (conns w)
    /\ cc_opConn c' = cc_opConn c
    /\ cc_closed c' = true.
Proof.
  intros Hc Hv. unfold ControlConnection_close.
  unfold bind at 1. rewrite (getCC_Ok _ _ _ Hc).
  destruct (close_current_operation w cc c Hc Hv) as (w1 & E & Hcs & Hp & Hl).
  unfold bind at 1. rewrite E.
  assert (Hc1 : conns w1 !! cc = Some c) by now rewrite Hcs.
  destruct (cc_ws c) as [sock|]; [destruct (isOPEN (readyState sock))|];
    exec; simpl; rewrite ?list_alter_alter_eq;
    rewrite (alter_as_insert _ _ _ _ Hc1), Hcs;
    do 2 eexists; repeat split; assumption.
Qed.


Lemma length_filter_other (y : nat) (l : list nat) :
  NoDup l -> y ∈ l ->
  S (length (List.filter (fun c => negb (Nat.eqb c y)) l)) = length l.
Proof.
  induction l as [|x l IH]; intros Hnd Hin.
  - now apply elem_of_nil in Hin.
  - apply NoDup_cons in Hnd as [Hx Hnd]. simpl.
    destruct (Nat.eqb_spec x y) as [->|Hne]; simpl.
    + f_equal. rewrite forallb_filter_id; [reflexivity|].
      apply forallb_forall. intros z Hz. apply negb_true_iff, Nat.eqb_neq.
      intros ->. now apply Hx, list_elem_of_In.
    + f_equal. apply IH; [assumption|].
      apply elem_of_cons in Hin as [->|Hin]; [congruence | assumption].
Qed.

Lemma opConns_valid_insert (w w' : World) (cc : nat) (c c' : ControlConnection) :
  opConns_valid w -> conns w !! cc = Some c ->
  conns w' = <[cc := c']> (conns w) -> cc_opConn c' = cc_opConn c ->
  length (ops w') = length (ops w) ->
  opConns_valid w'.
Proof.
  intros Hv Hc Hcs Hop Hl i d o Hd Ho. rewrite Hl. rewrite Hcs in Hd.
  destruct (decide (cc = i)) as [->|Hne].
  - rewrite list_lookup_insert_eq in Hd by (eapply lookup_lt_Some, Hc).
    injection Hd as <-. rewrite Hop in Ho. exact (Hv _ _ _ Hc Ho).
  - rewrite list_lookup_insert_ne in Hd by assumption. exact (Hv _ _ _ Hd Ho).
Qed.


Lemma tryDrain_not_needed (w : World) :
  (pool_closed (pool w)
   || (Z.of_nat (length (pool_conns (pool w))) <=? POOL_DRAIN_THRESHOLD)) = true ->
  ControlPool_tryDrain w = Ok tt w.
Proof. intros Hs. unfold ControlPool_tryDrain. exec. now rewrite Hs. Qed.


Lemma release_no_waiters (w : World) (cc : nat) (c : ControlConnection) :
  conns w !! cc = Some c -> pool_waiters (pool w) = [] ->
  ControlPool_release cc w
  = ControlPool_tryDrain (set_conns (<[cc := released c]> (conns w)) w).
Proof.
  intros Hc Hw. unfold ControlPool_release, ControlConnection_setActive,
    ControlConnection_clearOpConn. exec. simpl. rewrite Hw.
  rewrite list_alter_alter_eq, (alter_as_insert _ _ _ _ Hc). reflexivity.
Qed.



(* --------------------------------------------------------------------- *)
(** ** ControlPool: acquire across the await *)
(* --------------------------------------------------------------------- *)

(** C2.  [acquire()] compares the roster size with [maxSize] before
    [await cc.connect()] and pushes the connection after it.  On a pool
    with [maxSize = 2], five callers call [acquire()] before any socket
    has opened: each finds the roster empty and starts a connection; when
    the five sockets open the roster holds five connections, all handed
    out as active. *)
Theorem acquire_overshoots_maxSize :
  let w := run (H := rejectingJSON)
             [CallAcquire; CallAcquire; CallAcquire; CallAcquire; CallAcquire;
              SocketOpen 0; SocketOpen 1; SocketOpen 2; SocketOpen 3;
              SocketOpen 4] (newWorld 2) in
  pool_maxSize (pool w) = 2
  /\ pool_conns (pool w) = [0; 1; 2; 3; 4]%nat
  /\ pool_maxSize (pool w) < Z.of_nat (length (pool_conns (pool w)))
  /\ pool_waiters (pool w) = []
  /\ map cc_poolActive (conns w) = [true; true; true; true; true].
Proof. cbv zeta. repeat split. Qed.

Section RaceFacts.
Context `{JSONRuntime}.

Lemma run_app (s1 s2 : list Step) (w : World) :
  run (s1 ++ s2) w = run s2 (run s1 w).
Proof. revert w. induction s1 as [|a s1 IH]; intros w; simpl; auto. Qed.

(** While nothing has been pushed on the roster, each acquire() on an open
    pool with a positive [maxSize] starts one more connection and
    suspends. *)
Lemma acquire_suspends (w : World) (k : nat) :
  pool_closed (pool w) = false -> pool_conns (pool w) = [] ->
  0 < pool_maxSize (pool w) ->
  length (conns w) = k -> length (promises w) = (2 * k)%nat ->
  awaiting w = suspended 0 k ->
  let w' := final (step CallAcquire w) in
  pool w' = pool w /\ length (conns w') = S k
  /\ length (promises w') = (2 * S k)%nat /\ awaiting w' = suspended 0 (S k).
Proof.
  intros Hopen Hempty Hmax Hk Hp Ha. cbv zeta.
  unfold step, ControlPool_acquire, ControlConnection_connect. exec.
  rewrite Hopen, Hempty. simpl.
  apply Z.ltb_lt in Hmax. change (Z.of_nat 0) with 0. rewrite Hmax. exec. simpl.
  rewrite list_lookup_middle by reflexivity. simpl. exec. simpl.
  rewrite !length_alter, !length_app, Hk, Hp, Ha. simpl.
  repeat split; try lia.
  unfold suspended. rewrite seq_S, map_app. simpl. repeat f_equal; lia.
Qed.

Lemma acquires_suspend (N : Z) (k : nat) :
  0 < N ->
  let w := run (replicate k CallAcquire) (newWorld N) in
  pool w = pool (newWorld N) /\ length (conns w) = k
  /\ length (promises w) = (2 * k)%nat /\ awaiting w = suspended 0 k.
Proof.
  intros HN. induction k as [|k IH]; [now repeat split|].
  cbv zeta in *. cbn [replicate]. rewrite replicate_cons_app, run_app.
  cbn [run].
  destruct IH as (Hp & Hc & Hpr & Ha).
  destruct (acquire_suspends (run (replicate k CallAcquire) (newWorld N)) k)
    as (Hp' & Hc' & Hpr' & Ha'); try assumption; try (now rewrite Hp).
  repeat split; try assumption. now rewrite Hp'.
Qed.

Lemma suspended_mine (j n : nat) :
  List.filter (fun pc : nat * nat => Nat.eqb (snd pc) j) (suspended j (S n))
  = [(2 * j, j)%nat]
  /\ List.filter (fun pc : nat * nat => negb (Nat.eqb (snd pc) j))
       (suspended j (S n))
     = suspended (S j) n.
Proof.
  unfold suspended. simpl. rewrite Nat.eqb_refl. simpl.
  assert (Hrest : forall pc, In pc (map (fun i => (2 * i, i)%nat) (seq (S j) n))
                             -> Nat.eqb (snd pc) j = false).
  { intros pc Hin. apply in_map_iff in Hin as (i & <- & Hi).
    apply in_seq in Hi. simpl. apply Nat.eqb_neq. lia. }
  split.
  - f_equal. rewrite (filter_ext_in _ (fun _ => false)); [|exact Hrest].
    clear Hrest. induction (map _ (seq (S j) n)); simpl; auto.
  - apply forallb_filter_id, forallb_forall. intros pc Hin.
    now rewrite (Hrest pc Hin).
Qed.

(** When its socket opens, the suspended acquire() pushes its connection
    on the roster, whatever the roster holds by then. *)
Lemma open_resumes (w : World) (j n : nat) :
  (j < length (conns w))%nat -> awaiting w = suspended j (S n) ->
  let w' := final (step (SocketOpen j) w) in
  pool_conns (pool w') = pool_conns (pool w) ++ [j]
  /\ pool_maxSize (pool w') = pool_maxSize (pool w)
  /\ length (conns w') = length (conns w)
  /\ awaiting w' = suspended (S j) n.
Proof.
  intros Hj Ha. cbv zeta.
  destruct (lookup_lt_is_Some_2 _ _ Hj) as [c Hc].
  destruct (suspended_mine j n) as [Hmine Hothers].
  unfold step, socket_open, ws_transition, ControlConnection_onOpen,
    ControlPool_acquire_resume, ControlConnection_setActive. exec.
  destruct (cc_connect _) as [p|]; unfold settle; exec; simpl;
    rewrite Ha, Hmine, Hothers; simpl; exec; simpl;
    rewrite ?list_alter_alter_eq; exec; simpl;
    rewrite !length_alter; repeat split; reflexivity.
Qed.

Lemma opens_resume (n : nat) :
  forall (j : nat) (w : World),
    (j + n <= length (conns w))%nat -> awaiting w = suspended j n ->
    let w' := run (map SocketOpen (seq j n)) w in
    pool_conns (pool w') = pool_conns (pool w) ++ seq j n
    /\ pool_maxSize (pool w') = pool_maxSize (pool w).
Proof.
  induction n as [|n IH]; intros j w Hlen Ha; cbv zeta.
  - simpl. now rewrite app_nil_r.
  - cbn [seq map run]. destruct (open_resumes w j n) as (Hr & Hm & Hl & Ha');
      [lia | assumption |].
    destruct (IH (S j) (final (step (SocketOpen j) w))) as [Hr' Hm'];
      [rewrite Hl; lia | assumption |].
    rewrite Hr', Hm', Hr, Hm, <- app_assoc. now split.
Qed.

(** Whatever [maxSize] is, [M] callers that all call acquire() before any
    socket opens end with [M] connections on the roster. *)
Lemma acquire_race_roster (N : Z) (M : nat) :
  0 < N ->
  let w := run (replicate M CallAcquire ++ map SocketOpen (seq 0 M))
               (newWorld N) in
  pool_maxSize (pool w) = N /\ length (pool_conns (pool w)) = M.
Proof.
  intros HN. cbv zeta. rewrite run_app.
  destruct (acquires_suspend N M HN) as (Hp & Hc & _ & Ha).
  destruct (opens_resume M 0 (run (replicate M CallAcquire) (newWorld N)))
    as [Hr Hm]; [lia | assumption |].
  rewrite Hr, Hm, Hp. simpl. now rewrite length_seq.
Qed.

End RaceFacts.

(* ===================================================================== *)
(** * Further properties of the command session *)
(* ===================================================================== *)

Section WSCommandMore.
Context `{JSONRuntime}.
Import WSCommand.

Lemma stdouts_snoc l e :
  stdouts (l ++ [e]) = stdouts l ++ match e with EvStdout b => [b] | _ => [] end.
Proof.
  unfold stdouts. rewrite omap_app. destruct e; simpl; now rewrite ?app_nil_r.
Qed.

Lemma stderrs_snoc l e :
  stderrs (l ++ [e]) = stderrs l ++ match e with EvStderr b => [b] | _ => [] end.
Proof.
  unfold stderrs. rewrite omap_app. destruct e; simpl; now rewrite ?app_nil_r.
Qed.

Lemma onSocketError_resolved s :
  let s' := final (onSocketError true s) in
  tty s' = tty s /\ done s' = done s /\ exitCode s' = exitCode s
  /\ emitted s' = emitted s.
Proof.
  unfold onSocketError. unfold_monad. destruct (done s) eqn:Hd; simpl;
    repeat split; assumption.
Qed.

(** What one TTY message does to the verdict of the session. *)
Lemma handleMessage_tty now d s :
  tty s = true ->
  let s' := final (handleMessage now d s) in
  tty s' = true
  /\ errors (emitted s') = errors (emitted s)
  /\ match ttyExitCode (InMessage now d) with
     | Some c =>
         done s' = true
         /\ exits (emitted s')
            = exits (emitted s) ++ (if done s then [] else [c])
     | None =>
         done s' = done s /\ exitCode s' = exitCode s
         /\ exits (emitted s') = exits (emitted s)
     end.
Proof.
  intros Htty. unfold handleMessage, ttyExitCode, resetKeepalive.
  unfold_monad. simpl. rewrite Htty.
  destruct d as [text|b]; simpl.
  2:{ rewrite exits_snoc, errors_snoc, !app_nil_r. repeat split; assumption. }
  destruct (JSON_valid text && negb (JSON_null text)); simpl.
  2:{ rewrite exits_snoc, errors_snoc, !app_nil_r. repeat split; assumption. }
  destruct (JSON_exit_notification text) as [c|]; simpl.
  2:{ rewrite exits_snoc, errors_snoc, !app_nil_r. repeat split; assumption. }
  destruct (done s) eqn:Hd; simpl;
    rewrite ?exits_snoc, ?errors_snoc, ?app_nil_r; simpl;
    rewrite ?exits_snoc, ?errors_snoc, ?app_nil_r; repeat split; assumption.
Qed.

Lemma react_tty_done es s :
  tty s = true -> done s = true ->
  let s' := WSCommand_react es s in
  tty s' = true /\ done s' = true
  /\ exits (emitted s') = exits (emitted s)
  /\ errors (emitted s') = errors (emitted s).
Proof.
  revert s. induction es as [|e es IH]; intros s Htty Hd; simpl.
  - now repeat split.
  - destruct e as [now d|].
    + destruct (handleMessage_tty now d s Htty) as (T & E & Hm). simpl.
      assert (D : done (final (handleMessage now d s)) = true
                  /\ exits (emitted (final (handleMessage now d s)))
                     = exits (emitted s)).
      { destruct (ttyExitCode (InMessage now d)).
        - destruct Hm as [D X]. rewrite Hd, app_nil_r in X. now split.
        - destruct Hm as (D & _ & X). rewrite D. now split. }
      destruct D as [D X]. destruct (IH _ T D) as (T' & D' & X' & E').
      rewrite X', E', X, E. now repeat split.
    + destruct (onSocketError_resolved s) as (T & D & _ & Em). simpl.
      destruct (IH (final (onSocketError true s))) as (T' & D' & X' & E');
        [congruence | congruence |].
      rewrite X', E', Em. now repeat split.
Qed.

(** X1.  A TTY session that is not done and has no exit code emits, over
    any inbound messages and post-start socket errors followed by the
    transport's close, exactly one exit event and no error: the code is the
    one of the first exit notification, or else 0 for close code 1000 and 1
    for any other close code. *)
Theorem WSCommand_tty_exits_once
  (es : list Inbound) (code : Z) (s : WSCommand.t) :
  tty s = true -> done s = false -> exitCode s = -1 ->
  let s' := final (handleClose code (WSCommand_react es s)) in
  exits (emitted s')
  = exits (emitted s)
      ++ [match firstTtyExit es with
          | Some c => c
          | None => if code =? 1000 then 0 else 1
          end]
  /\ errors (emitted s') = errors (emitted s).
Proof.
  revert s. induction es as [|e es IH]; intros s Htty Hd Hx; cbv zeta.
  - simpl. unfold handleClose, stopKeepalive. unfold_monad. simpl.
    rewrite Hd, Htty, Hx. simpl.
    rewrite exits_snoc, errors_snoc, app_nil_r. now split.
  - cbn [firstTtyExit WSCommand_react fold_left].
    destruct e as [now d|].
    + destruct (handleMessage_tty now d s Htty) as (T & E & Hm).
      cbn [WSCommand_inbound].
      destruct (ttyExitCode (InMessage now d)) as [c|].
      * destruct Hm as [D X]. rewrite Hd in X.
        destruct (react_tty_done es _ T D) as (_ & D' & X' & E').
        fold (WSCommand_react es (final (handleMessage now d s))).
        rewrite handleClose_done by exact D'. rewrite X', E', X, E. now split.
      * destruct Hm as (D & C & X).
        specialize (IH (final (handleMessage now d s)) T).
        rewrite D, C in IH. specialize (IH Hd Hx). cbv zeta in IH.
        fold (WSCommand_react es (final (handleMessage now d s))).
        rewrite X, E in IH. exact IH.
    + destruct (onSocketError_resolved s) as (T & D & C & Em).
      cbn [WSCommand_inbound ttyExitCode].
      specialize (IH (final (onSocketError true s))).
      rewrite T, D, C, Em in IH. exact (IH Htty Hd Hx).
Qed.

End WSCommandMore.

Section WSCommandStreams.
Context `{JSONRuntime}.
Import WSCommand.

Lemma exitCodeOf_range payload : 0 <= exitCodeOf payload <= 255.
Proof.
  destruct payload as [|c payload]; simpl; [lia|]. unfold byte_val.
  pose proof (Byte.to_N_bounded c). lia.
Qed.

(** What one non-TTY message does to the output streams and to the exits. *)
Lemma handleMessage_streams now d s :
  tty s = false ->
  let s' := final (handleMessage now d s) in
  tty s' = false
  /\ stdouts (emitted s')
     = stdouts (emitted s) ++ from_option (fun p => [p]) [] (stdoutPayload d)
  /\ stderrs (emitted s')
     = stderrs (emitted s) ++ from_option (fun p => [p]) [] (stderrPayload d)
  /\ (done s' = true \/ (done s' = done s /\ exitCode s' = exitCode s))
  /\ exists l, exits (emitted s') = exits (emitted s) ++ l
               /\ Forall (fun c => 0 <= c <= 255) l.
Proof.
  intros Htty. unfold handleMessage, stdoutPayload, stderrPayload,
    resetKeepalive. unfold_monad. simpl. rewrite Htty.
  destruct (decodeFrame (Buffer_from d)) as [[sid payload]|]; simpl.
  2:{ rewrite !app_nil_r. repeat split; auto. exists []. now rewrite app_nil_r. }
  destruct (sid =? StreamID_val Stdout) eqn:E1; simpl.
  { apply Z.eqb_eq in E1. subst sid. simpl.
    rewrite stdouts_snoc, stderrs_snoc, exits_snoc, !app_nil_r.
    repeat split; auto. exists []. now rewrite app_nil_r. }
  destruct (sid =? StreamID_val Stderr) eqn:E2; simpl.
  { rewrite stdouts_snoc, stderrs_snoc, exits_snoc, !app_nil_r.
    repeat split; auto. exists []. now rewrite app_nil_r. }
  destruct (sid =? StreamID_val Exit) eqn:E3; simpl.
  2:{ rewrite !app_nil_r. repeat split; auto. exists []. now rewrite app_nil_r. }
  unfold close, stopKeepalive. unfold_monad.
  destruct (done s) eqn:Hd; simpl;
    (destruct (ws s) as [sock|]; simpl;
     [destruct (isOPEN (readyState sock))|]; simpl);
    rewrite ?stdouts_snoc, ?stderrs_snoc, ?exits_snoc, ?app_nil_r;
    repeat split; auto;
    first [ exists []; now rewrite app_nil_r
          | exists [exitCodeOf payload]; split;
            [reflexivity | repeat constructor; apply exitCodeOf_range] ].
Qed.

(** X2.  In a non-TTY session the payloads of the [Stdout]-tagged messages
    are emitted as ['stdout'], and those of the [Stderr]-tagged messages as
    ['stderr'], each stream in arrival order and without the tag byte;
    messages with any other tag, empty messages and socket errors add
    nothing to either stream.  This holds whether or not an exit was
    already seen. *)
Theorem WSCommand_streams_in_order (es : list Inbound) (s : WSCommand.t) :
  tty s = false ->
  let s' := WSCommand_react es s in
  stdouts (emitted s') = stdouts (emitted s) ++ omap inboundStdout es
  /\ stderrs (emitted s') = stderrs (emitted s) ++ omap inboundStderr es.
Proof.
  revert s. induction es as [|e es IH]; intros s Htty; cbv zeta.
  - simpl. now rewrite !app_nil_r.
  - cbn [WSCommand_react fold_left]. destruct e as [now d|].
    + destruct (handleMessage_streams now d s Htty) as (T & O & E & _).
      destruct (IH _ T) as [IO IE]. cbn [WSCommand_inbound].
      fold (WSCommand_react es (final (handleMessage now d s))).
      rewrite IO, IE, O, E, <- !app_assoc. simpl.
      destruct (stdoutPayload d), (stderrPayload d); now split.
    + destruct (onSocketError_resolved s) as (T & _ & _ & Em).
      destruct (IH (final (onSocketError true s))) as [IO IE];
        [congruence|]. cbn [WSCommand_inbound].
      fold (WSCommand_react es (final (onSocketError true s))).
      rewrite IO, IE, Em. now split.
Qed.

Lemma react_exit_codes es s :
  tty s = false -> done s = true \/ exitCode s = -1 ->
  let s' := WSCommand_react es s in
  tty s' = false /\ (done s' = true \/ exitCode s' = -1)
  /\ exists l, exits (emitted s') = exits (emitted s) ++ l
               /\ Forall (fun c => 0 <= c <= 255) l.
Proof.
  revert s. induction es as [|e es IH]; intros s Htty Hinv; cbv zeta.
  - simpl. repeat split; auto. exists []. now rewrite app_nil_r.
  - cbn [WSCommand_react fold_left]. destruct e as [now d|].
    + destruct (handleMessage_streams now d s Htty)
        as (T & _ & _ & Hd & l & X & R).
      cbn [WSCommand_inbound].
      destruct (IH (final (handleMessage now d s)) T) as (T' & I' & l' & X' & R').
      { destruct Hd as [Hd | [Hd Hx]]; [now left|].
        rewrite Hd, Hx. exact Hinv. }
      fold (WSCommand_react es (final (handleMessage now d s))).
      repeat split; auto. exists (l ++ l'). rewrite X', X, app_assoc.
      split; [reflexivity | now apply Forall_app].
    + destruct (onSocketError_resolved s) as (T & D & C & Em).
      cbn [WSCommand_inbound].
      destruct (IH (final (onSocketError true s))) as (T' & I' & l' & X' & R');
        [congruence | rewrite D, C; exact Hinv |].
      fold (WSCommand_react es (final (onSocketError true s))).
      repeat split; auto. exists l'. now rewrite X', Em.
Qed.

(** X3.  In a non-TTY session that starts without an exit code, every exit
    event emitted over any inbound messages and errors and the final close
    carries a code between 0 and 255: the code -1 that [getExitCode()]
    gives before the exit is never the code of an exit event. *)
Theorem WSCommand_exit_codes_are_bytes
  (es : list Inbound) (code : Z) (s : WSCommand.t) :
  tty s = false -> done s = true \/ exitCode s = -1 ->
  let s' := final (handleClose code (WSCommand_react es s)) in
  exists l, exits (emitted s') = exits (emitted s) ++ l
            /\ Forall (fun c => 0 <= c <= 255) l.
Proof.
  intros Htty Hinv. cbv zeta.
  destruct (react_exit_codes es s Htty Hinv) as (T & I & l & X & R).
  exists l. split; [|exact R]. rewrite <- X.
  destruct (done (WSCommand_react es s)) eqn:Hd.
  - now rewrite handleClose_done.
  - destruct I as [I|I]; [congruence|].
    destruct (handleClose_without_exit code _ T Hd I) as [E _].
    rewrite E, exits_snoc. now rewrite app_nil_r.
Qed.

End WSCommandStreams.

Section WSCommandKeepalive.
Context `{JSONRuntime}.
Import WSCommand.

(** Every message, whatever it is, leaves the keepalive clock at its
    arrival time and the listeners as they were. *)
Lemma handleMessage_clock now d s :
  lastPongTime (final (handleMessage now d s)) = now
  /\ errorListeners (final (handleMessage now d s)) = errorListeners s.
Proof.
  unfold handleMessage, resetKeepalive, close, stopKeepalive, emit.
  unfold_monad. simpl.
  destruct (tty s); [destruct d as [text|b]|]; simpl.
  - destruct (JSON_valid text && negb (JSON_null text)); simpl; [|now split].
    destruct (JSON_exit_notification text); simpl; [|now split].
    destruct (done s); simpl; now split.
  - now split.
  - destruct (decodeFrame (Buffer_from d)) as [[sid payload]|]; simpl;
      [|now split].
    destruct (sid =? StreamID_val Stdout); simpl; [now split|].
    destruct (sid =? StreamID_val Stderr); simpl; [now split|].
    destruct (sid =? StreamID_val Exit); simpl; [|now split].
    destruct (done s); simpl;
      (destruct (ws s) as [sock|]; simpl;
       [destruct (isOPEN (readyState sock))|]; simpl); now split.
Qed.

(** X4.  Any inbound message resets the keepalive clock to its arrival
    time [t].  A timer firing at [now] with [now - t <= 45000] then does
    nothing to the log or the socket, in either mode.  A firing later than
    that on an open socket emits the keepalive-timeout error and, when the
    session has an error listener, closes the socket with code 1000 and
    disarms the timer. *)
Theorem keepalive_message_postpones_timeout
  (t now : Z) (d : MessageData) (s : WSCommand.t) :
  let s1 := final (handleMessage t d s) in
  let r := keepaliveTick now s1 in
  lastPongTime s1 = t
  /\ (now - t <= WS_PONG_WAIT ->
      returned r = true /\ emitted (final r) = emitted s1
      /\ ws (final r) = ws s1)
  /\ (WS_PONG_WAIT < now - t -> wsIsOpen (ws s1) = true ->
      emitted (final r) = emitted s1 ++ [EvError "WebSocket keepalive timeout"]
      /\ (errorListeners s <> 0%nat ->
          returned r = true /\ wsIsOpen (ws (final r)) = false
          /\ (exists sock, ws (final r) = Some sock
                           /\ last (closeCalls sock) = Some (1000, ""))
          /\ pingInterval (final r) = false)).
Proof.
  cbv zeta. destruct (handleMessage_clock t d s) as [Hclock Hl].
  set (s1 := final (handleMessage t d s)) in *.
  split; [exact Hclock|]. split.
  - intros Hle. unfold keepaliveTick, stopKeepalive. unfold_monad.
    destruct (wsIsOpen (ws s1)); simpl; [|now repeat split].
    rewrite Hclock. destruct (now - t >? WS_PONG_WAIT) eqn:Hgt.
    + apply Z.gtb_lt in Hgt. lia.
    + now repeat split.
  - intros Hgt Hopen. unfold keepaliveTick, emit, close, stopKeepalive.
    unfold_monad. rewrite Hopen, Hclock. simpl.
    apply Z.gtb_lt in Hgt. rewrite Hgt. simpl.
    unfold wsIsOpen in Hopen.
    destruct (ws s1) as [sock|] eqn:Hws; [|discriminate].
    destruct (Nat.eqb (errorListeners s1) 0) eqn:Hn; simpl.
    + split; [reflexivity|]. intros Hne. apply Nat.eqb_eq in Hn. congruence.
    + rewrite Hws. simpl. rewrite Hopen. simpl. split; [reflexivity|].
      intros _. repeat split. exists (ws_close 1000 "" sock).
      split; [reflexivity|]. simpl. apply last_snoc.
Qed.

(** X5.  A keepalive timeout in a non-TTY session that has seen no Exit
    frame is reported twice: the timer emits the timeout error and closes
    the socket, and the transport's close event then emits a second error,
    for the missing Exit frame; no exit event is emitted. *)
Theorem keepalive_timeout_then_close_two_errors
  (now code : Z) (s : WSCommand.t) :
  tty s = false -> done s = false -> exitCode s = -1 ->
  closeError s = None -> wsIsOpen (ws s) = true ->
  errorListeners s <> 0%nat ->
  WS_PONG_WAIT < now - lastPongTime s ->
  let s' := final (handleClose code (final (keepaliveTick now s))) in
  errors (emitted s')
  = errors (emitted s)
      ++ ["WebSocket keepalive timeout"; closedWithoutExit code]
  /\ exits (emitted s') = exits (emitted s).
Proof.
  intros Htty Hd Hx Hce Hopen Hl Hgt. cbv zeta.
  unfold keepaliveTick, emit, close, stopKeepalive, handleClose.
  unfold_monad. rewrite Hopen. simpl.
  apply Z.gtb_lt in Hgt. rewrite Hgt. simpl.
  apply Nat.eqb_neq in Hl. rewrite Hl. simpl.
  unfold wsIsOpen in Hopen.
  destruct (ws s) as [sock|]; [|discriminate]. rewrite Hopen. simpl.
  rewrite Hd, Htty, Hx, Hce. simpl. rewrite Hl. simpl.
  rewrite !errors_snoc, !exits_snoc, !app_nil_r, <- app_assoc. now split.
Qed.

(** X6.  On a socket that is missing or not open, [writeStdin] throws
    and [sendStdinEOF] returns silently; neither changes the session.  In
    TTY mode [sendStdinEOF] sends nothing even on an open socket, while
    [writeStdin] sends the data without a tag byte. *)
Theorem stdin_on_closed_socket_and_tty
  (data : list byte) (s : WSCommand.t) :
  (wsIsOpen (ws s) = false ->
   writeStdin data s = Throw "WebSocket not open" s
   /\ sendStdinEOF s = Ok tt s)
  /\ (forall sock, ws s = Some sock -> readyState sock = OPEN ->
      tty s = true ->
      sendStdinEOF s = Ok tt s
      /\ writeStdin data s
         = Ok tt (set_ws (Some (ws_send (DBinary data) sock)) s)).
Proof.
  split.
  - intros Hopen. unfold writeStdin, sendStdinEOF, wsIsOpen in *.
    unfold_monad. destruct (ws s) as [sock|]; [|now split].
    rewrite Hopen. now split.
  - intros sock Hws Hrs Htty. unfold writeStdin, sendStdinEOF.
    unfold_monad. rewrite Hws, Hrs, Htty. now split.
Qed.

End WSCommandKeepalive.

(** Terminal output, a socket error and an exit notification with code 7,
    then close 1006; and terminal output only, then close 1000. *)
Lemma WSCommand_tty_exits_once_witness :
  (let s' := final (WSCommand.handleClose 1006
                      (WSCommand_react (H := exit7JSON)
                         [InMessage 1 (DBinary ["$"%byte]); InError;
                          InMessage 2 (DString exit7_text)]
                         (WSCommand.new true))) in
   WSCommand.exits (WSCommand.emitted s') = [7]
   /\ WSCommand.errors (WSCommand.emitted s') = [])
  /\ (let s' := final (WSCommand.handleClose 1000
                         (WSCommand_react (H := exit7JSON)
                            [InMessage 1 (DBinary ["$"%byte])]
                            (WSCommand.new true))) in
      WSCommand.exits (WSCommand.emitted s') = [0]
      /\ WSCommand.errors (WSCommand.emitted s') = []).
Proof.
  split.
  - exact (WSCommand_tty_exits_once (H := exit7JSON)
             [InMessage 1 (DBinary ["$"%byte]); InError;
              InMessage 2 (DString exit7_text)] 1006 (WSCommand.new true)
             eq_refl eq_refl eq_refl).
  - exact (WSCommand_tty_exits_once (H := exit7JSON)
             [InMessage 1 (DBinary ["$"%byte])] 1000 (WSCommand.new true)
             eq_refl eq_refl eq_refl).
Defined.

(** Stdout [a], stderr [b], a stdin-tagged frame, an empty message, Exit 0
    and a late stdout [c]. *)
Lemma WSCommand_streams_in_order_witness :
  let s' := WSCommand_react (H := rejectingJSON)
              [InMessage 1 (DBinary (encodeFrame Stdout ["a"%byte]));
               InMessage 2 (DBinary (encodeFrame Stderr ["b"%byte]));
               InMessage 3 (DBinary (encodeFrame Stdin ["x"%byte]));
               InMessage 4 (DBinary []);
               InMessage 5 (DBinary (encodeFrame Exit [x00]));
               InMessage 6 (DBinary (encodeFrame Stdout ["c"%byte]))]
              (WSCommand.new false) in
  WSCommand.stdouts (WSCommand.emitted s') = [["a"%byte]; ["c"%byte]]
  /\ WSCommand.stderrs (WSCommand.emitted s') = [["b"%byte]].
Proof.
  exact (WSCommand_streams_in_order (H := rejectingJSON)
           [InMessage 1 (DBinary (encodeFrame Stdout ["a"%byte]));
            InMessage 2 (DBinary (encodeFrame Stderr ["b"%byte]));
            InMessage 3 (DBinary (encodeFrame Stdin ["x"%byte]));
            InMessage 4 (DBinary []);
            InMessage 5 (DBinary (encodeFrame Exit [x00]));
            InMessage 6 (DBinary (encodeFrame Stdout ["c"%byte]))]
           (WSCommand.new false) eq_refl).
Defined.

(** An Exit frame with the largest payload byte, then close. *)
Lemma WSCommand_exit_codes_are_bytes_witness :
  Forall (fun c => 0 <= c <= 255)
    (WSCommand.exits
       (WSCommand.emitted
          (final (WSCommand.handleClose 1000
                    (WSCommand_react (H := rejectingJSON)
                       [InMessage 1 (DBinary (encodeFrame Exit [xff]))]
                       (WSCommand.new false)))))).
Proof.
  destruct (WSCommand_exit_codes_are_bytes (H := rejectingJSON)
              [InMessage 1 (DBinary (encodeFrame Exit [xff]))] 1000
              (WSCommand.new false) eq_refl (or_intror eq_refl))
    as (l & E & R).
  rewrite E. exact R.
Defined.

(** A stdout frame at 2000; the timer fires at 47000 and at 47001. *)
Lemma keepalive_message_postpones_timeout_witness :
  let s1 := final (WSCommand.handleMessage (H := rejectingJSON) 2000
                     (DBinary (encodeFrame Stdout ["a"%byte])) sample_session) in
  WSCommand.emitted (final (WSCommand.keepaliveTick 47000 s1))
  = WSCommand.emitted s1
  /\ WSCommand.emitted (final (WSCommand.keepaliveTick 47001 s1))
     = WSCommand.emitted s1
         ++ [WSCommand.EvError "WebSocket keepalive timeout"]
  /\ wsIsOpen (WSCommand.ws (final (WSCommand.keepaliveTick 47001 s1))) = false.
Proof.
  destruct (keepalive_message_postpones_timeout (H := rejectingJSON) 2000 47000
              (DBinary (encodeFrame Stdout ["a"%byte])) sample_session)
    as (_ & Hin & _).
  destruct (keepalive_message_postpones_timeout (H := rejectingJSON) 2000 47001
              (DBinary (encodeFrame Stdout ["a"%byte])) sample_session)
    as (_ & _ & Hout).
  cbv zeta. split; [apply Hin; vm_compute; discriminate|].
  destruct (Hout eq_refl eq_refl) as [He Hc]. split; [exact He|].
  apply Hc. discriminate.
Defined.

Lemma keepalive_timeout_then_close_two_errors_witness :
  let s' := final (WSCommand.handleClose 1000
                     (final (WSCommand.keepaliveTick 46001 sample_session))) in
  WSCommand.errors (WSCommand.emitted s')
  = ["WebSocket keepalive timeout";
     "WebSocket closed without exit frame (code 1000)"]
  /\ WSCommand.exits (WSCommand.emitted s') = [].
Proof.
  refine (keepalive_timeout_then_close_two_errors 46001 1000 sample_session
            eq_refl eq_refl eq_refl eq_refl eq_refl _ eq_refl).
  discriminate.
Defined.

Lemma stdin_on_closed_socket_and_tty_witness :
  WSCommand.writeStdin ["a"%byte] (WSCommand.new false)
  = Throw "WebSocket not open" (WSCommand.new false)
  /\ WSCommand.sendStdinEOF (WSCommand.new false) = Ok tt (WSCommand.new false)
  /\ WSCommand.sendStdinEOF
       (WSCommand.set_ws (Some (mkWebSocket OPEN [] [])) (WSCommand.new true))
     = Ok tt (WSCommand.set_ws (Some (mkWebSocket OPEN [] []))
                (WSCommand.new true)).
Proof.
  destruct (stdin_on_closed_socket_and_tty ["a"%byte] (WSCommand.new false))
    as [Hclosed _].
  destruct (stdin_on_closed_socket_and_tty ["a"%byte]
              (WSCommand.set_ws (Some (mkWebSocket OPEN [] []))
                 (WSCommand.new true))) as [_ Htty].
  destruct (Hclosed eq_refl) as [Hw He].
  destruct (Htty _ eq_refl eq_refl eq_refl) as [He' _].
  split; [exact Hw|]. split; [exact He | exact He'].
Defined.

(* ===================================================================== *)
(** * Further properties of operations and connections *)
(* ===================================================================== *)

Section RoutingFacts.
Context `{JSONRuntime}.

(** X7.  Message routing on a connection.  A text with the control prefix
    whose payload does not parse, or parses to an envelope of a type other
    than op.complete and op.error, is swallowed: the handler returns and
    the store is unchanged, so nothing of it reaches the operation.  A
    message without the control prefix arriving while the connection has no
    current operation is dropped the same way. *)
Theorem handleMessage_swallows_or_drops
  (w : World) (cc : nat) (c : ControlConnection) :
  conns w !! cc = Some c ->
  (forall s, String.prefix CONTROL_PREFIX s = true ->
     match JSON_parse_control
             (String.substring (String.length CONTROL_PREFIX)
                (String.length s - String.length CONTROL_PREFIX) s) with
     | None => True
     | Some msg => msg_type msg <> TYPE_OP_COMPLETE
                   /\ msg_type msg <> TYPE_OP_ERROR
     end ->
     ControlConnection_handleMessage cc (DString s) w = Ok tt w)
  /\ (forall d, isControlText d = false -> cc_opConn c = None ->
        ControlConnection_handleMessage cc d w = Ok tt w).
Proof.
  intros Hc. split.
  - intros s Hpre Hparse. unfold ControlConnection_handleMessage.
    rewrite Hpre. unfold try_ignore.
    destruct (JSON_parse_control _) as [msg|]; [|reflexivity].
    destruct Hparse as [Hn1 Hn2].
    unfold ControlConnection_handleControlMessage.
    apply String.eqb_neq in Hn1, Hn2. now rewrite Hn1, Hn2.
  - intros d Hd Hop. unfold ControlConnection_handleMessage.
    destruct d as [s|b]; simpl in Hd; rewrite ?Hd; exec; now rewrite Hop.
Qed.

End RoutingFacts.

(** X8.  Guards of the operation's write side.  On a closed operation
    [write] throws ["Operation closed"] and [sendEOF] returns silently,
    both without touching the connection, whatever the state of its
    socket.  On an operation that is not closed but whose connection's
    socket is not open, [write] throws ["WebSocket not connected"], and so
    does [sendEOF] unless the operation is a TTY one, where it is a no-op. *)
Theorem OpConn_write_guards (w : World) (o : nat) (oc : OpConn)
  (c : ControlConnection) (data : list byte) :
  ops w !! o = Some oc -> conns w !! oc_cc oc = Some c ->
  (oc_closed oc = true ->
   OpConn_write o data w = Throw "Operation closed" w
   /\ OpConn_sendEOF o w = Ok tt w)
  /\ (oc_closed oc = false -> wsIsOpen (cc_ws c) = false ->
      OpConn_write o data w = Throw "WebSocket not connected" w
      /\ OpConn_sendEOF o w
         = if oc_tty oc then Ok tt w else Throw "WebSocket not connected" w).
Proof.
  intros Ho Hc. split.
  - intros Hcl. unfold OpConn_write, OpConn_sendEOF. exec. now rewrite Hcl.
  - intros Hcl Hws. unfold OpConn_write, OpConn_sendEOF,
      ControlConnection_sendData. exec. rewrite Hcl. simpl.
    unfold wsIsOpen in Hws.
    destruct (oc_tty oc); exec;
      (destruct (cc_ws c) as [sock|]; [rewrite Hws|]); now split.
Qed.

Lemma handleMessage_swallows_or_drops_witness :
  ControlConnection_handleMessage (H := rejectingJSON) 0
    (DString "control:not json") sample_waiting = Ok tt sample_waiting
  /\ ControlConnection_handleMessage (H := rejectingJSON) 0
       (DBinary (encodeFrame Stdout ["a"%byte])) sample_connected
     = Ok tt sample_connected.
Proof.
  edestruct (handleMessage_swallows_or_drops (H := rejectingJSON)
               sample_waiting 0 _ eq_refl) as [Hswallow _].
  edestruct (handleMessage_swallows_or_drops (H := rejectingJSON)
               sample_connected 0 _ eq_refl) as [_ Hdrop].
  split.
  - exact (Hswallow "control:not json" eq_refl I).
  - exact (Hdrop (DBinary (encodeFrame Stdout ["a"%byte])) eq_refl eq_refl).
Defined.

(** The operation of the example store once completed; and the same
    operation, open, after its connection's socket closed under it. *)
Lemma OpConn_write_guards_witness :
  (OpConn_write 0 ["a"%byte] sample_completed
   = Throw "Operation closed" sample_completed
   /\ OpConn_sendEOF 0 sample_completed = Ok tt sample_completed)
  /\ (OpConn_write 0 ["a"%byte] sample_dead_socket
      = Throw "WebSocket not connected" sample_dead_socket
      /\ OpConn_sendEOF 0 sample_dead_socket
         = Throw "WebSocket not connected" sample_dead_socket).
Proof.
  split.
  - edestruct (OpConn_write_guards sample_completed 0 _ _ ["a"%byte]
                 eq_refl eq_refl) as [Hclosed _].
    exact (Hclosed eq_refl).
  - edestruct (OpConn_write_guards sample_dead_socket 0 _ _ ["a"%byte]
                 eq_refl eq_refl) as [_ Hdead].
    exact (Hdead eq_refl eq_refl).
Defined.

Lemma set_ops_same (w : World) (o : nat) (oc : OpConn) :
  ops w !! o = Some oc -> set_ops (<[o := oc]> (ops w)) w = w.
Proof. intros Ho. rewrite list_insert_id by assumption. now destruct w. Qed.

Lemma op_stdouts_snoc l e :
  op_stdouts (l ++ [e])
  = op_stdouts l ++ match e with OpStdout b => [b] | _ => [] end.
Proof.
  unfold op_stdouts. rewrite omap_app. destruct e; simpl; now rewrite ?app_nil_r.
Qed.

Section DataFacts.
Context `{JSONRuntime}.

(** One data message, of any content, changes nothing but the log and the
    stored exit code of the current operation. *)
Lemma handleMessage_data (w : World) (cc o : nat) (c : ControlConnection)
  (oc : OpConn) (d : MessageData) :
  conns w !! cc = Some c -> cc_opConn c = Some o -> ops w !! o = Some oc ->
  isControlText d = false ->
  exists oc1,
    ControlConnection_handleMessage cc d w
    = Ok tt (set_ops (<[o := oc1]> (ops w)) w)
    /\ oc_cc oc1 = oc_cc oc /\ oc_tty oc1 = oc_tty oc
    /\ oc_closed oc1 = oc_closed oc /\ oc_closeOnce oc1 = oc_closeOnce oc
    /\ oc_errorListeners oc1 = oc_errorListeners oc
    /\ op_stdouts (oc_emitted oc1)
       = op_stdouts (oc_emitted oc)
           ++ from_option (fun p => [p]) [] (opStdoutOf (oc_tty oc) d).
Proof.
  intros Hc Hop Ho Hd.
  assert (Hsame : exists oc1,
            Ok tt w = Ok tt (set_ops (<[o := oc1]> (ops w)) w)
            /\ oc_cc oc1 = oc_cc oc /\ oc_tty oc1 = oc_tty oc
            /\ oc_closed oc1 = oc_closed oc /\ oc_closeOnce oc1 = oc_closeOnce oc
            /\ oc_errorListeners oc1 = oc_errorListeners oc
            /\ op_stdouts (oc_emitted oc1) = op_stdouts (oc_emitted oc) ++ []).
  { exists oc. rewrite (set_ops_same _ _ _ Ho), app_nil_r. now repeat split. }
  unfold ControlConnection_handleMessage.
  destruct d as [s|b]; simpl in Hd; rewrite ?Hd; exec; rewrite Hop.
  - unfold OpConn_handleText, opStdoutOf.
    destruct (JSON_valid s); [|exact Hsame].
    unfold OpConn_emit. exec. rewrite (alter_as_insert _ _ _ _ Ho).
    eexists. split; [reflexivity|]. simpl.
    rewrite op_stdouts_snoc, app_nil_r. now repeat split.
  - unfold OpConn_handleData, opStdoutOf, stdoutPayload. exec.
    destruct (oc_tty oc) eqn:Htty.
    + unfold OpConn_emit. exec. rewrite (alter_as_insert _ _ _ _ Ho).
      eexists. split; [reflexivity|]. simpl.
      rewrite op_stdouts_snoc. now repeat split.
    + simpl. destruct (decodeFrame b) as [[sid payload]|]; [|exact Hsame].
      destruct (sid =? StreamID_val Stdout) eqn:E1.
      { unfold OpConn_emit. exec. rewrite (alter_as_insert _ _ _ _ Ho).
        eexists. split; [reflexivity|]. simpl.
        rewrite op_stdouts_snoc. now repeat split. }
      destruct (sid =? StreamID_val Stderr) eqn:E2.
      { unfold OpConn_emit. exec. rewrite (alter_as_insert _ _ _ _ Ho).
        eexists. split; [reflexivity|]. simpl.
        rewrite op_stdouts_snoc, app_nil_r. now repeat split. }
      destruct (sid =? StreamID_val Exit) eqn:E3; [|exact Hsame].
      unfold OpConn_emit. exec. simpl. rewrite list_alter_alter_eq.
      rewrite (alter_as_insert _ _ _ _ Ho).
      eexists. split; [reflexivity|]. simpl.
      rewrite op_stdouts_snoc, app_nil_r. now repeat split.
Qed.

(** X9 and X10 share this run: the store after any data messages. *)
Lemma deliver_data (msgs : list MessageData) :
  forall (w : World) (cc o : nat) (c : ControlConnection) (oc : OpConn),
    conns w !! cc = Some c -> cc_opConn c = Some o -> ops w !! o = Some oc ->
    Forall (fun d => isControlText d = false) msgs ->
    let w' := ControlConnection_deliver cc msgs w in
    conns w' = conns w /\ promises w' = promises w /\ pool w' = pool w
    /\ awaiting w' = awaiting w /\ length (ops w') = length (ops w)
    /\ exists oc', ops w' !! o = Some oc'
         /\ oc_tty oc' = oc_tty oc /\ oc_closed oc' = oc_closed oc
         /\ oc_closeOnce oc' = oc_closeOnce oc
         /\ op_stdouts (oc_emitted oc')
            = op_stdouts (oc_emitted oc) ++ omap (opStdoutOf (oc_tty oc)) msgs.
Proof.
  induction msgs as [|d msgs IH]; intros w cc o c oc Hc Hop Ho Hall; cbv zeta.
  - simpl. repeat split. exists oc. rewrite app_nil_r. now repeat split.
  - apply Forall_cons in Hall as [Hd Hall].
    destruct (handleMessage_data w cc o c oc d Hc Hop Ho Hd)
      as (oc1 & E & _ & T & C & W & _ & S).
    cbn [ControlConnection_deliver fold_left]. rewrite E. cbn [final].
    pose proof (lookup_lt_Some _ _ _ Ho) as Hlt.
    destruct (IH (set_ops (<[o := oc1]> (ops w)) w) cc o c oc1)
      as (Hcs & Hps & Hpl & Ha & Hlen & oc' & Ho' & T' & C' & W' & S');
      try assumption.
    { simpl. now apply list_lookup_insert_eq. }
    unfold ControlConnection_deliver in *.
    rewrite Hcs, Hps, Hpl, Ha, Hlen. simpl. rewrite length_insert.
    repeat split. exists oc'. split; [exact Ho'|].
    rewrite T', C', W', S', S, T, C, W, <- app_assoc. simpl.
    destruct (opStdoutOf (oc_tty oc) d); now repeat split.
Qed.

(** X9.  No data message completes an operation.  Whatever messages
    without the control prefix arrive on a connection with a current
    operation (binary frames of any tag, an Exit frame included, or texts),
    the operation's closed flag and its pending [wait()] promises are as
    before, no promise is settled, and the connection (busy flag, current
    operation, socket) and the pool are unchanged. *)
Theorem data_messages_never_complete
  (msgs : list MessageData) (w : World) (cc o : nat)
  (c : ControlConnection) (oc : OpConn) :
  conns w !! cc = Some c -> cc_opConn c = Some o -> ops w !! o = Some oc ->
  Forall (fun d => isControlText d = false) msgs ->
  let w' := ControlConnection_deliver cc msgs w in
  conns w' = conns w /\ promises w' = promises w /\ pool w' = pool w
  /\ exists oc', ops w' !! o = Some oc'
       /\ oc_closed oc' = oc_closed oc /\ oc_closeOnce oc' = oc_closeOnce oc.
Proof.
  intros Hc Hop Ho Hall. cbv zeta.
  destruct (deliver_data msgs w cc o c oc Hc Hop Ho Hall)
    as (Hcs & Hps & Hpl & _ & _ & oc' & Ho' & _ & C & W & _).
  repeat split; try assumption. exists oc'. now repeat split.
Qed.

(** X10.  The ['stdout'] events of an operation are, in arrival order:
    for a TTY operation every binary message as it is, an empty one and
    one that starts with the Exit tag included; for a non-TTY operation
    the payloads of the [Stdout]-tagged frames.  Text messages add
    nothing to it. *)
Theorem OpConn_stdout_in_order
  (msgs : list MessageData) (w : World) (cc o : nat)
  (c : ControlConnection) (oc : OpConn) :
  conns w !! cc = Some c -> cc_opConn c = Some o -> ops w !! o = Some oc ->
  Forall (fun d => isControlText d = false) msgs ->
  exists oc', ops (ControlConnection_deliver cc msgs w) !! o = Some oc'
    /\ op_stdouts (oc_emitted oc')
       = op_stdouts (oc_emitted oc) ++ omap (opStdoutOf (oc_tty oc)) msgs.
Proof.
  intros Hc Hop Ho Hall.
  destruct (deliver_data msgs w cc o c oc Hc Hop Ho Hall)
    as (_ & _ & _ & _ & _ & oc' & Ho' & _ & _ & _ & S).
  exists oc'. now split.
Qed.

End DataFacts.

(** Stdout, an Exit frame, a text and stderr on the non-TTY example
    operation with a pending wait (promise 1). *)
Lemma data_messages_never_complete_witness :
  let w' := ControlConnection_deliver (H := rejectingJSON) 0
              [DBinary (encodeFrame Stdout ["a"%byte]);
               DBinary (encodeFrame Exit [x03]); DString "hello";
               DBinary (encodeFrame Stderr ["b"%byte])] sample_store in
  conns w' = conns sample_store
  /\ promises w' = [Fulfilled VUnit; Pending]
  /\ exists oc', ops w' !! 0%nat = Some oc' /\ oc_closed oc' = false.
Proof.
  edestruct (data_messages_never_complete (H := rejectingJSON)
               [DBinary (encodeFrame Stdout ["a"%byte]);
                DBinary (encodeFrame Exit [x03]); DString "hello";
                DBinary (encodeFrame Stderr ["b"%byte])] sample_store 0 0 _ _
               eq_refl eq_refl eq_refl)
    as (Hc & Hp & _ & oc' & Ho & Hcl & _).
  { repeat constructor. }
  cbv zeta. split; [exact Hc|]. split; [exact Hp|].
  exists oc'. split; [exact Ho | exact Hcl].
Defined.

(** A TTY operation: an ordinary chunk, an empty one and one that starts
    with the Exit tag are all terminal output. *)
Lemma OpConn_stdout_in_order_witness :
  exists oc',
    ops (ControlConnection_deliver (H := rejectingJSON) 0
           [DBinary ["$"%byte]; DBinary []; DBinary [x03; x07]]
           sample_tty_busy) !! 0%nat = Some oc'
    /\ op_stdouts (oc_emitted oc') = [["$"%byte]; []; [x03; x07]].
Proof.
  edestruct (OpConn_stdout_in_order (H := rejectingJSON)
               [DBinary ["$"%byte]; DBinary []; DBinary [x03; x07]]
               sample_tty_busy 0 0 _ _ eq_refl eq_refl eq_refl)
    as (oc' & Ho & Hs).
  { repeat constructor. }
  exists oc'. split; [exact Ho | exact Hs].
Defined.

Section SocketCloseFacts.
Context `{JSONRuntime}.

(** X11.  When the socket of a connection closes under an operation in
    flight, the operation is closed with its stored exit code (-1 unless
    an Exit frame had set it) and every pending [wait()] promise is
    fulfilled, not rejected, with that code; the connection is marked
    closed and emits ['close'], keeps its reference to the operation, is
    never again available to [acquire()], and every later [startOp] on it
    throws with the stored socket error, or ["unknown"], in the message. *)
Theorem socket_close_ends_operation
  (w : World) (cc o : nat) (c : ControlConnection) (oc : OpConn) :
  conns w !! cc = Some c -> cc_opConn c = Some o ->
  ops w !! o = Some oc -> oc_closed oc = false ->
  let r := socket_close cc w in
  let w' := final r in
  returned r = true
  /\ ops w' !! o = Some (closed_with (oc_exitCode oc) oc)
  /\ (forall p, p ∈ oc_closeOnce oc -> promises w !! p = Some Pending ->
        promises w' !! p = Some (Fulfilled (VNum (oc_exitCode oc))))
  /\ (exists c', conns w' !! cc = Some c'
        /\ cc_closed c' = true /\ cc_opConn c' = Some o
        /\ cc_emitted c' = cc_emitted c ++ [ConnClose])
  /\ isAvailable w' cc = false
  /\ (forall op options,
        ControlConnection_startOp cc op options w'
        = Throw ("Control connection closed: " +:+ or_unknown (cc_closeError c))
                w').
Proof.
  intros Hc Hop Ho Hopen. cbv zeta.
  pose proof (lookup_lt_Some _ _ _ Ho) as Hlt.
  pose proof (lookup_lt_Some _ _ _ Hc) as Hclt.
  unfold socket_close, ws_transition, ControlConnection_handleClose,
    ControlConnection_emit.
  exec. simpl. rewrite Hop.
  match goal with
  | |- context [OpConn_close o ?w1] =>
      rewrite (OpConn_close_open w1 o oc Ho Hopen);
      rewrite (OpConn_complete_open w1 o oc None Ho Hopen)
  end.
  do 2 (exec; simpl; rewrite ?list_alter_alter_eq).
  split; [reflexivity|]. split; [now apply list_lookup_insert_eq|].
  split; [intros p Hin Hp; now apply settle_all_pending|].
  split.
  { eexists. split; [exact (lookup_alter_Some _ _ _ _ Hc)|]. simpl.
    now repeat split. }
  split.
  { unfold isAvailable. simpl. now rewrite (lookup_alter_Some _ _ _ _ Hc). }
  intros op options. unfold ControlConnection_startOp.
  unfold bind at 1. unfold getCC. cbn [conns set_conns set_promises set_ops].
  rewrite (lookup_alter_Some _ _ _ _ Hc). reflexivity.
Qed.

End SocketCloseFacts.

Lemma socket_close_ends_operation_witness :
  let w' := final (socket_close 0 sample_store) in
  promises w' !! 1%nat = Some (Fulfilled (VNum (-1)))
  /\ (exists oc', ops w' !! 0%nat = Some oc' /\ oc_closed oc' = true)
  /\ ControlConnection_startOp (H := rejectingJSON) 0 "exec" sample_options w'
     = Throw "Control connection closed: unknown" w'.
Proof.
  edestruct (socket_close_ends_operation (H := rejectingJSON) sample_store
               0 0 _ _ eq_refl eq_refl eq_refl eq_refl)
    as (_ & Ho & Hp & _ & _ & Hstart).
  cbv zeta. split; [exact (Hp 1%nat (list_elem_of_here _ _) eq_refl)|].
  split; [eexists; split; [exact Ho | reflexivity]|].
  exact (Hstart "exec" sample_options).
Defined.

(* --------------------------------------------------------------------- *)
(** ** ControlConnection.close *)
(* --------------------------------------------------------------------- *)

Lemma set_cc_closed_same (c : ControlConnection) :
  cc_closed c = true -> set_cc_closed true c = c.
Proof. destruct c; simpl; intros ->; reflexivity. Qed.

Lemma set_conns_same (w : World) (cc : nat) (c : ControlConnection) :
  conns w !! cc = Some c -> set_conns (<[cc := c]> (conns w)) w = w.
Proof. intros Hc. rewrite list_insert_id by assumption. now destruct w. Qed.

(** [close()] on a connection that is closed, whose socket is not open
    and whose operation, if any, is closed, changes nothing. *)
Lemma close_closed_noop (w : World) (cc : nat) (c : ControlConnection) :
  conns w !! cc = Some c -> cc_closed c = true ->
  wsIsOpen (cc_ws c) = false ->
  (forall o, cc_opConn c = Some o ->
     exists oc, ops w !! o = Some oc /\ oc_closed oc = true) ->
  ControlConnection_close cc w = Ok tt w.
Proof.
  intros Hc Hcl Hws Hop. unfold ControlConnection_close.
  unfold bind at 1. rewrite (getCC_Ok _ _ _ Hc).
  assert (E : match cc_opConn c with
              | Some o => OpConn_close o
              | None => ret tt
              end w = Ok tt w).
  { destruct (cc_opConn c) as [o|]; [|reflexivity].
    destruct (Hop o eq_refl) as (oc & Ho & Hoc).
    exact (OpConn_close_closed _ _ _ Ho Hoc). }
  unfold bind at 1. rewrite E. unfold wsIsOpen in Hws.
  assert (E2 : match cc_ws c with
               | Some sock =>
                   if isOPEN (readyState sock)
                   then updCC cc (set_cc_ws (Some (ws_close 1000 "" sock)))
                   else ret tt
               | None => ret tt
               end w = Ok tt w).
  { destruct (cc_ws c) as [sock|]; [rewrite Hws|]; reflexivity. }
  unfold bind. rewrite E2. unfold updCC, modify.
  rewrite (alter_as_insert _ _ _ _ Hc), (set_cc_closed_same _ Hcl).
  now rewrite (set_conns_same _ _ _ Hc).
Qed.

(** X12.  [close()] of a connection in a well-formed store returns; after
    it the connection is closed, its socket is not open (an open one was
    asked to close with code 1000), and its operation, if it had one, is
    closed.  A second [close()] returns with the store unchanged. *)
Theorem ControlConnection_close_idempotent
  (w : World) (cc : nat) (c : ControlConnection) :
  conns w !! cc = Some c -> opConns_valid w ->
  let r := ControlConnection_close cc w in
  let w1 := final r in
  returned r = true
  /\ (exists c1, conns w1 !! cc = Some c1 /\ cc_closed c1 = true
                 /\ wsIsOpen (cc_ws c1) = false
                 /\ (forall sock, cc_ws c = Some sock ->
                       readyState sock = OPEN ->
                       cc_ws c1 = Some (ws_close 1000 "" sock)))
  /\ (forall o, cc_opConn c = Some o ->
        exists oc1, ops w1 !! o = Some oc1 /\ oc_closed oc1 = true)
  /\ ControlConnection_close cc w1 = Ok tt w1.
Proof.
  intros Hc Hv. cbv zeta.
  assert (Hfirst : exists w1 c1,
            ControlConnection_close cc w = Ok tt w1
            /\ conns w1 !! cc = Some c1 /\ cc_closed c1 = true
            /\ wsIsOpen (cc_ws c1) = false
            /\ cc_opConn c1 = cc_opConn c
            /\ (forall sock, cc_ws c = Some sock -> readyState sock = OPEN ->
                  cc_ws c1 = Some (ws_close 1000 "" sock))
            /\ (forall o, cc_opConn c = Some o ->
                  exists oc1, ops w1 !! o = Some oc1 /\ oc_closed oc1 = true)).
  { unfold ControlConnection_close.
    unfold bind at 1. rewrite (getCC_Ok _ _ _ Hc).
    assert (Hop : exists w0,
              match cc_opConn c with
              | Some o => OpConn_close o
              | None => ret tt
              end w = Ok tt w0
              /\ conns w0 = conns w
              /\ (forall o, cc_opConn c = Some o ->
                    exists oc1, ops w0 !! o = Some oc1 /\ oc_closed oc1 = true)).
    { destruct (cc_opConn c) as [o|] eqn:Hop.
      - destruct (lookup_lt_is_Some_2 _ _ (Hv _ _ _ Hc Hop)) as [oc Ho].
        destruct (oc_closed oc) eqn:Hcl.
        + rewrite (OpConn_close_closed _ _ _ Ho Hcl). exists w.
          repeat split. intros o' [= <-]. eauto.
        + rewrite (OpConn_close_open _ _ _ Ho Hcl).
          rewrite (OpConn_complete_open _ _ _ None Ho Hcl).
          eexists. split; [reflexivity|]. split; [reflexivity|].
          intros o' [= <-]. eexists. simpl.
          split; [apply list_lookup_insert_eq; eapply lookup_lt_Some, Ho
                 | reflexivity].
      - exists w. repeat split. intros o' [=]. }
    destruct Hop as (w0 & E & Hcs & Hclosed).
    unfold bind at 1. rewrite E.
    assert (Hc0 : conns w0 !! cc = Some c) by now rewrite Hcs.
    destruct (cc_ws c) as [sock|] eqn:Hws;
      [destruct (isOPEN (readyState sock)) eqn:Hrs|];
      exec; simpl; rewrite ?list_alter_alter_eq;
      do 2 eexists; (split; [reflexivity|]); simpl;
      (split; [exact (lookup_alter_Some _ _ _ _ Hc0)|]); simpl;
      rewrite ?Hws; simpl; rewrite ?Hrs;
      repeat split; try assumption; try congruence.
    intros sock' [= <-] Hopen. destruct (readyState sock); discriminate. }
  destruct Hfirst as (w1 & c1 & E & Hc1 & Hcl & Hws & Hop1 & Hsock & Hops).
  rewrite E. cbn [final returned]. split; [reflexivity|].
  split; [exists c1; now repeat split|]. split; [exact Hops|].
  apply (close_closed_noop w1 cc c1 Hc1 Hcl Hws).
  intros o Ho. apply Hops. now rewrite <- Hop1.
Qed.

Lemma ControlConnection_close_idempotent_witness :
  let w1 := final (ControlConnection_close 0 sample_store) in
  returned (ControlConnection_close 0 sample_store) = true
  /\ ControlConnection_close 0 w1 = Ok tt w1
  /\ exists oc1, ops w1 !! 0%nat = Some oc1 /\ oc_closed oc1 = true.
Proof.
  edestruct (ControlConnection_close_idempotent sample_store 0 _ eq_refl)
    as (Hret & _ & Hop & Hsecond).
  - intros i c o Hc Ho. destruct i as [|i]; [|destruct i; discriminate].
    injection Hc as <-. injection Ho as <-. simpl. lia.
  - cbv zeta. split; [exact Hret|]. split; [exact Hsecond|].
    exact (Hop 0%nat eq_refl).
Defined.

(* --------------------------------------------------------------------- *)
(** ** A closed connection stays closed *)
(* --------------------------------------------------------------------- *)

Section KeepsFacts.
Variable R : World -> World -> Prop.
Hypothesis R_refl : forall w, R w w.
Hypothesis R_trans : forall w1 w2 w3, R w1 w2 -> R w2 w3 -> R w1 w3.

Lemma keeps_ret {A} (a : A) : keeps R (ret a).
Proof. intros w. apply R_refl. Qed.

Lemma keeps_throw {A} e : keeps R (@throw World A e).
Proof. intros w. apply R_refl. Qed.

Lemma keeps_get : keeps R (@get World).
Proof. intros w. apply R_refl. Qed.

Lemma keeps_getOp i : keeps R (getOp i).
Proof. intros w. unfold getOp. destruct (ops w !! i); apply R_refl. Qed.

Lemma keeps_getCC i : keeps R (getCC i).
Proof. intros w. unfold getCC. destruct (conns w !! i); apply R_refl. Qed.

Lemma keeps_bind {A B} (m : M World A) (k : A -> M World B) :
  keeps R m -> (forall a, keeps R (k a)) -> keeps R (bind m k).
Proof.
  intros Hm Hk w. unfold bind. specialize (Hm w).
  destruct (m w) as [a w1|e w1]; simpl in *; [|assumption].
  eapply R_trans; [exact Hm | apply Hk].
Qed.

Lemma keeps_try (m : M World unit) : keeps R m -> keeps R (try_ignore m).
Proof.
  intros Hm w. unfold try_ignore. specialize (Hm w).
  destruct (m w); simpl in *; assumption.
Qed.

Lemma keeps_forEach {A} (f : A -> M World unit) l :
  (forall x, keeps R (f x)) -> keeps R (forEach f l).
Proof.
  intros Hf. induction l as [|x l IH]; simpl.
  - apply keeps_ret.
  - apply keeps_bind; [apply Hf | intros _; exact IH].
Qed.

End KeepsFacts.

Lemma conn_stable_refl w : conn_stable w w.
Proof. intros i c Hc. eauto. Qed.

Lemma conn_stable_trans w1 w2 w3 :
  conn_stable w1 w2 -> conn_stable w2 w3 -> conn_stable w1 w3.
Proof.
  intros H12 H23 i c Hc.
  destruct (H12 i c Hc) as (c2 & Hc2 & Hcl2 & Hws2).
  destruct (H23 i c2 Hc2) as (c3 & Hc3 & Hcl3 & Hws3).
  exists c3. repeat split; auto.
Qed.

Lemma cs_modify (f : World -> World) :
  (forall w, conns (f w) = conns w) -> keeps conn_stable (modify f).
Proof. intros Hf w i c Hc. simpl. rewrite Hf. eauto. Qed.

Lemma cs_newPromise : keeps conn_stable newPromise.
Proof. intros w i c Hc. simpl. eauto. Qed.

Lemma cs_newOpConn cc tty : keeps conn_stable (newOpConn cc tty).
Proof. intros w i c Hc. simpl. eauto. Qed.

Lemma cs_newControlConnection : keeps conn_stable newControlConnection.
Proof.
  intros w i c Hc. exists c. simpl. split; [|auto].
  rewrite lookup_app_l; [assumption|]. eapply lookup_lt_Some, Hc.
Qed.

Lemma cs_updCC i f :
  (forall c, (cc_closed c = true -> cc_closed (f c) = true)
             /\ (is_Some (cc_ws c) -> is_Some (cc_ws (f c)))) ->
  keeps conn_stable (updCC i f).
Proof.
  intros Hf w j c Hc. simpl. destruct (decide (i = j)) as [->|Hne].
  - exists (f c). split; [now apply lookup_alter_Some | apply Hf].
  - exists c. split; [now rewrite list_lookup_alter_ne | auto].
Qed.

Lemma cs_ret {A} (a : A) : keeps conn_stable (ret a).
Proof. apply keeps_ret, conn_stable_refl. Qed.

Lemma cs_throw {A} e : keeps conn_stable (@throw World A e).
Proof. apply keeps_throw, conn_stable_refl. Qed.

Lemma cs_get : keeps conn_stable (@get World).
Proof. apply keeps_get, conn_stable_refl. Qed.

Lemma cs_getOp i : keeps conn_stable (getOp i).
Proof. apply keeps_getOp, conn_stable_refl. Qed.

Lemma cs_getCC i : keeps conn_stable (getCC i).
Proof. apply keeps_getCC, conn_stable_refl. Qed.

Lemma cs_bind {A B} (m : M World A) (k : A -> M World B) :
  keeps conn_stable m -> (forall a, keeps conn_stable (k a)) ->
  keeps conn_stable (bind m k).
Proof. apply keeps_bind, conn_stable_trans. Qed.

Lemma cs_forEach {A} (f : A -> M World unit) l :
  (forall x, keeps conn_stable (f x)) -> keeps conn_stable (forEach f l).
Proof. apply keeps_forEach; [apply conn_stable_refl | apply conn_stable_trans]. Qed.

Create HintDb cs.
#[local] Hint Resolve cs_ret cs_throw cs_get cs_getOp cs_getCC cs_newPromise
  cs_newOpConn cs_newControlConnection : cs.

(** The field updates the three classes make. *)
Ltac cs_field_update :=
  apply cs_updCC; intros [ws0 ? ? ? ? ? ? ? ? ?]; simpl; split;
  [ intros; first [assumption | reflexivity]
  | intros Hsome; first [assumption | eexists; reflexivity
                        | destruct Hsome as [? ->]; eexists; reflexivity] ].

Ltac cs :=
  repeat first
    [ progress intros
    | solve [auto with cs]
    | cs_field_update
    | apply cs_forEach
    | apply keeps_try
    | match goal with
      | |- keeps _ (if ?b then _ else _) => destruct b
      | |- keeps _ (match ?x with _ => _ end) => destruct x
      | |- keeps _ (modify _) => apply cs_modify; intros; reflexivity
      | |- keeps _ (updOp _ _) => apply cs_modify; intros; reflexivity
      | |- keeps _ (updPool _) => apply cs_modify; intros; reflexivity
      | |- keeps _ (settle _ _) => apply cs_modify; intros; reflexivity
      | |- keeps _ (bind _ _) => apply cs_bind
      end ].

Lemma cs_OpConn_emit o e : keeps conn_stable (OpConn_emit o e).
Proof. unfold OpConn_emit. cs. Qed.

Lemma cs_OpConn_complete o x : keeps conn_stable (OpConn_complete o x).
Proof. pose proof cs_OpConn_emit. unfold OpConn_complete. cs. Qed.

Lemma cs_OpConn_close o : keeps conn_stable (OpConn_close o).
Proof. pose proof cs_OpConn_emit. unfold OpConn_close. cs. Qed.

Lemma cs_OpConn_handleData o d : keeps conn_stable (OpConn_handleData o d).
Proof. pose proof cs_OpConn_emit. unfold OpConn_handleData. cs. Qed.

Lemma cs_ControlConnection_sendData c d :
  keeps conn_stable (ControlConnection_sendData c d).
Proof. unfold ControlConnection_sendData. cs. Qed.

Lemma cs_ControlConnection_emit c e :
  keeps conn_stable (ControlConnection_emit c e).
Proof. unfold ControlConnection_emit. cs. Qed.

Lemma cs_ControlConnection_setActive c b :
  keeps conn_stable (ControlConnection_setActive c b).
Proof. unfold ControlConnection_setActive. cs. Qed.

Lemma cs_ControlConnection_close c : keeps conn_stable (ControlConnection_close c).
Proof. pose proof cs_OpConn_close. unfold ControlConnection_close. cs. Qed.

Lemma cs_ControlConnection_connect c :
  keeps conn_stable (ControlConnection_connect c).
Proof. unfold ControlConnection_connect. cs. Qed.

#[local] Hint Resolve cs_OpConn_emit cs_OpConn_complete cs_OpConn_close
  cs_OpConn_handleData cs_ControlConnection_sendData
  cs_ControlConnection_emit cs_ControlConnection_setActive
  cs_ControlConnection_close cs_ControlConnection_connect : cs.

Lemma cs_OpConn_onError o : keeps conn_stable (OpConn_onError o).
Proof. unfold OpConn_onError. cs. Qed.

Lemma cs_OpConn_write o d : keeps conn_stable (OpConn_write o d).
Proof. unfold OpConn_write. cs. Qed.

Lemma cs_OpConn_sendEOF o : keeps conn_stable (OpConn_sendEOF o).
Proof. unfold OpConn_sendEOF. cs. Qed.

Lemma cs_OpConn_wait o : keeps conn_stable (OpConn_wait o).
Proof. unfold OpConn_wait. cs. Qed.

Lemma cs_ControlConnection_clearOpConn c :
  keeps conn_stable (ControlConnection_clearOpConn c).
Proof. unfold ControlConnection_clearOpConn. cs. Qed.

Lemma cs_ws_transition c r : keeps conn_stable (ws_transition c r).
Proof.
  unfold ws_transition. apply cs_updCC. intros [ws0 ? ? ? ? ? ? ? ? ?]. simpl.
  split; [auto|]. intros [x ->]. simpl. eauto.
Qed.

Lemma cs_ControlConnection_onOpen c :
  keeps conn_stable (ControlConnection_onOpen c).
Proof. unfold ControlConnection_onOpen. cs. Qed.

Lemma cs_ControlConnection_onError c e :
  keeps conn_stable (ControlConnection_onError c e).
Proof. unfold ControlConnection_onError. cs. Qed.

Lemma cs_ControlConnection_handleControlMessage c m :
  keeps conn_stable (ControlConnection_handleControlMessage c m).
Proof. unfold ControlConnection_handleControlMessage. cs. Qed.

Lemma cs_ControlConnection_handleClose c :
  keeps conn_stable (ControlConnection_handleClose c).
Proof. unfold ControlConnection_handleClose. cs. Qed.
#[local] Hint Resolve cs_OpConn_onError cs_OpConn_write cs_OpConn_sendEOF
  cs_OpConn_wait cs_ControlConnection_clearOpConn cs_ws_transition
  cs_ControlConnection_onOpen cs_ControlConnection_onError
  cs_ControlConnection_handleControlMessage
  cs_ControlConnection_handleClose : cs.

Lemma cs_ControlPool_acquire : keeps conn_stable ControlPool_acquire.
Proof. unfold ControlPool_acquire. cs. Qed.

Lemma cs_ControlPool_acquire_resume p c :
  keeps conn_stable (ControlPool_acquire_resume p c).
Proof. unfold ControlPool_acquire_resume. cs. Qed.

Lemma cs_drainLoop idle toClose closed :
  keeps conn_stable (drainLoop idle toClose closed).
Proof.
  revert closed. induction idle as [|c idle IH]; intros closed; simpl; cs.
Qed.
#[local] Hint Resolve cs_ControlPool_acquire cs_ControlPool_acquire_resume
  cs_drainLoop : cs.

Lemma cs_ControlPool_tryDrain : keeps conn_stable ControlPool_tryDrain.
Proof. unfold ControlPool_tryDrain. cs. Qed.
#[local] Hint Resolve cs_ControlPool_tryDrain : cs.

Lemma cs_ControlPool_release c : keeps conn_stable (ControlPool_release c).
Proof. unfold ControlPool_release. cs. Qed.

Lemma cs_ControlPool_close : keeps conn_stable ControlPool_close.
Proof. unfold ControlPool_close. cs. Qed.

Lemma cs_socket_open c : keeps conn_stable (socket_open c).
Proof. unfold socket_open. cs. Qed.

Lemma cs_socket_error c e : keeps conn_stable (socket_error c e).
Proof. unfold socket_error. cs. Qed.

Lemma cs_socket_close c : keeps conn_stable (socket_close c).
Proof. unfold socket_close. cs. Qed.
#[local] Hint Resolve cs_ControlPool_release cs_ControlPool_close
  cs_socket_open cs_socket_error cs_socket_close : cs.

Section PermanentFacts.
Context `{JSONRuntime}.

Lemma cs_OpConn_resize o c r : keeps conn_stable (OpConn_resize o c r).
Proof. unfold OpConn_resize. cs. Qed.

Lemma cs_OpConn_signal o s : keeps conn_stable (OpConn_signal o s).
Proof. unfold OpConn_signal. cs. Qed.

Lemma cs_OpConn_handleText o s : keeps conn_stable (OpConn_handleText o s).
Proof. unfold OpConn_handleText. cs. Qed.

Lemma cs_ControlConnection_sendControl c m :
  keeps conn_stable (ControlConnection_sendControl c m).
Proof. unfold ControlConnection_sendControl. cs. Qed.

Lemma cs_ControlConnection_handleMessage c d :
  keeps conn_stable (ControlConnection_handleMessage c d).
Proof.
  unfold ControlConnection_handleMessage. cbv zeta.
  pose proof cs_OpConn_handleText. cs.
Qed.

Lemma cs_ControlConnection_startOp c op options :
  keeps conn_stable (ControlConnection_startOp c op options).
Proof.
  unfold ControlConnection_startOp. pose proof cs_ControlConnection_sendControl.
  cs.
Qed.

Lemma cs_step a : keeps conn_stable (step a).
Proof.
  pose proof cs_OpConn_resize. pose proof cs_OpConn_signal.
  pose proof cs_OpConn_handleText. pose proof cs_ControlConnection_handleMessage.
  pose proof cs_ControlConnection_startOp.
  destruct a; simpl; cs.
Qed.

Lemma run_conn_stable sched w : conn_stable w (run sched w).
Proof.
  revert w. induction sched as [|a sched IH]; intros w; simpl.
  - apply conn_stable_refl.
  - eapply conn_stable_trans; [apply cs_step | apply IH].
Qed.

(** X13.  Closure of a connection is permanent, and a connection connects
    at most once.  After any schedule of method calls and socket events, a
    connection that was closed is still closed: it is not available to
    [acquire()] and [startOp] on it throws the closed-connection error;
    and a connection that had a socket still has one, so [connect()] on it
    throws ["Already connected"], also after that socket has closed. *)
Theorem closed_connection_is_permanent
  (sched : list Step) (w : World) (cc : nat) (c : ControlConnection) :
  conns w !! cc = Some c ->
  let w' := run sched w in
  (cc_closed c = true ->
   isAvailable w' cc = false
   /\ forall op options, exists c',
        conns w' !! cc = Some c'
        /\ ControlConnection_startOp cc op options w'
           = Throw ("Control connection closed: "
                      +:+ or_unknown (cc_closeError c')) w')
  /\ (is_Some (cc_ws c) ->
      ControlConnection_connect cc w' = Throw "Already connected" w').
Proof.
  intros Hc. cbv zeta.
  destruct (run_conn_stable sched w cc c Hc) as (c' & Hc' & Hcl & Hws).
  split.
  - intros Hclosed. specialize (Hcl Hclosed). split.
    + unfold isAvailable. now rewrite Hc', Hcl.
    + intros op options. exists c'. split; [exact Hc'|].
      unfold ControlConnection_startOp. unfold bind at 1.
      rewrite (getCC_Ok _ _ _ Hc'). now rewrite Hcl.
  - intros Hsome. destruct (Hws Hsome) as [sock Hsock].
    unfold ControlConnection_connect. unfold bind at 1.
    rewrite (getCC_Ok _ _ _ Hc'). now rewrite Hsock.
Qed.

End PermanentFacts.

(** The example connection after its socket closed, through a schedule in
    which the pool is used, the socket reports an error and a message
    arrives late. *)
Lemma closed_connection_is_permanent_witness :
  let w' := run (H := rejectingJSON)
              [CallAcquire; SocketOpen 1; CallRelease 0; SocketError 0 "late";
               SocketMessage 0 (DBinary (encodeFrame Exit [x00]));
               CallConnect 0] sample_closed in
  isAvailable w' 0 = false
  /\ ControlConnection_connect 0 w' = Throw "Already connected" w'.
Proof.
  edestruct (closed_connection_is_permanent (H := rejectingJSON)
               [CallAcquire; SocketOpen 1; CallRelease 0; SocketError 0 "late";
                SocketMessage 0 (DBinary (encodeFrame Exit [x00]));
                CallConnect 0] sample_closed 0 _ eq_refl)
    as [Hclosed Hconn].
  cbv zeta. split.
  - exact (proj1 (Hclosed eq_refl)).
  - apply Hconn. eexists. reflexivity.
Defined.

(* ===================================================================== *)
(** * Further properties of the pool *)
(* ===================================================================== *)

Lemma find_first {A} (p : A -> bool) (l : list A) (x : A) :
  find p l = Some x ->
  p x = true
  /\ exists before after,
       l = before ++ x :: after /\ Forall (fun y => p y = false) before.
Proof.
  induction l as [|y l IH]; simpl; [discriminate|].
  destruct (p y) eqn:Hy.
  - intros [= <-]. split; [assumption|]. exists [], l. now split.
  - intros Hf. destruct (IH Hf) as (Hx & before & after & -> & Hb).
    split; [assumption|]. exists (y :: before), after. split; [reflexivity|].
    now constructor.
Qed.

Lemma isAvailable_Some (w : World) (cc : nat) :
  isAvailable w cc = true ->
  exists c, conns w !! cc = Some c /\ cc_closed c = false
            /\ cc_poolActive c = false.
Proof.
  unfold isAvailable. destruct (conns w !! cc) as [c|]; [|discriminate].
  intros Hb. apply andb_true_iff in Hb as [H1 H2].
  apply negb_true_iff in H1, H2. eauto.
Qed.

(** X14.  On an open pool whose roster has an available connection,
    [acquire()] returns a promise already fulfilled with the first
    available connection in roster order and marks it active; it creates
    no connection, suspends nothing and leaves the pool and every other
    connection as they are.  The connection is then unavailable, so the
    next [acquire()] cannot be given the same one. *)
Theorem acquire_reuses_first_idle (w : World) (cc : nat) :
  pool_closed (pool w) = false ->
  find (isAvailable w) (pool_conns (pool w)) = Some cc ->
  let r := ControlPool_acquire w in
  let w' := final r in
  r = Ok (length (promises w)) w'
  /\ promises w' = promises w ++ [Fulfilled (VConn cc)]
  /\ (exists before after,
        pool_conns (pool w) = before ++ cc :: after
        /\ Forall (fun i => isAvailable w i = false) before)
  /\ length (conns w') = length (conns w)
  /\ (forall j, j <> cc -> conns w' !! j = conns w !! j)
  /\ pool w' = pool w /\ awaiting w' = awaiting w /\ ops w' = ops w
  /\ isAvailable w' cc = false
  /\ find (isAvailable w') (pool_conns (pool w')) <> Some cc.
Proof.
  intros Hopen Hfind. cbv zeta.
  destruct (find_first _ _ _ Hfind) as (Hav & before & after & Hroster & Hb).
  destruct (isAvailable_Some _ _ Hav) as (c & Hc & Hcl & Hact).
  assert (E : ControlPool_acquire w
              = Ok (length (promises w))
                   (set_promises (promises w ++ [Fulfilled (VConn cc)])
                      (set_conns (<[cc := set_cc_poolActive true c]> (conns w))
                         w))).
  { unfold ControlPool_acquire, ControlConnection_setActive. exec.
    rewrite Hopen.
    change (isAvailable (set_promises (promises w ++ [Pending]) w))
      with (isAvailable w).
    rewrite Hfind. exec. unfold settle. exec. simpl.
    rewrite alter_last, (alter_as_insert _ _ _ _ Hc). reflexivity. }
  rewrite E. cbn [final].
  pose proof (lookup_lt_Some _ _ _ Hc) as Hlt.
  assert (Hnot : isAvailable
                   (set_promises (promises w ++ [Fulfilled (VConn cc)])
                      (set_conns (<[cc := set_cc_poolActive true c]> (conns w))
                         w)) cc = false).
  { unfold isAvailable. simpl. rewrite list_lookup_insert_eq by assumption.
    simpl. apply andb_false_r. }
  split; [reflexivity|]. split; [reflexivity|].
  split; [exists before, after; now split|].
  split; [simpl; apply length_insert|].
  split; [intros j Hne; simpl; apply list_lookup_insert_ne; congruence|].
  split; [reflexivity|]. split; [reflexivity|]. split; [reflexivity|].
  split; [exact Hnot|].
  intros Hf. apply find_some in Hf as [_ Hf]. congruence.
Qed.

(** A connection released on a small pool, then acquired again. *)
Lemma acquire_reuses_first_idle_witness :
  let w := final (ControlPool_release 0
                    (run (H := rejectingJSON) [CallAcquire; SocketOpen 0]
                         (newWorld 2))) in
  promises (final (ControlPool_acquire w)) !! 2%nat
  = Some (Fulfilled (VConn 0))
  /\ length (conns (final (ControlPool_acquire w))) = 1%nat.
Proof.
  edestruct (acquire_reuses_first_idle
               (final (ControlPool_release 0
                         (run (H := rejectingJSON) [CallAcquire; SocketOpen 0]
                              (newWorld 2)))) 0 eq_refl eq_refl)
    as (_ & Hp & _ & Hl & _).
  cbv zeta. rewrite Hp, Hl. split; reflexivity.
Defined.

(* --------------------------------------------------------------------- *)
(** ** ControlPool.close *)
(* --------------------------------------------------------------------- *)

Lemma quiet_refl w : quiet w w.
Proof. now repeat split. Qed.

Lemma quiet_trans w1 w2 w3 : quiet w1 w2 -> quiet w2 w3 -> quiet w1 w3.
Proof.
  intros (A1 & P1 & S1) (A2 & P2 & S2). repeat split; try congruence.
  intros p st Hp Hst. apply S2; auto.
Qed.

Lemma quiet_modify (f : World -> World) :
  (forall w, awaiting (f w) = awaiting w /\ pool (f w) = pool w
             /\ promises (f w) = promises w) ->
  keeps quiet (modify f).
Proof.
  intros Hf w. destruct (Hf w) as (A & P & S). simpl. repeat split; auto.
  intros p st Hp _. now rewrite S.
Qed.

Lemma quiet_settle p r : keeps quiet (settle p r).
Proof.
  intros w. simpl. repeat split. intros q st Hq Hst. simpl.
  destruct (decide (p = q)) as [->|Hne].
  - rewrite (lookup_alter_Some _ _ _ _ Hq). now destruct st.
  - now rewrite list_lookup_alter_ne.
Qed.

Ltac quiet_bind :=
  apply keeps_bind; [exact quiet_trans | | intros ].

Lemma quiet_updOp i f : keeps quiet (updOp i f).
Proof. apply quiet_modify. now repeat split. Qed.

Lemma quiet_updCC i f : keeps quiet (updCC i f).
Proof. apply quiet_modify. now repeat split. Qed.

Lemma quiet_OpConn_close o : keeps quiet (OpConn_close o).
Proof.
  unfold OpConn_close, OpConn_emit.
  quiet_bind; [apply keeps_getOp, quiet_refl|].
  destruct (oc_closed a); [apply keeps_ret, quiet_refl|].
  quiet_bind; [apply quiet_updOp|].
  quiet_bind; [apply keeps_getOp, quiet_refl|].
  quiet_bind; [apply quiet_updOp|].
  quiet_bind; [apply quiet_updOp|].
  apply keeps_forEach; [exact quiet_refl | exact quiet_trans |].
  intros p. apply quiet_settle.
Qed.

Lemma quiet_ControlConnection_close c : keeps quiet (ControlConnection_close c).
Proof.
  unfold ControlConnection_close.
  quiet_bind; [apply keeps_getCC, quiet_refl|].
  quiet_bind.
  { destruct (cc_opConn a); [apply quiet_OpConn_close | apply keeps_ret, quiet_refl]. }
  quiet_bind; [|apply quiet_updCC].
  destruct (cc_ws a) as [sock|]; [destruct (isOPEN (readyState sock))|];
    first [apply quiet_updCC | apply keeps_ret, quiet_refl].
Qed.

(** Closing the connections of a list, one after the other. *)
Lemma closeAll_spec (l : list nat) :
  forall w : World,
    opConns_valid w ->
    (forall i, i ∈ l -> is_Some (conns w !! i)) ->
    exists w',
      forEach ControlConnection_close l w = Ok tt w'
      /\ quiet w w'
      /\ (forall i, i ∈ l ->
            exists c', conns w' !! i = Some c' /\ cc_closed c' = true)
      /\ (forall j, j ∉ l -> conns w' !! j = conns w !! j).
Proof.
  induction l as [|cc l IH]; intros w Hv Hval.
  - exists w. split; [reflexivity|]. split; [apply quiet_refl|].
    split; [|auto]. intros i Hi. now apply elem_of_nil in Hi.
  - destruct (Hval cc (list_elem_of_here _ _)) as [c Hc].
    destruct (ControlConnection_close_spec w cc c Hc Hv)
      as (w1 & c1 & E1 & Hp & Hl & Hcs & Hop & Hcl).
    pose proof (quiet_ControlConnection_close cc w) as Hq1.
    rewrite E1 in Hq1. cbn [final] in Hq1.
    destruct (IH w1) as (w' & E & Hq & Hclosed & Hsame).
    { eapply (opConns_valid_insert w w1); eauto. }
    { intros i Hi. rewrite Hcs. apply list_lookup_insert_is_Some.
      apply Hval. now apply list_elem_of_further. }
    exists w'. simpl. unfold bind. rewrite E1.
    split; [exact E|]. split; [eapply quiet_trans; eauto|]. split.
    + intros i Hi. apply elem_of_cons in Hi as [->|Hi]; [|now apply Hclosed].
      pose proof (keeps_forEach conn_stable conn_stable_refl conn_stable_trans
                    ControlConnection_close l cs_ControlConnection_close w1)
        as Hst.
      rewrite E in Hst. cbn [final] in Hst.
      destruct (Hst cc c1) as (c' & Hc' & Hcl' & _).
      { rewrite Hcs. apply list_lookup_insert_eq. eapply lookup_lt_Some, Hc. }
      exists c'. split; [exact Hc' | now apply Hcl'].
    + intros j Hj. apply not_elem_of_cons in Hj as [Hne Hj].
      rewrite (Hsame j Hj), Hcs. apply list_lookup_insert_ne. congruence.
Qed.

(** What [close()] of a pool does in a well-formed store. *)
Lemma ControlPool_close_spec (w : World) :
  opConns_valid w ->
  (forall i, i ∈ pool_conns (pool w) -> is_Some (conns w !! i)) ->
  exists w',
    ControlPool_close w = Ok tt w'
    /\ pool w' = mkControlPool [] [] true (pool_maxSize (pool w))
    /\ (forall p, p ∈ pool_waiters (pool w) -> promises w !! p = Some Pending ->
          promises w' !! p = Some (Rejected "Pool is closed"))
    /\ (forall i, i ∈ pool_conns (pool w) ->
          exists c', conns w' !! i = Some c' /\ cc_closed c' = true)
    /\ (forall j, j ∉ pool_conns (pool w) -> conns w' !! j = conns w !! j)
    /\ awaiting w' = awaiting w.
Proof.
  intros Hv Hval.
  set (w1 := set_pool (set_pool_waiters []
                         (set_pool_closed true (pool w)))
               (set_promises
                  (settle_all (pool_waiters (pool w))
                     (Rejected "Pool is closed") (promises w)) w)).
  destruct (closeAll_spec (pool_conns (pool w)) w1)
    as (w2 & E & (Ha & Hp & Hs) & Hclosed & Hsame).
  { exact Hv. }
  { exact Hval. }
  exists (set_pool (set_pool_conns [] (pool w2)) w2). split.
  { unfold ControlPool_close. exec. rewrite forEach_settle. simpl. exec.
    simpl.
    match goal with
    | |- context [forEach ControlConnection_close _ ?w0] =>
        change w0 with w1
    end.
    rewrite E. reflexivity. }
  split; [simpl; rewrite Hp; reflexivity|].
  split.
  { intros p Hin Hpend. simpl. apply Hs; [|discriminate]. simpl.
    now apply settle_all_pending. }
  split; [exact Hclosed|]. split; [exact Hsame | exact Ha].
Qed.

(** X15.  [close()] of a pool in a well-formed store returns with the pool
    marked closed and its roster and waiter queue empty; every waiter that
    was pending is rejected with ["Pool is closed"], every connection of
    the roster is closed, and connections outside the roster and suspended
    calls are not touched.  An [acquire()] after that returns a promise
    already rejected with ["Pool is closed"] and changes nothing else. *)
Theorem pool_close_rejects_and_closes (w : World) :
  opConns_valid w ->
  (forall i, i ∈ pool_conns (pool w) -> is_Some (conns w !! i)) ->
  let r := ControlPool_close w in
  let w' := final r in
  returned r = true
  /\ pool w' = mkControlPool [] [] true (pool_maxSize (pool w))
  /\ (forall p, p ∈ pool_waiters (pool w) -> promises w !! p = Some Pending ->
        promises w' !! p = Some (Rejected "Pool is closed"))
  /\ (forall i, i ∈ pool_conns (pool w) ->
        exists c', conns w' !! i = Some c' /\ cc_closed c' = true)
  /\ (forall j, j ∉ pool_conns (pool w) -> conns w' !! j = conns w !! j)
  /\ awaiting w' = awaiting w
  /\ ControlPool_acquire w'
     = Ok (length (promises w'))
          (set_promises (promises w' ++ [Rejected "Pool is closed"]) w').
Proof.
  intros Hv Hval. cbv zeta.
  destruct (ControlPool_close_spec w Hv Hval)
    as (w' & E & Hp & Hw & Hc & Hs & Ha).
  rewrite E. cbn [final returned]. repeat split; try assumption.
  unfold ControlPool_acquire. exec. simpl. rewrite Hp. simpl.
  unfold settle. exec. simpl. now rewrite alter_last.
Qed.

(** The saturated example pool: connection 0 in use, three waiters. *)
Lemma pool_close_rejects_and_closes_witness :
  let w' := final (ControlPool_close sample_full) in
  pool w' = mkControlPool [] [] true 1
  /\ promises w' !! 2%nat = Some (Rejected "Pool is closed")
  /\ promises w' !! 4%nat = Some (Rejected "Pool is closed")
  /\ exists c', conns w' !! 0%nat = Some c' /\ cc_closed c' = true.
Proof.
  edestruct (pool_close_rejects_and_closes sample_full)
    as (_ & Hpool & Hw & Hc & _).
  - intros i c o Hc Ho. destruct i as [|i]; [|destruct i; discriminate].
    injection Hc as <-. discriminate.
  - intros i Hi. apply list_elem_of_singleton in Hi as ->. eexists. reflexivity.
  - cbv zeta. split; [exact Hpool|].
    split; [apply Hw; [repeat constructor | reflexivity]|].
    split; [apply Hw; [repeat constructor | reflexivity]|].
    apply Hc. apply list_elem_of_here.
Defined.

(** X16.  [close()] of the pool does not cancel an [acquire()] that is
    suspended in [connect()]: the call is still recorded after the close,
    and when its socket opens the connection is pushed on the roster of
    the closed pool and marked active, and the caller's promise, if still
    pending, is fulfilled with it.  The connection is not closed by the
    pool's close. *)
Theorem pool_close_keeps_suspended_acquire
  (w : World) (cc p : nat) (c : ControlConnection) :
  opConns_valid w ->
  (forall i, i ∈ pool_conns (pool w) -> is_Some (conns w !! i)) ->
  conns w !! cc = Some c -> cc ∉ pool_conns (pool w) ->
  List.filter (fun pc : nat * nat => Nat.eqb (snd pc) cc) (awaiting w)
  = [(p, cc)] ->
  cc_connect c <> Some p ->
  let w1 := final (ControlPool_close w) in
  let w2 := final (socket_open cc w1) in
  pool_closed (pool w2) = true
  /\ pool_conns (pool w2) = [cc]
  /\ (exists c2, conns w2 !! cc = Some c2
        /\ cc_poolActive c2 = true /\ cc_closed c2 = cc_closed c)
  /\ (promises w1 !! p = Some Pending ->
      promises w2 !! p = Some (Fulfilled (VConn cc))).
Proof.
  intros Hv Hval Hc Hout Hmine Hcp. cbv zeta.
  destruct (ControlPool_close_spec w Hv Hval)
    as (w1 & E & Hp & _ & _ & Hs & Ha).
  rewrite E. cbn [final].
  assert (Hc1 : conns w1 !! cc = Some c) by now rewrite (Hs cc Hout).
  unfold socket_open, ws_transition, ControlConnection_onOpen,
    ControlPool_acquire_resume, ControlConnection_setActive.
  exec.
  destruct (cc_connect c) as [cp|] eqn:Hconn; simpl; rewrite Hconn;
    unfold settle; exec; simpl;
    rewrite Ha, Hmine; simpl; exec; simpl;
    rewrite ?list_alter_alter_eq; exec; simpl; rewrite Hp; simpl;
    (split; [reflexivity|]); (split; [reflexivity|]);
    (split; [eexists; split;
               [rewrite ?list_alter_alter_eq;
                exact (lookup_alter_Some _ _ _ _ Hc1)|];
             split; reflexivity|]);
    intros Hpend.
  - rewrite list_lookup_alter_eq, list_lookup_alter_ne by congruence.
    now rewrite Hpend.
  - rewrite list_lookup_alter_eq. now rewrite Hpend.
Qed.

Lemma pool_close_keeps_suspended_acquire_witness :
  let w2 := final (socket_open 0 (final (ControlPool_close sample_connecting))) in
  pool_closed (pool w2) = true /\ pool_conns (pool w2) = [0%nat]
  /\ promises w2 !! 0%nat = Some (Fulfilled (VConn 0)).
Proof.
  assert (Hv : opConns_valid sample_connecting).
  { intros i c o Hc Ho. destruct i as [|i]; [|destruct i; discriminate].
    injection Hc as <-. discriminate. }
  assert (Hval : forall i, i ∈ pool_conns (pool sample_connecting) ->
                           is_Some (conns sample_connecting !! i)).
  { intros i Hi. now apply elem_of_nil in Hi. }
  assert (Hout : 0%nat ∉ pool_conns (pool sample_connecting))
    by apply not_elem_of_nil.
  edestruct (pool_close_keeps_suspended_acquire sample_connecting 0 0 _
               Hv Hval eq_refl Hout eq_refl) as (Hcl & Hr & _ & Hp).
  - discriminate.
  - cbv zeta. split; [exact Hcl|]. split; [exact Hr|]. apply Hp. reflexivity.
Defined.

(* --------------------------------------------------------------------- *)
(** ** ControlPool.release *)
(* --------------------------------------------------------------------- *)

(** X17.  [release()] does not look at the operation: on a connection whose
    operation is still running, with no waiter and a roster within the
    drain threshold, it makes the connection available to [acquire()] and
    forgets the operation, but leaves the operation slot taken, so that a
    [startOp] on it throws ["Operation already in progress"].  When the
    text of the [op.complete] or [op.error] envelope arrives later on the
    connection it frees the slot and reaches no operation: the operations
    and promises of the store are as they were before the release. *)
Theorem release_keeps_operation_slot {H : JSONRuntime}
  (w : World) (cc : nat) (c : ControlConnection)
  (text : string) (msg : ControlMessage) :
  conns w !! cc = Some c -> cc_closed c = false -> cc_opActive c = true ->
  pool_waiters (pool w) = [] ->
  Z.of_nat (length (pool_conns (pool w))) <= POOL_DRAIN_THRESHOLD ->
  JSON_parse_control text = Some msg ->
  msg_type msg = TYPE_OP_COMPLETE \/ msg_type msg = TYPE_OP_ERROR ->
  let w1 := final (ControlPool_release cc w) in
  let r2 := ControlConnection_handleMessage cc
              (DString (CONTROL_PREFIX +:+ text)) w1 in
  let w2 := final r2 in
  isAvailable w1 cc = true
  /\ (forall op options,
        ControlConnection_startOp cc op options w1
        = Throw "Operation already in progress" w1)
  /\ returned r2 = true
  /\ ops w2 = ops w /\ promises w2 = promises w
  /\ conns w2 !! cc = Some (freed (released c)).
Proof.
  intros Hc Hopen Hact Hw Hn Hparse Hmsg. cbv zeta.
  pose proof (lookup_lt_Some _ _ _ Hc) as Hlt.
  rewrite (release_no_waiters w cc c Hc Hw), tryDrain_not_needed
    by (simpl; apply orb_true_iff; right; now apply Z.leb_le).
  cbn [final].
  assert (Hc1 : <[cc := released c]> (conns w) !! cc = Some (released c))
    by now apply list_lookup_insert_eq.
  split; [unfold isAvailable; simpl; rewrite Hc1; simpl; now rewrite Hopen|].
  split.
  { intros op options. unfold ControlConnection_startOp, getCC. unfold_monad.
    simpl. rewrite Hc1. simpl. now rewrite Hopen, Hact. }
  rewrite (handleMessage_control _ _ _ _ Hparse).
  unfold ControlConnection_handleControlMessage.
  destruct Hmsg as [-> | ->]; simpl; unfold getCC, updCC; unfold_monad;
    simpl; rewrite Hc1; simpl;
    (split; [reflexivity|]); (split; [reflexivity|]); (split; [reflexivity|]);
    rewrite !list_alter_alter_eq, alter_as_insert with (x := released c)
      by (now rewrite ?length_insert || exact Hc1);
    now rewrite list_lookup_insert_eq by now rewrite length_insert.
Qed.

(** The example connection 0, released while its operation 0 runs; the
    text of op.complete arrives afterwards. *)
Lemma release_keeps_operation_slot_witness :
  let w1 := final (ControlPool_release 0 sample_store) in
  let w2 := final (ControlConnection_handleMessage (H := envelopeJSON) 0
                     (DString (json_text
                        "control:{'type':'op.complete','args':{'exitCode':3}}"))
                     w1) in
  isAvailable w1 0 = true
  /\ returned (ControlConnection_startOp (H := envelopeJSON) 0 "exec"
                 sample_options w1) = false
  /\ ops w2 = ops sample_store
  /\ promises w2 = promises sample_store
  /\ (cc_opActive <$> conns w2 !! 0%nat) = Some false.
Proof.
  assert (Hn : Z.of_nat (length (pool_conns (pool sample_store)))
               <= POOL_DRAIN_THRESHOLD) by (vm_compute; discriminate).
  edestruct (release_keeps_operation_slot (H := envelopeJSON) sample_store 0 _
               op_complete_text (op_complete_with 3)
               eq_refl eq_refl eq_refl eq_refl Hn eq_refl (or_introl eq_refl))
    as (Ha & Hs & _ & Ho & Hp & Hc).
  cbv zeta.
  change (json_text "control:{'type':'op.complete','args':{'exitCode':3}}")
    with (CONTROL_PREFIX +:+ op_complete_text).
  split; [exact Ha|]. split; [now rewrite Hs|].
  split; [exact Ho|]. split; [exact Hp|]. now rewrite Hc.
Defined.

Lemma filter_none {A} (f : A -> bool) (l : list A) :
  (forall y, y ∈ l -> f y = false) -> List.filter f l = [].
Proof.
  induction l as [|y l IH]; intros Hall; [reflexivity|]. simpl.
  rewrite (Hall y) by left. apply IH. intros z Hz. apply Hall. now right.
Qed.

Lemma filter_singleton {A} (f : A -> bool) (l : list A) (x : A) :
  NoDup l -> x ∈ l -> f x = true ->
  (forall y, y ∈ l -> y <> x -> f y = false) ->
  List.filter f l = [x].
Proof.
  induction l as [|y l IH]; intros Hnd Hin Hx Hother.
  - now apply elem_of_nil in Hin.
  - apply NoDup_cons in Hnd as [Hy Hnd]. simpl.
    apply elem_of_cons in Hin as [->|Hin].
    + rewrite Hx. f_equal. apply filter_none. intros z Hz.
      apply Hother; [now right|]. intros ->. now apply Hy.
    + rewrite (Hother y) by (try left; intros ->; now apply Hy).
      apply IH; [exact Hnd | exact Hin | exact Hx |].
      intros z Hz. apply Hother. now right.
Qed.

(** X18.  On a roster above the drain threshold, with no waiter, where every
    other connection is in use or closed, [release(cc)] closes the released
    connection itself and removes it from the roster: the roster shrinks by
    exactly one and no other connection is touched. *)
Theorem release_over_threshold_closes_released
  (w : World) (cc : nat) (c : ControlConnection) :
  opConns_valid w ->
  conns w !! cc = Some c -> cc_closed c = false ->
  NoDup (pool_conns (pool w)) -> cc ∈ pool_conns (pool w) ->
  (forall j, j ∈ pool_conns (pool w) -> j <> cc -> isAvailable w j = false) ->
  pool_waiters (pool w) = [] -> pool_closed (pool w) = false ->
  POOL_DRAIN_THRESHOLD < Z.of_nat (length (pool_conns (pool w))) ->
  let r := ControlPool_release cc w in
  let w' := final r in
  returned r = true
  /\ pool_conns (pool w')
     = List.filter (fun j => negb (Nat.eqb j cc)) (pool_conns (pool w))
  /\ S (length (pool_conns (pool w'))) = length (pool_conns (pool w))
  /\ (exists c', conns w' !! cc = Some c' /\ cc_closed c' = true)
  /\ (forall j, j <> cc -> conns w' !! j = conns w !! j).
Proof.
  intros Hv Hc Hopen Hnd Hin Hbusy Hw Hpc Hn. cbv zeta.
  pose proof (lookup_lt_Some _ _ _ Hc) as Hlt.
  rewrite (release_no_waiters w cc c Hc Hw).
  set (w0 := set_conns (<[cc := released c]> (conns w)) w).
  assert (Hc0 : conns w0 !! cc = Some (released c))
    by now apply list_lookup_insert_eq.
  assert (Hv0 : opConns_valid w0).
  { intros i d o Hd Ho. simpl in *.
    destruct (decide (i = cc)) as [->|Hne].
    - rewrite list_lookup_insert_eq in Hd by exact Hlt.
      injection Hd as <-. discriminate.
    - rewrite list_lookup_insert_ne in Hd by congruence. eapply Hv; eauto. }
  assert (Hidle : List.filter (isAvailable w0) (pool_conns (pool w)) = [cc]).
  { apply filter_singleton; [exact Hnd | exact Hin | |].
    - unfold isAvailable. rewrite Hc0. simpl. now rewrite Hopen.
    - intros j Hj Hne. rewrite <- (Hbusy j Hj Hne). unfold isAvailable, w0.
      simpl. now rewrite list_lookup_insert_ne by congruence. }
  destruct (ControlConnection_close_spec w0 cc (released c) Hc0 Hv0)
    as (w1 & c' & E & Hp1 & _ & Hcs & _ & Hcl).
  unfold ControlPool_tryDrain. unfold_monad. cbn [pool w0 set_conns].
  rewrite Hpc. simpl orb.
  replace (Z.of_nat (length (pool_conns (pool w))) <=? POOL_DRAIN_THRESHOLD)
    with false by (symmetry; apply Z.leb_gt; exact Hn).
  fold w0. rewrite Hidle.
  replace (Z.of_nat (length (pool_conns (pool w))) - POOL_DRAIN_TARGET <=? 0)
    with false
    by (symmetry; apply Z.leb_gt; unfold POOL_DRAIN_TARGET,
          POOL_DRAIN_THRESHOLD in *; lia).
  cbn [drainLoop].
  replace (0 >=? Z.of_nat (length (pool_conns (pool w))) - POOL_DRAIN_TARGET)
    with false
    by (symmetry; rewrite Z.geb_leb; apply Z.leb_gt;
        unfold POOL_DRAIN_TARGET, POOL_DRAIN_THRESHOLD in *; lia).
  unfold_monad. cbn [orb]. cbv beta. rewrite E. unfold updPool.
  unfold_monad. cbn [final returned].
  cbn [pool conns set_pool set_pool_conns pool_conns]. rewrite Hp1.
  split; [reflexivity|]. split; [reflexivity|].
  split; [now apply length_filter_other|].
  rewrite Hcs. split.
  - exists c'. split; [|exact Hcl]. apply list_lookup_insert_eq.
    unfold w0. simpl. now rewrite length_insert.
  - intros j Hne. unfold w0. simpl.
    now rewrite !list_lookup_insert_ne by congruence.
Qed.

(** Twenty-one connections, all in use; connection 0 is released. *)
Lemma release_over_threshold_closes_released_witness :
  let w' := final (ControlPool_release 0 sample_busy21) in
  length (pool_conns (pool w')) = 20%nat
  /\ exists c', conns w' !! 0%nat = Some c' /\ cc_closed c' = true.
Proof.
  assert (Hv : opConns_valid sample_busy21).
  { intros i c o Hc Ho. unfold sample_busy21 in Hc. cbn [conns] in Hc.
    apply lookup_replicate_1 in Hc as [-> _]. discriminate. }
  assert (Hbusy : forall j, j ∈ pool_conns (pool sample_busy21) -> j <> 0%nat ->
                            isAvailable sample_busy21 j = false).
  { intros j Hj _. unfold isAvailable, sample_busy21. cbn [conns].
    destruct (replicate 21 (set_cc_poolActive true idle_connection) !! j)
      as [d|] eqn:Hd; [|reflexivity].
    apply lookup_replicate_1 in Hd as [-> _]. reflexivity. }
  assert (Hn : POOL_DRAIN_THRESHOLD
               < Z.of_nat (length (pool_conns (pool sample_busy21))))
    by reflexivity.
  edestruct (release_over_threshold_closes_released sample_busy21 0 _
               Hv eq_refl eq_refl (NoDup_seq 0 21)
               ltac:(apply elem_of_seq; lia) Hbusy eq_refl eq_refl Hn)
    as (_ & _ & Hl & Hc & _).
  cbv zeta. split; [|exact Hc].
  apply eq_add_S. rewrite Hl. reflexivity.
Defined.

(* --------------------------------------------------------------------- *)
(** ** Socket errors *)
(* --------------------------------------------------------------------- *)

(** The calls suspended on [cc] are taken off the list before they continue. *)
Lemma resumed_once (cc : nat) (l : list (nat * nat)) :
  List.filter (fun pc : nat * nat => Nat.eqb (snd pc) cc)
    (List.filter (fun pc : nat * nat => negb (Nat.eqb (snd pc) cc)) l) = [].
Proof.
  induction l as [|[q d] l IH]; [reflexivity|]. simpl.
  destruct (Nat.eqb_spec d cc) as [->|Hd]; simpl; [exact IH|].
  destruct (Nat.eqb_spec d cc) as [->|_]; [contradiction|exact IH].
Qed.

(** X19.  When the socket of a new connection fails before it opened, the
    connection stores the error, [connect()] is rejected with it, and the
    [acquire()] suspended on this connection is rejected with the same
    error: the connection never enters the roster, is not marked closed,
    and the pool and the operations are not touched. *)
Theorem connect_failure_rejects_acquire
  (w : World) (cc p cp : nat) (c : ControlConnection) (error : string) :
  conns w !! cc = Some c -> cc_connected c = false ->
  cc_connect c = Some cp -> cp <> p ->
  List.filter (fun pc : nat * nat => Nat.eqb (snd pc) cc) (awaiting w)
  = [(p, cc)] ->
  promises w !! p = Some Pending -> promises w !! cp = Some Pending ->
  let r := socket_error cc error w in
  let w' := final r in
  returned r = true
  /\ promises w' !! p = Some (Rejected error)
  /\ promises w' !! cp = Some (Rejected error)
  /\ conns w' !! cc = Some (set_cc_closeError (Some error) c)
  /\ pool w' = pool w /\ ops w' = ops w
  /\ List.filter (fun pc : nat * nat => Nat.eqb (snd pc) cc) (awaiting w') = [].
Proof.
  intros Hc Hconn Hcp Hne Hmine Hp Hpc. cbv zeta.
  unfold socket_error, ControlConnection_onError, settle. exec.
  rewrite Hconn, Hcp. exec. simpl. rewrite Hmine. simpl. exec. simpl.
  split; [reflexivity|].
  split.
  { rewrite list_lookup_alter_eq, list_lookup_alter_ne by congruence.
    now rewrite Hp. }
  split.
  { rewrite list_lookup_alter_ne, list_lookup_alter_eq by congruence.
    now rewrite Hpc. }
  split; [reflexivity|].
  split; [reflexivity|]. split; [reflexivity|].
  apply resumed_once.
Qed.

(** The connecting example: the socket of connection 0 fails. *)
Lemma connect_failure_rejects_acquire_witness :
  let w' := final (socket_error 0 "refused" sample_connecting) in
  promises w' !! 0%nat = Some (Rejected "refused")
  /\ pool w' = pool sample_connecting.
Proof.
  edestruct (connect_failure_rejects_acquire sample_connecting 0 0 1 _
               "refused" eq_refl eq_refl eq_refl)
    as (_ & Hp & _ & _ & Hpool & _).
  - discriminate.
  - reflexivity.
  - reflexivity.
  - reflexivity.
  - cbv zeta. split; [exact Hp | exact Hpool].
Defined.

Lemma OpConn_close_conns (w : World) (o : nat) (oc : OpConn) :
  ops w !! o = Some oc ->
  exists w', OpConn_close o w = Ok tt w' /\ conns w' = conns w.
Proof.
  intros Ho. destruct (oc_closed oc) eqn:Hcl.
  - exists w. split; [now apply (OpConn_close_closed w o oc)|reflexivity].
  - rewrite (OpConn_close_open w o oc Ho Hcl),
      (OpConn_complete_open w o oc None Ho Hcl).
    eexists. split; reflexivity.
Qed.

Section SocketErrorFacts.
Context `{JSONRuntime}.

(** X20.  An error of the socket of a connected connection is stored and
    emitted as ['error'] (which throws when nobody listens), and by itself
    neither closes the connection nor touches its operation or any
    promise.  When the socket then closes, every later [startOp] throws
    ["Control connection closed: "] followed by the message of that
    error. *)
Theorem socket_error_then_close_names_error
  (w : World) (cc : nat) (c : ControlConnection) (error : string) :
  opConns_valid w ->
  conns w !! cc = Some c -> cc_connected c = true -> error <> "" ->
  let r1 := socket_error cc error w in
  let w1 := final r1 in
  let w2 := final (socket_close cc w1) in
  returned r1 = negb (Nat.eqb (cc_errorListeners c) 0)
  /\ conns w1 !! cc
     = Some (set_cc_emitted (cc_emitted c ++ [ConnError error])
               (set_cc_closeError (Some error) c))
  /\ ops w1 = ops w /\ promises w1 = promises w /\ pool w1 = pool w
  /\ (forall op options,
        ControlConnection_startOp cc op options w2
        = Throw ("Control connection closed: " +:+ error) w2).
Proof.
  intros Hv Hc Hconn Herr. cbv zeta.
  pose proof (lookup_lt_Some _ _ _ Hc) as Hlt.
  assert (E1 : exists w1,
             final (socket_error cc error w) = w1
             /\ returned (socket_error cc error w)
                = negb (Nat.eqb (cc_errorListeners c) 0)
             /\ conns w1 = <[cc := set_cc_emitted
                                     (cc_emitted c ++ [ConnError error])
                                     (set_cc_closeError (Some error) c)]>
                             (conns w)
             /\ ops w1 = ops w /\ promises w1 = promises w
             /\ pool w1 = pool w).
  { unfold socket_error, ControlConnection_onError, ControlConnection_emit.
    exec. rewrite Hconn. exec. simpl.
    rewrite list_alter_alter_eq,
      (alter_as_insert _ _ _ _ Hc).
    destruct (Nat.eqb (cc_errorListeners c) 0); exec; simpl;
      eexists; (split; [reflexivity|]); repeat split; reflexivity. }
  destruct E1 as (w1 & -> & Hr & Hcs & Hops & Hps & Hpool).
  split; [exact Hr|].
  split; [rewrite Hcs; now apply list_lookup_insert_eq|].
  split; [exact Hops|]. split; [exact Hps|]. split; [exact Hpool|].
  intros op options.
  set (c1 := set_cc_emitted (cc_emitted c ++ [ConnError error])
               (set_cc_closeError (Some error) c)) in *.
  assert (Hc1 : conns w1 !! cc = Some c1)
    by (rewrite Hcs; now apply list_lookup_insert_eq).
  set (f := fun c0 : ControlConnection =>
              set_cc_ws (option_map
                           (fun s => mkWebSocket CLOSED (sent s) (closeCalls s))
                           (cc_ws c0)) c0).
  assert (E2 : exists w2 c2,
             final (socket_close cc w1) = w2
             /\ conns w2 !! cc = Some c2 /\ cc_closed c2 = true
             /\ cc_closeError c2 = Some error).
  { unfold socket_close, ws_transition, ControlConnection_handleClose,
      ControlConnection_emit.
    exec. simpl. rewrite list_alter_alter_eq.
    destruct (cc_opConn c) as [o|] eqn:Hop.
    - assert (Ho : is_Some (ops w1 !! o)).
      { apply lookup_lt_is_Some. rewrite Hops. eapply Hv; eauto. }
      destruct Ho as [oc Ho].
      match goal with
      | |- context [OpConn_close o ?w0] =>
          destruct (OpConn_close_conns w0 o oc Ho) as (w3 & -> & Hcs3)
      end.
      simpl in Hcs3. exec. rewrite Hcs3.
      rewrite (lookup_alter_Some _ _ _ _ Hc1). exec. simpl.
      rewrite Hcs3, list_alter_alter_eq.
      eexists _, _. split; [reflexivity|]. simpl.
      split; [exact (lookup_alter_Some _ _ _ _ Hc1)|]. split; reflexivity.
    - exec. simpl. rewrite list_alter_alter_eq.
      eexists _, _. split; [reflexivity|]. simpl.
      split; [exact (lookup_alter_Some _ _ _ _ Hc1)|]. split; reflexivity. }
  destruct E2 as (w2 & c2 & -> & Hc2 & Hcl2 & He2).
  unfold ControlConnection_startOp, getCC. unfold_monad. rewrite Hc2.
  simpl. rewrite Hcl2, He2. unfold or_unknown.
  destruct (String.eqb_spec error ""); [contradiction|reflexivity].
Qed.

End SocketErrorFacts.

(** The connected example connection, with nobody listening for errors:
    the emit throws, and after the close [startOp] names the error. *)
Lemma socket_error_then_close_names_error_witness :
  let r1 := socket_error 0 "reset" sample_store in
  returned r1 = false
  /\ ControlConnection_startOp (H := rejectingJSON) 0 "exec" sample_options
       (final (socket_close 0 (final r1)))
     = Throw "Control connection closed: reset"
             (final (socket_close 0 (final r1))).
Proof.
  assert (Hv : opConns_valid sample_store).
  { intros i c o Hc Ho. destruct i as [|i]; [|destruct i; discriminate].
    injection Hc as <-. injection Ho as <-. simpl. lia. }
  edestruct (socket_error_then_close_names_error (H := rejectingJSON)
               sample_store 0 _ "reset" Hv eq_refl eq_refl)
    as (Hr & _ & _ & _ & _ & Hs).
  - discriminate.
  - cbv zeta. split; [exact Hr|]. apply Hs.
Defined.

(* --------------------------------------------------------------------- *)
(** ** Connections whose socket closed, in the pool *)
(* --------------------------------------------------------------------- *)

(** The close of the socket of a connection returns, marks the connection
    closed, and touches no other connection and not the pool. *)
Lemma socket_close_spec (w : World) (cc : nat) (c : ControlConnection) :
  conns w !! cc = Some c -> opConns_valid w ->
  exists w' c',
    socket_close cc w = Ok tt w'
    /\ pool w' = pool w
    /\ length (ops w') = length (ops w)
    /\ conns w' = <[cc := c']> (conns w)
    /\ cc_opConn c' = cc_opConn c
    /\ cc_closed c' = true.
Proof.
  intros Hc Hv.
  pose proof (lookup_lt_Some _ _ _ Hc) as Hlt.
  set (g := fun c0 : ControlConnection =>
              set_cc_closed true
                (set_cc_ws (option_map
                              (fun s => mkWebSocket CLOSED (sent s) (closeCalls s))
                              (cc_ws c0)) c0)).
  set (w0 := set_conns (<[cc := g c]> (conns w)) w).
  assert (Hc0 : conns w0 !! cc = Some (g c))
    by now apply list_lookup_insert_eq.
  assert (Hv0 : opConns_valid w0)
    by (eapply (opConns_valid_insert w w0 cc c (g c)); eauto; reflexivity).
  destruct (close_current_operation w0 cc (g c) Hc0 Hv0)
    as (w1 & E & Hcs & Hp & Hl).
  change (cc_opConn (g c)) with (cc_opConn c) in E.
  assert (Hc1 : conns w1 !! cc = Some (g c)) by now rewrite Hcs.
  exists (set_conns (alter (set_cc_emitted (cc_emitted (g c) ++ [ConnClose]))
                       cc (conns w1)) w1),
         (set_cc_emitted (cc_emitted (g c) ++ [ConnClose]) (g c)).
  split.
  { unfold socket_close, ws_transition, ControlConnection_handleClose,
      ControlConnection_emit.
    exec. simpl. rewrite list_alter_alter_eq.
    rewrite (alter_as_insert _ _ _ _ Hc).
    match goal with
    | |- context [match cc_opConn c with
                  | Some o => OpConn_close o
                  | None => _ end ?wx] => change wx with w0
    end.
    rewrite E. exec. reflexivity. }
  cbn [pool conns ops set_conns]. split; [exact Hp|]. split; [exact Hl|].
  split; [|split; reflexivity].
  rewrite (alter_as_insert _ _ _ _ Hc1), Hcs. unfold w0. cbn [conns set_conns].
  now rewrite list_insert_insert_eq.
Qed.

(** The sockets of a list of connections close, one after the other. *)
Lemma socketCloseAll_spec (l : list nat) :
  forall w : World,
    opConns_valid w ->
    (forall i, i ∈ l -> is_Some (conns w !! i)) ->
    exists w',
      forEach socket_close l w = Ok tt w'
      /\ pool w' = pool w
      /\ length (conns w') = length (conns w)
      /\ (forall i, i ∈ l ->
            exists c', conns w' !! i = Some c' /\ cc_closed c' = true)
      /\ (forall j, j ∉ l -> conns w' !! j = conns w !! j).
Proof.
  induction l as [|cc l IH]; intros w Hv Hval.
  - exists w. split; [reflexivity|]. split; [reflexivity|].
    split; [reflexivity|]. split; [|auto].
    intros i Hi. now apply elem_of_nil in Hi.
  - destruct (Hval cc (list_elem_of_here _ _)) as [c Hc].
    destruct (socket_close_spec w cc c Hc Hv)
      as (w1 & c1 & E1 & Hp & Hl & Hcs & Hop & Hcl).
    destruct (IH w1) as (w' & E & Hp' & Hlen & Hclosed & Hsame).
    { eapply (opConns_valid_insert w w1); eauto. }
    { intros i Hi. rewrite Hcs. apply list_lookup_insert_is_Some.
      apply Hval. now apply list_elem_of_further. }
    exists w'. simpl. unfold bind. rewrite E1.
    split; [exact E|]. split; [congruence|].
    split; [now rewrite Hlen, Hcs, length_insert|]. split.
    + intros i Hi. apply elem_of_cons in Hi as [->|Hi]; [|now apply Hclosed].
      pose proof (keeps_forEach conn_stable conn_stable_refl conn_stable_trans
                    socket_close l cs_socket_close w1) as Hst.
      rewrite E in Hst. cbn [final] in Hst.
      destruct (Hst cc c1) as (c' & Hc' & Hcl' & _).
      { rewrite Hcs. apply list_lookup_insert_eq. eapply lookup_lt_Some, Hc. }
      exists c'. split; [exact Hc' | now apply Hcl'].
    + intros j Hj. apply not_elem_of_cons in Hj as [Hne Hj].
      rewrite (Hsame j Hj), Hcs. apply list_lookup_insert_ne. congruence.
Qed.

Lemma find_all_false {A} (f : A -> bool) (l : list A) :
  (forall y, y ∈ l -> f y = false) -> find f l = None.
Proof.
  induction l as [|y l IH]; intros Hall; [reflexivity|]. simpl.
  rewrite (Hall y) by left. apply IH. intros z Hz. apply Hall. now right.
Qed.

(** X21.  The pool never evicts a connection whose socket closed.  Once the
    sockets of all the connections of the roster have closed, the roster is
    what it was, no connection of it is available, [tryDrain()] closes and
    removes nothing whatever the size of the roster, and on a roster that
    has reached [maxSize] an [acquire()] creates no connection and queues
    the caller behind the waiters, its promise pending. *)
Theorem closed_sockets_keep_their_slots (w : World) :
  opConns_valid w ->
  (forall i, i ∈ pool_conns (pool w) -> is_Some (conns w !! i)) ->
  pool_closed (pool w) = false ->
  let r := forEach socket_close (pool_conns (pool w)) w in
  let w1 := final r in
  returned r = true
  /\ pool w1 = pool w
  /\ (forall i, i ∈ pool_conns (pool w) -> isAvailable w1 i = false)
  /\ ControlPool_tryDrain w1 = Ok tt w1
  /\ (pool_maxSize (pool w) <= Z.of_nat (length (pool_conns (pool w))) ->
      ControlPool_acquire w1
      = Ok (length (promises w1))
           (set_pool
              (set_pool_waiters (pool_waiters (pool w1) ++ [length (promises w1)])
                                (pool w1))
              (set_promises (promises w1 ++ [Pending]) w1))
      /\ length (conns (final (ControlPool_acquire w1))) = length (conns w)).
Proof.
  intros Hv Hval Hopen. cbv zeta.
  destruct (socketCloseAll_spec (pool_conns (pool w)) w Hv Hval)
    as (w1 & E & Hp & Hlen & Hclosed & _).
  rewrite E. cbn [final returned].
  assert (Hbusy : forall i, i ∈ pool_conns (pool w) -> isAvailable w1 i = false).
  { intros i Hi. destruct (Hclosed i Hi) as (c' & Hc' & Hcl).
    unfold isAvailable. now rewrite Hc', Hcl. }
  assert (Hnone : find (isAvailable w1) (pool_conns (pool w1)) = None).
  { rewrite Hp. now apply find_all_false. }
  split; [reflexivity|]. split; [exact Hp|]. split; [exact Hbusy|]. split.
  { unfold ControlPool_tryDrain. unfold_monad.
    destruct (pool_closed (pool w1)
              || (Z.of_nat (length (pool_conns (pool w1)))
                  <=? POOL_DRAIN_THRESHOLD)); [reflexivity|].
    assert (Hf : List.filter (isAvailable w1) (pool_conns (pool w1)) = [])
      by (rewrite Hp; apply filter_none, Hbusy).
    rewrite Hf. now destruct (_ <=? 0). }
  intros Hfull.
  assert (Eq : ControlPool_acquire w1
               = Ok (length (promises w1))
                    (set_pool
                       (set_pool_waiters
                          (pool_waiters (pool w1) ++ [length (promises w1)])
                          (pool w1))
                       (set_promises (promises w1 ++ [Pending]) w1))).
  { apply acquire_queues_last; [now rewrite Hp | exact Hnone |].
    rewrite Hp. now apply Z.ltb_ge. }
  split; [exact Eq|]. rewrite Eq. cbn [final]. exact Hlen.
Qed.

(** The saturated example pool of size 1 after the socket of its only
    connection closed: the fourth waiter is queued, no connection is made. *)
Lemma closed_sockets_keep_their_slots_witness :
  let w1 := final (forEach socket_close [0%nat] sample_full) in
  pool_conns (pool w1) = [0%nat]
  /\ isAvailable w1 0 = false
  /\ length (conns (final (ControlPool_acquire w1))) = 1%nat.
Proof.
  assert (Hv : opConns_valid sample_full).
  { intros i c o Hc Ho. destruct i as [|i]; [|destruct i; discriminate].
    injection Hc as <-. discriminate. }
  assert (Hval : forall i, i ∈ pool_conns (pool sample_full) ->
                           is_Some (conns sample_full !! i)).
  { intros i Hi. apply list_elem_of_singleton in Hi as ->. now eexists. }
  edestruct (closed_sockets_keep_their_slots sample_full Hv Hval eq_refl)
    as (_ & Hp & Hb & _ & Hq).
  cbv zeta.
  split; [change (pool_conns (pool sample_full)) with [0%nat] in Hp;
          now rewrite Hp|].
  split; [apply Hb; left|].
  destruct Hq as [_ Hl]; [vm_compute; discriminate | exact Hl].
Defined.

(* --------------------------------------------------------------------- *)
(** ** OpConn.signal and OpConn.resize *)
(* --------------------------------------------------------------------- *)

(** X22.  [signal] and [resize] of an operation do not look at [closed]:
    whether or not the operation is closed, on a connection whose socket is
    open [signal] sends its text as one binary frame, and so does [resize]
    on a TTY operation, while on a non-TTY operation [resize] does nothing.
    When the socket is not open, [signal] throws ["WebSocket not
    connected"], and [resize] does so on a TTY operation only. *)
Theorem OpConn_control_ignores_closed {H : JSONRuntime}
  (w : World) (o : nat) (oc : OpConn) (c : ControlConnection)
  (sig : string) (cols rows : Z) :
  ops w !! o = Some oc -> conns w !! oc_cc oc = Some c ->
  let send (data : list byte) : Res World unit :=
    match cc_ws c with
    | Some sock =>
        if isOPEN (readyState sock)
        then Ok tt (set_conns
                      (<[oc_cc oc := set_cc_ws (Some (ws_send (DBinary data) sock)) c]>
                         (conns w)) w)
        else Throw "WebSocket not connected" w
    | None => Throw "WebSocket not connected" w
    end in
  OpConn_signal o sig w = send (list_byte_of_string (JSON_stringify_signal sig))
  /\ OpConn_resize o cols rows w
     = if oc_tty oc
       then send (list_byte_of_string (JSON_stringify_resize cols rows))
       else Ok tt w.
Proof.
  intros Ho Hc. cbv zeta.
  unfold OpConn_signal, OpConn_resize, ControlConnection_sendData.
  split; exec; [|destruct (oc_tty oc); simpl; [exec|reflexivity]];
    (destruct (cc_ws c) as [sock|]; [|reflexivity]);
    (destruct (isOPEN (readyState sock)); [|reflexivity]);
    exec; now rewrite (alter_as_insert _ _ _ _ Hc).
Qed.

(** The completed example operation: a signal still goes out on its
    connection, while a resize, the operation not being a TTY one, does
    nothing. *)
Lemma OpConn_control_ignores_closed_witness :
  returned (OpConn_signal (H := rejectingJSON) 0 "TERM" sample_completed) = true
  /\ OpConn_signal (H := rejectingJSON) 0 "TERM" sample_completed
     <> Ok tt sample_completed
  /\ OpConn_resize (H := rejectingJSON) 0 80 24 sample_completed
     = Ok tt sample_completed.
Proof.
  edestruct (OpConn_control_ignores_closed (H := rejectingJSON)
               sample_completed 0 _ _ "TERM" 80 24 eq_refl eq_refl)
    as [Hs Hr].
  rewrite Hs. split; [reflexivity|]. split; [discriminate | exact Hr].
Defined.
